(** * Jukebox index manager: variant merge, catalog cache and download pipeline

    A shallow embedding of [src/managers/index_manager.cpp].  The C++ member
    functions become functions over an explicit manager state; everything the
    code does to its collaborators (the notification bus, the web layer, the
    local song store, the file system) is recorded, in program order, in a
    list of effects. *)

From Stdlib Require Import ZArith QArith String Ascii List Bool Lia Lqa Permutation Sorted.
From stdpp Require Import base option list gmap strings pretty.

Local Open Scope string_scope.
Local Open Scope list_scope.

(** ** Variant records *)

Module Model.

(** [NongType], with the ranks of the table [sortedNongType] of [getNongs]. *)
Inductive NongType := LOCAL | HOSTED | YOUTUBE.

Definition sortedNongType (t : NongType) : Z :=
  match t with LOCAL => 1 | HOSTED => 2 | YOUTUBE => 3 end%Z.

Definition NongType_eqb (a b : NongType) : bool :=
  match a, b with
  | LOCAL, LOCAL | HOSTED, HOSTED | YOUTUBE, YOUTUBE => true
  | _, _ => false
  end.

(** Modelled from the spec: the declarations of [nong.hpp] are not part of the
    sources.  [SongMetadata] is built in [loadIndex] from six arguments: the
    song id, the unique id, name, artist, an optional value (the optional
    local path of the data model) and the start offset. *)
Record SongMetadata := mkSongMetadata {
  gdID : Z;
  uniqueID : string;
  name : string;
  artist : string;
  local_path : option string;
  startOffset : Z
}.

(** Modelled from the spec: a [LocalSong] is a materialized file and has no
    catalog id; [YTSong] and [HostedSong] are built in [loadIndex] from the
    metadata, the source (video id or URL), an optional [indexID] and an
    optional path, which is the one [Song::path()] answers with. *)
Record LocalSong := mkLocalSong {
  l_metadata : SongMetadata;
  l_path : string
}.

Record YTSong := mkYTSong {
  yt_metadata : SongMetadata;
  youtubeID : string;
  yt_indexID : option string;
  yt_path : option string
}.

Record HostedSong := mkHostedSong {
  h_metadata : SongMetadata;
  url : string;
  h_indexID : option string;
  h_path : option string
}.

(** The polymorphic base [Song], as a tagged union. *)
Inductive Song :=
| ALocal (s : LocalSong)
| AYT (s : YTSong)
| AHosted (s : HostedSong).

Definition metadata (s : Song) : SongMetadata :=
  match s with
  | ALocal l => l_metadata l
  | AYT y => yt_metadata y
  | AHosted h => h_metadata h
  end.

Definition type (s : Song) : NongType :=
  match s with ALocal _ => LOCAL | AYT _ => YOUTUBE | AHosted _ => HOSTED end.

Definition indexID (s : Song) : option string :=
  match s with
  | ALocal _ => None
  | AYT y => yt_indexID y
  | AHosted h => h_indexID h
  end.

Definition path (s : Song) : option string :=
  match s with
  | ALocal l => Some (l_path l)
  | AYT y => yt_path y
  | AHosted h => h_path h
  end.

Definition has_value {A} (o : option A) : bool :=
  match o with Some _ => true | None => false end.

(** Modelled from the spec: the per-song collection [Nongs] owns one default
    song and the sequences of its local, YouTube and hosted songs. *)
Record Nongs := mkNongs {
  defaultSong : LocalSong;
  locals : list LocalSong;
  youtube : list YTSong;
  hosted : list HostedSong
}.

(** A [Song*]: the object a pointer designates is a slot of the local store's
    collection or of the index table's collection for the song id at hand. *)
Inductive SongAddr :=
| InDefault
| InLocals (i : nat)
| InYoutube (i : nat)
| InHosted (i : nat)
| IndexYoutube (i : nat)
| IndexHosted (i : nat).

Definition from_index (a : SongAddr) : bool :=
  match a with IndexYoutube _ | IndexHosted _ => true | _ => false end.

Record SongPtr := mkSongPtr {
  addr : SongAddr;
  pointee : Song
}.

Definition uid (p : SongPtr) : string := uniqueID (metadata (pointee p)).

End Model.

Export Model.

(** ** The merged, ordered list of variants: [IndexManager::getNongs] *)

Module Merge.

(** The comparator handed to [std::sort].  [file_exists] stands for
    [std::filesystem::exists] and [defaultUniqueID] is the captured unique id
    of the local store's default song. *)
Definition path_on_disk (file_exists : string -> bool) (s : Song) : bool :=
  match path s with
  | Some p => file_exists p
  | None => false
  end.

(** Each rule of the comparator either returns ([Some]) or falls through to
    the next one ([None]). *)
Definition rule_default (defaultUniqueID : string) (a b : Song) : option bool :=
  if String.eqb (uniqueID (metadata a)) defaultUniqueID then Some true
  else if String.eqb (uniqueID (metadata b)) defaultUniqueID then Some false
  else None.

Definition rule_no_index (a b : Song) : option bool :=
  if negb (has_value (indexID a)) && has_value (indexID b) then Some true
  else if has_value (indexID a) && negb (has_value (indexID b)) then Some false
  else None.

Definition rule_path (file_exists : string -> bool) (a b : Song) : option bool :=
  if path_on_disk file_exists a
  then if negb (path_on_disk file_exists b) then Some true else None
  else if path_on_disk file_exists b then Some false
  else None.

Definition rule_type (a b : Song) : option bool :=
  if negb (NongType_eqb (type a) (type b))
  then Some (sortedNongType (type a) <? sortedNongType (type b))%Z
  else None.

Definition rule_index_again (a b : Song) : option bool :=
  if negb (Bool.eqb (has_value (indexID a)) (has_value (indexID b)))
  then Some (negb (has_value (indexID a)) && has_value (indexID b))
  else None.

Definition rule_name (a b : Song) : bool :=
  String.ltb (name (metadata a)) (name (metadata b)).

Definition or_else (r : option bool) (next : bool) : bool :=
  match r with Some v => v | None => next end.

Definition sort_lambda (file_exists : string -> bool) (defaultUniqueID : string)
    (a b : Song) : bool :=
  or_else (rule_default defaultUniqueID a b)
    (or_else (rule_no_index a b)
       (or_else (rule_path file_exists a b)
          (or_else (rule_type a b)
             (or_else (rule_index_again a b)
                (rule_name a b))))).

(** [std::sort] on a short range (at most 16 elements in libstdc++) is an
    insertion sort: each element is moved to the front when it compares less
    than the first one, and otherwise walks down from the back while it
    compares less than its predecessor.  [unguarded_linear_insert] works on
    the reversed sorted prefix.  On a longer range the library partitions
    first: there this definition gives the order [std::sort] returns, up to
    the order of equivalent elements, when the comparator orders the range,
    and the call is undefined when it does not.  The theorems on [getNongs]
    say which of the two they stand on, see [sort_defined]. *)
Section Sort.
Context {A : Type} (comp : A -> A -> bool).

Fixpoint unguarded_linear_insert (val : A) (rprefix : list A) : list A :=
  match rprefix with
  | [] => [val]
  | prev :: rest =>
      if comp val prev then prev :: unguarded_linear_insert val rest
      else val :: rprefix
  end.

Definition linear_insert (sorted : list A) (val : A) : list A :=
  match sorted with
  | [] => [val]
  | first :: _ =>
      if comp val first then val :: sorted
      else rev (unguarded_linear_insert val (rev sorted))
  end.

Definition std_sort (l : list A) : list A := fold_left linear_insert l [].

End Sort.

(** The unique ids pushed to [addedIndexSongs] for one local song: only a
    local song that carries an [indexID] is looked up, and only among the
    index songs of its own kind. *)
Definition addedYT (indexNongs : option Nongs) (song : YTSong) : list string :=
  match indexNongs, yt_indexID song with
  | Some idx, Some _ =>
      map (fun _ => uniqueID (yt_metadata song))
        (filter (fun indexSong : YTSong =>
                   uniqueID (yt_metadata song) = uniqueID (yt_metadata indexSong))
           (youtube idx))
  | _, _ => []
  end.

Definition addedHosted (indexNongs : option Nongs) (song : HostedSong) : list string :=
  match indexNongs, h_indexID song with
  | Some idx, Some _ =>
      map (fun _ => uniqueID (h_metadata song))
        (filter (fun indexSong : HostedSong =>
                   uniqueID (h_metadata song) = uniqueID (h_metadata indexSong))
           (hosted idx))
  | _, _ => []
  end.

Definition addedIndexSongs (localNongs : Nongs) (indexNongs : option Nongs) : list string :=
  flat_map (addedYT indexNongs) (youtube localNongs)
  ++ flat_map (addedHosted indexNongs) (hosted localNongs).

(** [std::find(addedIndexSongs.begin(), addedIndexSongs.end(), id) == end]. *)
Definition not_added (added : list string) (id : string) : bool :=
  negb (existsb (String.eqb id) added).

(** The vector [nongs] as it stands before the sort. *)
Definition merged (localNongs : Nongs) (indexNongs : option Nongs) : list SongPtr :=
  let added := addedIndexSongs localNongs indexNongs in
  [mkSongPtr InDefault (ALocal (defaultSong localNongs))]
  ++ imap (fun i s => mkSongPtr (InLocals i) (ALocal s)) (locals localNongs)
  ++ imap (fun i s => mkSongPtr (InYoutube i) (AYT s)) (youtube localNongs)
  ++ imap (fun i s => mkSongPtr (InHosted i) (AHosted s)) (hosted localNongs)
  ++ match indexNongs with
     | Some idx =>
         filter (fun p => not_added added (uid p) = true)
           (imap (fun i s => mkSongPtr (IndexYoutube i) (AYT s)) (youtube idx))
         ++ filter (fun p => not_added added (uid p) = true)
           (imap (fun i s => mkSongPtr (IndexHosted i) (AHosted s)) (hosted idx))
     | None => []
     end.

(** The lambda with its capture: it compares the songs behind two pointers. *)
Definition nong_before (file_exists : string -> bool) (localNongs : Nongs)
    (a b : SongPtr) : bool :=
  sort_lambda file_exists (uniqueID (l_metadata (defaultSong localNongs)))
    (pointee a) (pointee b).

Definition sorted_nongs (file_exists : string -> bool)
    (localNongs : Nongs) (indexNongs : option Nongs) : list SongPtr :=
  std_sort (nong_before file_exists localNongs) (merged localNongs indexNongs).

(** [getNongs]: [nongManager] is the local store behind [NongManager::get()],
    [m_indexNongs] the index table. *)
Definition getNongs (file_exists : string -> bool)
    (nongManager m_indexNongs : gmap Z Nongs) (gdSongID : Z)
    : string + list SongPtr :=
  match nongManager !! gdSongID with
  | None => inl "Failed to get nongs"
  | Some localNongs =>
      inr (sorted_nongs file_exists localNongs (m_indexNongs !! gdSongID))
  end.

End Merge.

Export Merge.

(** ** Manager state, collaborators and effects *)

Module Runtime.

(** [geode::Result]. *)
Inductive Result (A : Type) :=
| Ok (a : A)
| Err (e : string).
Arguments Ok {A} a.
Arguments Err {A} e.

(** [Result::error()] as the code uses it: the empty string stands for
    success. *)
Definition error {A} (r : Result A) : string :=
  match r with Ok _ => "" | Err e => e end.

Definition isErr {A} (r : Result A) : bool :=
  match r with Ok _ => false | Err _ => true end.

(** What a call returns when a container access can throw. *)
Inductive Outcome (A : Type) :=
| Returns (a : A)
| Throws (what : string).
Arguments Returns {A} a.
Arguments Throws {A} what.

(** [matjson::Value]. *)
#[local] Unset Elimination Schemes.
Inductive Json :=
| JNull
| JBool (b : bool)
| JNumber (n : Z)
| JString (s : string)
| JArray (items : list Json)
| JObject (members : list (string * Json)).
#[local] Set Elimination Schemes.

Definition is_object (v : Json) : bool :=
  match v with JObject _ => true | _ => false end.

Fixpoint members_set (key : string) (v : Json) (ms : list (string * Json))
    : list (string * Json) :=
  match ms with
  | [] => [(key, v)]
  | (k, w) :: rest =>
      if String.eqb k key then (k, v) :: rest else (k, w) :: members_set key v rest
  end.

(** [Value::set] on an object; the code only calls it after [is_object]. *)
Definition json_set (key : string) (v : Json) (obj : Json) : Json :=
  match obj with
  | JObject ms => JObject (members_set key v ms)
  | other => other
  end.

Fixpoint members_get (key : string) (ms : list (string * Json)) : option Json :=
  match ms with
  | [] => None
  | (k, w) :: rest => if String.eqb k key then Some w else members_get key rest
  end.

Definition json_get (key : string) (obj : Json) : option Json :=
  match obj with
  | JObject ms => members_get key ms
  | _ => None
  end.

Record IndexSource := mkIndexSource {
  m_url : string;
  m_enabled : bool
}.

Record IndexMetadata := mkIndexMetadata {
  m_id : string;
  m_name : string;
  im_url : string
}.

(** The three events of the notification bus. *)
Inductive SongEvent :=
| SongDownloadProgressEvent (gdSongID : Z) (uniqueID : string) (progress : Q)
| SongErrorEvent (notifyUser : bool) (message : string)
| SongStateChangedEvent (gdSongID : Z).

Definition TaskId := nat.

(** A web response as the code reads it: [ok()], [string()], [json()] and
    [data()]. *)
Record WebResponse := mkWebResponse {
  ok : bool;
  body_string : Result string;
  body_json : Result Json;
  data : string
}.

(** The listener stored in [m_downloadSongListeners]: its filter (the task)
    and the captures of its callback. *)
Record DownloadListener := mkDownloadListener {
  dl_task : TaskId;
  dl_gdSongID : Z;
  dl_id : string;
  dl_nong : SongAddr
}.

(** The listener stored in [m_indexListeners]. *)
Record FetchListener := mkFetchListener {
  fl_task : TaskId;
  fl_index : IndexSource;
  fl_filepath : string
}.

(** The manager's members, the local store behind [NongManager::get()], the
    saved value ["cached-index-names"] and the files on disk.  Progress values
    (C++ [float]) are exact rationals: rounding is not modelled. *)
Record State := mkState {
  m_indexNongs : gmap Z Nongs;
  m_loadedIndexes : gmap string IndexMetadata;
  m_indexListeners : gmap string FetchListener;
  m_downloadSongListeners : gmap string DownloadListener;
  m_downloadProgress : gmap string Q;
  nongManager : gmap Z Nongs;
  cached_index_names : gmap string string;
  files : gmap string string;
  next_task : TaskId
}.

Definition set_indexNongs (f : gmap Z Nongs -> gmap Z Nongs) (s : State) : State :=
  mkState (f (m_indexNongs s)) (m_loadedIndexes s) (m_indexListeners s)
    (m_downloadSongListeners s) (m_downloadProgress s) (nongManager s)
    (cached_index_names s) (files s) (next_task s).

Definition set_loadedIndexes
    (f : gmap string IndexMetadata -> gmap string IndexMetadata) (s : State) : State :=
  mkState (m_indexNongs s) (f (m_loadedIndexes s)) (m_indexListeners s)
    (m_downloadSongListeners s) (m_downloadProgress s) (nongManager s)
    (cached_index_names s) (files s) (next_task s).

Definition set_indexListeners
    (f : gmap string FetchListener -> gmap string FetchListener) (s : State) : State :=
  mkState (m_indexNongs s) (m_loadedIndexes s) (f (m_indexListeners s))
    (m_downloadSongListeners s) (m_downloadProgress s) (nongManager s)
    (cached_index_names s) (files s) (next_task s).

Definition set_downloadSongListeners
    (f : gmap string DownloadListener -> gmap string DownloadListener) (s : State) : State :=
  mkState (m_indexNongs s) (m_loadedIndexes s) (m_indexListeners s)
    (f (m_downloadSongListeners s)) (m_downloadProgress s) (nongManager s)
    (cached_index_names s) (files s) (next_task s).

Definition set_downloadProgress (f : gmap string Q -> gmap string Q) (s : State) : State :=
  mkState (m_indexNongs s) (m_loadedIndexes s) (m_indexListeners s)
    (m_downloadSongListeners s) (f (m_downloadProgress s)) (nongManager s)
    (cached_index_names s) (files s) (next_task s).

Definition set_nongManager (f : gmap Z Nongs -> gmap Z Nongs) (s : State) : State :=
  mkState (m_indexNongs s) (m_loadedIndexes s) (m_indexListeners s)
    (m_downloadSongListeners s) (m_downloadProgress s) (f (nongManager s))
    (cached_index_names s) (files s) (next_task s).

Definition set_cached_index_names
    (f : gmap string string -> gmap string string) (s : State) : State :=
  mkState (m_indexNongs s) (m_loadedIndexes s) (m_indexListeners s)
    (m_downloadSongListeners s) (m_downloadProgress s) (nongManager s)
    (f (cached_index_names s)) (files s) (next_task s).

Definition set_files (f : gmap string string -> gmap string string) (s : State) : State :=
  mkState (m_indexNongs s) (m_loadedIndexes s) (m_indexListeners s)
    (m_downloadSongListeners s) (m_downloadProgress s) (nongManager s)
    (cached_index_names s) (f (files s)) (next_task s).

Definition set_next_task (f : TaskId -> TaskId) (s : State) : State :=
  mkState (m_indexNongs s) (m_loadedIndexes s) (m_indexListeners s)
    (m_downloadSongListeners s) (m_downloadProgress s) (nongManager s)
    (cached_index_names s) (files s) (f (next_task s)).

(** What the code does to the outside, in program order.  Tasks are
    cooperative and their events are delivered one at a time on the
    controlling thread: a request starts a task, [TaskCancel] is
    [Task::cancel()], which marks the task as cancelled, and [TaskFinish] is
    the [finish] callback of a task made by [runWithCallback].  None of them
    runs a listener: what a task answers (progress, its value, its
    cancellation) reaches the listener that filters on it as a later event,
    see [deliver]. *)
Inductive Effect :=
| Post (e : SongEvent)
| WebGet (t : TaskId) (target : string)
| WebPost (t : TaskId) (target : string) (body : Json)
| TaskCancel (t : TaskId)
| TaskFinish (t : TaskId) (result : Result string)
| SetActiveSong (gdSongID : Z) (uniqueID : string).

(** Every effect is logged with the state in which it happens: what a
    subscriber of the bus would read from the manager at that moment. *)
Definition Log := list (Effect * State).

Definition effects (l : Log) : list Effect := map fst l.

Definition posted (l : Log) : list SongEvent :=
  omap (fun e => match e with Post ev => Some ev | _ => None end) (effects l).

(** A small state-and-log monad for the member functions. *)
Definition M (A : Type) : Type := State -> A * State * Log.

Definition ret {A} (a : A) : M A := fun s => (a, s, []).

Definition bind {A B} (m : M A) (k : A -> M B) : M B :=
  fun s =>
    let '(a, s1, l1) := m s in
    let '(b, s2, l2) := k a s1 in
    (b, s2, l1 ++ l2).

Definition get : M State := fun s => (s, s, []).

Definition modify (f : State -> State) : M unit := fun s => (tt, f s, []).

Definition emit (e : Effect) : M unit := fun s => (tt, s, [(e, s)]).

Definition post (e : SongEvent) : M unit := emit (Post e).

Definition when (b : bool) (m : M unit) : M unit := if b then m else ret tt.

Fixpoint for_each {A} (l : list A) (body : A -> M unit) : M unit :=
  match l with
  | [] => ret tt
  | x :: rest => bind (body x) (fun _ => for_each rest body)
  end.

Definition result_of {A} (r : A * State * Log) : A := fst (fst r).
Definition state_of {A} (r : A * State * Log) : State := snd (fst r).
Definition log_of {A} (r : A * State * Log) : Log := snd r.

(** The collaborators whose code is outside the sources. *)
Record Host := mkHost {
  (** [NongManager::generateSongFilePath] *)
  generateSongFilePath : string -> string;
  (** [NongManager::setActiveSong] *)
  setActiveSong : Z -> string -> Result unit;
  (** whether a stream on this path opens *)
  can_open : string -> bool;
  (** [path.filename().string()] *)
  filename : string -> string;
  (** [baseIndexesPath() / "<hex of std::hash of the url>.json"] *)
  cache_file : string -> string;
  (** [matjson::parse], [Value::dump(NO_INDENTATION)] *)
  parse : string -> string + Json;
  dump : Json -> string;
  (** [matjson::Serialize<IndexMetadata>::from_json] *)
  IndexMetadata_from_json : Json -> Result IndexMetadata;
  (** the songs the two entry loops of [loadIndex] build from the catalog,
      each with the song id it is added under, in loop order *)
  index_entries : Json -> IndexMetadata -> list (Z * Song);
  (** [Nongs(gdSongID)] and [Nongs::add] *)
  new_Nongs : Z -> Nongs;
  Nongs_add : Song -> Nongs -> Result Nongs;
  (** the setting ["indexes"] *)
  setting_indexes : list IndexSource
}.

End Runtime.

Export Runtime.

Declare Scope manager_scope.
Notation "'let*' x := m 'in' k" := (bind m (fun x => k))
  (at level 10, x name, m at level 100, k at level 200) : manager_scope.
Notation "m >> k" := (bind m (fun _ => k))
  (at level 100, k at level 200, right associativity) : manager_scope.
Local Open Scope manager_scope.

(** ** The download pipeline: [IndexManager::downloadSong] *)

Module Download.

Definition fresh : M TaskId :=
  fun s => (next_task s, set_next_task S s, []).

(** [map.emplace(key, value)]: nothing is inserted when the key is taken. *)
Definition emplace {V} (key : string) (v : V) (m : gmap string V) : gmap string V :=
  match m !! key with
  | Some _ => m
  | None => <[key := v]> m
  end.

Definition value_or (o : option Q) (d : Q) : Q :=
  match o with Some v => v | None => d end.

(** [getSongDownloadProgress]: [m_downloadProgress.at] throws on a missing
    key. *)
Definition getSongDownloadProgress (st : State) (uniqueID : string) : Outcome (option Q) :=
  if has_value (m_downloadSongListeners st !! uniqueID)
  then match m_downloadProgress st !! uniqueID with
       | Some p => Returns (Some p)
       | None => Throws "out_of_range"
       end
  else Returns None.

(** [nong->setIndexID(id)] through the pointer the listener captured. *)
Definition yt_setIndexID (id : string) (y : YTSong) : YTSong :=
  mkYTSong (yt_metadata y) (youtubeID y) (Some id) (yt_path y).

Definition hosted_setIndexID (id : string) (h : HostedSong) : HostedSong :=
  mkHostedSong (h_metadata h) (url h) (Some id) (h_path h).

Definition alter_youtube (i : nat) (id : string) (n : Nongs) : Nongs :=
  mkNongs (defaultSong n) (locals n) (alter (yt_setIndexID id) i (youtube n)) (hosted n).

Definition alter_hosted (i : nat) (id : string) (n : Nongs) : Nongs :=
  mkNongs (defaultSong n) (locals n) (youtube n) (alter (hosted_setIndexID id) i (hosted n)).

Definition setIndexID (gdSongID : Z) (a : SongAddr) (id : string) : M unit :=
  match a with
  | InYoutube i => modify (set_nongManager (alter (alter_youtube i id) gdSongID))
  | InHosted i => modify (set_nongManager (alter (alter_hosted i id) gdSongID))
  | IndexYoutube i => modify (set_indexNongs (alter (alter_youtube i id) gdSongID))
  | IndexHosted i => modify (set_indexNongs (alter (alter_hosted i id) gdSongID))
  | InDefault | InLocals _ => ret tt
  end.

(** What a [DownloadSongTask] hands to its listener. *)
Inductive TaskEvent :=
| TaskProgress (p : Q)
| TaskCancelled
| TaskValue (result : Result string).

Definition is_terminal (e : TaskEvent) : bool :=
  match e with TaskProgress _ => false | _ => true end.

(** The callback bound to the listener of a download task (the lambda of
    [listener.bind]). *)
Definition downloadSongListener (host : Host) (l : DownloadListener)
    (event : TaskEvent) : M unit :=
  let gdSongID := dl_gdSongID l in
  let id := dl_id l in
  match event with
  | TaskProgress p =>
      modify (set_downloadProgress <[id := p]>) >>
      post (SongDownloadProgressEvent gdSongID id p)
  | _ =>
      modify (set_downloadProgress (delete id)) >>
      modify (set_downloadSongListeners (delete id)) >>
      match event with
      | TaskProgress _ => ret tt
      | TaskCancelled =>
          post (SongErrorEvent false "Failed to fetch song: cancelled") >>
          post (SongStateChangedEvent gdSongID)
      | TaskValue (Err e) =>
          post (SongErrorEvent true ("Failed to fetch song: " +:+ e)) >>
          post (SongStateChangedEvent gdSongID)
      | TaskValue (Ok destination) =>
          if (String.length destination =? 0)%nat
          then post (SongStateChangedEvent gdSongID)
          else
            setIndexID gdSongID (dl_nong l) id >>
            emit (SetActiveSong gdSongID id) >>
            match setActiveSong host gdSongID id with
            | Err e =>
                post (SongErrorEvent true ("Failed to set song as active: " +:+ e)) >>
                post (SongStateChangedEvent gdSongID)
            | Ok _ => post (SongStateChangedEvent gdSongID)
            end
      end
  end.

(** [std::ofstream file(destination); file.write(...)]: a stream that did
    not open drops what is written to it. *)
Definition write_file (host : Host) (destination contents : string) : M unit :=
  if can_open host destination
  then modify (set_files <[destination := contents]>)
  else ret tt.

(** The hosted branch: the value and progress mappers of the web task. *)
Definition hostedValue (host : Host) (response : WebResponse) : M (Result string) :=
  if ok response
  then
    let destination := generateSongFilePath host "mp3" in
    write_file host destination (data response) >>
    ret (Ok destination)
  else ret (Err "Web request failed").

Definition hostedProgress (downloadProgress : option Q) : Q :=
  (value_or downloadProgress 0 / 100)%Q.

(** What a web task hands to a listener of the YouTube branch. *)
Inductive WebEvent :=
| WebProgress (downloadProgress : option Q)
| WebValue (response : WebResponse)
| WebCancelled.

Definition isCancelled (e : WebEvent) : bool :=
  match e with WebCancelled => true | _ => false end.

(** Where the two heap-allocated listeners of a YouTube task stand:
    [cobaltMetadataListener] filters on the resolver request, or
    [cobaltSongListener] on the audio request, or neither is bound to a
    request (never bound, or deleted). *)
Inductive YTPhase :=
| Resolving (request : TaskId)
| Fetching (request : TaskId)
| Unbound.

Definition stageA (downloadProgress : option Q) : Q :=
  (value_or downloadProgress 0 / 1000)%Q.

Definition stageB (downloadProgress : option Q) : Q :=
  (value_or downloadProgress 0 / 100 * 0.9 + 0.1)%Q.

Definition cobalt_request (yt : YTSong) : Json :=
  JObject [("url", JString ("https://www.youtube.com/watch?v=" +:+ youtubeID yt));
           ("aFormat", JString "mp3");
           ("isAudioOnly", JString "true")].

Section YouTubeTask.
Context (host : Host) (task : TaskId) (yt : YTSong).

(** [finishErr]: both listeners are deleted, then the task finishes with the
    error. *)
Definition finishErr (err : string) : M YTPhase :=
  emit (TaskFinish task (Err err)) >> ret Unbound.

Definition report (progress : Q) : M unit :=
  modify (set_downloadProgress <[uniqueID (yt_metadata yt) := progress]>) >>
  post (SongDownloadProgressEvent (gdID (yt_metadata yt))
          (uniqueID (yt_metadata yt)) progress).

Definition cobaltSongListener (request : TaskId) (hasBeenCancelled : bool)
    (event : WebEvent) : M YTPhase :=
  if hasBeenCancelled || isCancelled event
  then finishErr "Cancelled while fetching song data from Cobalt"
  else match event with
       | WebProgress raw => report (stageB raw) >> ret (Fetching request)
       | WebCancelled => ret (Fetching request)
       | WebValue response =>
           if negb (ok response)
           then finishErr "Unable to get Cobalt song response"
           else
             let destination := generateSongFilePath host "mp3" in
             write_file host destination (data response) >>
             emit (TaskFinish task (Ok destination)) >>
             ret Unbound
       end.

Definition cobaltMetadataListener (request : TaskId) (hasBeenCancelled : bool)
    (event : WebEvent) : M YTPhase :=
  if hasBeenCancelled || isCancelled event
  then finishErr "Cancelled while fetching song metadata from Cobalt"
  else match event with
       | WebProgress raw => report (stageA raw) >> ret (Resolving request)
       | WebCancelled => ret (Resolving request)
       | WebValue response =>
           match ok response, body_json response with
           | true, Ok jsonObj =>
               match json_get "status" jsonObj with
               | Some (JString "stream") =>
                   match json_get "url" jsonObj with
                   | Some (JString audio_url) =>
                       let* song_request := fresh in
                       emit (WebGet song_request audio_url) >>
                       ret (Fetching song_request)
                   | _ => finishErr "Cobalt metadata bad response"
                   end
               | _ => finishErr "Cobalt metadata response is not a stream"
               end
           | _, _ => finishErr "Unable to get/parse Cobalt metadata response"
           end
       end.

(** The body handed to [runWithCallback]; it runs when the task is made. *)
Definition youtubeBody : M YTPhase :=
  if negb (String.length (youtubeID yt) =? 11)%nat
  then emit (TaskFinish task (Err "Invalid YouTube ID")) >> ret Unbound
  else
    let* request := fresh in
    emit (WebPost request "https://api.cobalt.tools/api/json" (cobalt_request yt)) >>
    ret (Resolving request).

(** One event of the web layer, handed to the listener that is bound. *)
Definition youtubeEvent (phase : YTPhase) (hasBeenCancelled : bool)
    (event : WebEvent) : M YTPhase :=
  match phase with
  | Resolving request => cobaltMetadataListener request hasBeenCancelled event
  | Fetching request => cobaltSongListener request hasBeenCancelled event
  | Unbound => ret Unbound
  end.

Fixpoint youtubeEvents (phase : YTPhase) (events : list (bool * WebEvent)) : M YTPhase :=
  match events with
  | [] => ret phase
  | (hasBeenCancelled, event) :: rest =>
      let* phase' := youtubeEvent phase hasBeenCancelled event in
      youtubeEvents phase' rest
  end.

End YouTubeTask.

(** [downloadSong(Song* nong)].  Next to the result, the function hands back
    where the two listeners of a YouTube task stand once the task body has
    run. *)
Definition downloadSong (host : Host) (nong : SongPtr) : M (Result unit * YTPhase) :=
  match pointee nong with
  | ALocal _ => ret (Err "Can't download local song", Unbound)
  | song =>
      let id := uid nong in
      let gdSongID := gdID (metadata song) in
      let* st := get in
      match m_downloadSongListeners st !! id with
      | Some l => emit (TaskCancel (dl_task l))
      | None => ret tt
      end >>
      let* task := fresh in
      let* phase :=
        match song with
        | AYT yt => youtubeBody task yt
        | AHosted h => emit (WebGet task (url h)) >> ret Unbound
        | ALocal _ => ret Unbound
        end in
      modify (set_downloadSongListeners
                (emplace id (mkDownloadListener task gdSongID id (addr nong)))) >>
      modify (set_downloadProgress <[id := 0%Q]>) >>
      post (SongDownloadProgressEvent gdSongID id 0) >>
      ret (Ok tt, phase)
  end.

Definition on_disk (st : State) (p : string) : bool := has_value (files st !! p).

(** [downloadSong(int gdSongID, const std::string& uniqueID)]. *)
Definition downloadSongByID (host : Host) (gdSongID : Z) (uniqueID : string)
    : M (Result unit * YTPhase) :=
  let* st := get in
  match getNongs (on_disk st) (nongManager st) (m_indexNongs st) gdSongID with
  | inl _ =>
      ret (Err ("GD song " +:+ pretty gdSongID +:+ " not initialized in manifest"), Unbound)
  | inr nongs =>
      match List.find (fun nong => String.eqb (uid nong) uniqueID) nongs with
      | Some nong => downloadSong host nong
      | None => ret (Err ("Song " +:+ uniqueID +:+ " not found in manifest"), Unbound)
      end
  end.

(** The host hands an event of task [task] to the listener registered under
    [id], if that listener filters on this task. *)
Definition deliver (host : Host) (id : string) (task : TaskId) (event : TaskEvent) : M unit :=
  let* st := get in
  match m_downloadSongListeners st !! id with
  | Some l => if (dl_task l =? task)%nat then downloadSongListener host l event else ret tt
  | None => ret tt
  end.

(** A hosted download as the web layer completes it: the value mapper runs on
    the response and its result reaches the listener. *)
Definition hostedCompletes (host : Host) (l : DownloadListener) (response : WebResponse) : M unit :=
  let* result := hostedValue host response in
  downloadSongListener host l (TaskValue result).

End Download.

Export Download.

(** ** The catalog cache: [fetchIndexes] and [loadIndex] *)

Module Cache.

Definition cacheIndexName (indexId indexName : string) : M unit :=
  modify (set_cached_index_names <[indexId := indexName]>).

Definition getIndexName (st : State) (indexID : string) : option string :=
  cached_index_names st !! indexID.

(** One pass of an entry loop of [loadIndex]: the collection is made when the
    song id has none, the song is added, a refusal is reported. *)
Definition add_index_song (host : Host) (entry : Z * Song) : M unit :=
  let '(gdSongID, song) := entry in
  let* st := get in
  let nongs := default (new_Nongs host gdSongID) (m_indexNongs st !! gdSongID) in
  match Nongs_add host song nongs with
  | Ok nongs' => modify (set_indexNongs <[gdSongID := nongs']>)
  | Err e =>
      modify (set_indexNongs <[gdSongID := nongs]>) >>
      post (SongErrorEvent false
              (match song with
               | AHosted _ => "Failed to add Hosted song from index: "
               | _ => "Failed to add YT song from index: "
               end +:+ e))
  end.

(** [loadIndex] once the file system has answered: [contents] is what the
    file at [path] holds, or [None] when no such file exists. *)
Definition loadContents (host : Host) (path : string) (contents : option string)
    : M (Result unit) :=
  match contents with
  | None => ret (Err "Index file does not exist")
  | Some text =>
      if negb (can_open host path)
      then ret (Err ("Couldn't open file: " +:+ filename host path))
      else
        match parse host text with
        | inl error => ret (Err error)
        | inr jsonObj =>
            match IndexMetadata_from_json host jsonObj with
            | Err e => ret (Err e)
            | Ok index =>
                cacheIndexName (m_id index) (m_name index) >>
                for_each (index_entries host jsonObj index) (add_index_song host) >>
                modify (set_loadedIndexes (emplace (m_id index) index)) >>
                ret (Ok tt)
            end
        end
  end.

Definition loadIndex (host : Host) (path : string) : M (Result unit) :=
  let* st := get in
  loadContents host path (files st !! path).

(** The value mapper of a fetch task. *)
Definition fetchValue (host : Host) (index : IndexSource) (filepath : string)
    (response : WebResponse) : M (Result unit) :=
  match ok response, body_string response with
  | true, Ok text =>
      match parse host text with
      | inl error => ret (Err error)
      | inr jsonObj =>
          if negb (is_object jsonObj)
          then ret (Err "Index supposed to be an object")
          else
            let jsonObj' := json_set "url" (JString (m_url index)) jsonObj in
            match IndexMetadata_from_json host jsonObj' with
            | Err e => ret (Err e)
            | Ok _ =>
                if negb (can_open host filepath)
                then ret (Err ("Couldn't open file: " +:+ filepath))
                else
                  modify (set_files <[filepath := dump host jsonObj']>) >>
                  ret (Ok tt)
            end
      end
  | _, _ => ret (Err "Web request failed")
  end.

(** What a fetch task hands to its listener. *)
Inductive FetchEvent :=
| FetchProgress (p : Q)
| FetchCancelled
| FetchValue (result : Result unit).

(** The last statement of the fetch listener: the cache file is loaded and a
    failure to load it is reported. *)
Definition loadAndReport (host : Host) (filepath : string) : M unit :=
  let* loaded := loadIndex host filepath in
  when (negb (String.eqb (error loaded) ""))
    (post (SongErrorEvent false ("Failed to load index: " +:+ error loaded))).

(** The callback bound to the listener of a fetch task. *)
Definition fetchListener (host : Host) (l : FetchListener) (event : FetchEvent) : M unit :=
  match event with
  | FetchProgress _ => ret tt
  | _ =>
      modify (set_indexListeners (delete (m_url (fl_index l)))) >>
      match event with
      | FetchValue (Err e) => post (SongErrorEvent false ("Failed to fetch index: " +:+ e))
      | _ => ret tt
      end >>
      loadAndReport host (fl_filepath l)
  end.

(** A fetch as the web layer completes it: the value mapper runs on the
    response and its result reaches the listener. *)
Definition fetchCompletes (host : Host) (l : FetchListener) (response : WebResponse) : M unit :=
  let* result := fetchValue host (fl_index l) (fl_filepath l) response in
  fetchListener host l (FetchValue result).

Definition fetchIndex (host : Host) (index : IndexSource) : M unit :=
  if negb (m_enabled index) || (String.length (m_url index) <? 3)%nat
  then ret tt
  else
    let filepath := cache_file host (m_url index) in
    let* task := fresh in
    emit (WebGet task (m_url index)) >>
    modify (set_indexListeners
              (emplace (m_url index) (mkFetchListener task index filepath))).

Definition fetchIndexes (host : Host) : M (Result unit) :=
  modify (set_indexListeners (fun _ => ∅)) >>
  modify (set_indexNongs (fun _ => ∅)) >>
  modify (set_downloadSongListeners (fun _ => ∅)) >>
  for_each (setting_indexes host) (fetchIndex host) >>
  ret (Ok tt).

End Cache.

Export Cache.

(** ** Vocabulary of the properties *)

Module Vocabulary.

Definition default_ptr (localNongs : Nongs) : SongPtr :=
  mkSongPtr InDefault (ALocal (defaultSong localNongs)).

(** Everything [getNongs] pushes after the default song. *)
Definition others (localNongs : Nongs) (indexNongs : option Nongs) : list SongPtr :=
  tail (merged localNongs indexNongs).

(** A unique id that a local song taken from an index shares with an index
    song of its own kind. *)
Definition taken_from_index (localNongs idx : Nongs) (id : string) : Prop :=
  (exists song indexSong,
      song ∈ youtube localNongs /\ indexSong ∈ youtube idx
      /\ is_Some (yt_indexID song)
      /\ uniqueID (yt_metadata song) = id
      /\ uniqueID (yt_metadata indexSong) = id)
  \/ (exists song indexSong,
      song ∈ hosted localNongs /\ indexSong ∈ hosted idx
      /\ is_Some (h_indexID song)
      /\ uniqueID (h_metadata song) = id
      /\ uniqueID (h_metadata indexSong) = id).

(** What [std::sort] asks of its comparator on the elements it sorts. *)
Definition incomparable {A} (comp : A -> A -> bool) (x y : A) : Prop :=
  comp x y = false /\ comp y x = false.

Definition strict_weak_ordering {A} (comp : A -> A -> bool) (l : list A) : Prop :=
  (forall x, x ∈ l -> comp x x = false)
  /\ (forall x y z, x ∈ l -> y ∈ l -> z ∈ l ->
        comp x y = true -> comp y z = true -> comp x z = true)
  /\ (forall x y z, x ∈ l -> y ∈ l -> z ∈ l ->
        incomparable comp x y -> incomparable comp y z -> incomparable comp x z).

(** No element of the list compares less than one before it. *)
Definition sorted_by {A} (comp : A -> A -> bool) (l : list A) : Prop :=
  StronglySorted (fun a b => comp b a = false) l.

(** Rules (b) to (e) of the comparator sort the songs into twelve groups:
    without an index before with one, then on disk before not on disk, then
    by kind. *)
Definition group (file_exists : string -> bool) (s : Song) : Z :=
  ((if has_value (indexID s) then 6 else 0)
   + (if path_on_disk file_exists s then 0 else 3)
   + (sortedNongType (type s) - 1))%Z.

Definition by_group_then_name (file_exists : string -> bool) (a b : Song) : bool :=
  (group file_exists a <? group file_exists b)%Z
  || ((group file_exists a =? group file_exists b)%Z
      && String.ltb (name (metadata a)) (name (metadata b))).

(** The states in which a state-changed notification was published, each
    with the song id it names. *)
Definition state_changes (l : Log) : list (Z * State) :=
  omap (fun entry : Effect * State =>
          match fst entry with
          | Post (SongStateChangedEvent gdSongID) => Some (gdSongID, snd entry)
          | _ => None
          end) l.

Definition bookkeeping_cleared (id : string) (st : State) : Prop :=
  m_downloadProgress st !! id = None /\ m_downloadSongListeners st !! id = None.

(** A task as its listener sees it: progress events, then one terminal
    event. *)
Definition whole_task (host : Host) (l : DownloadListener)
    (progress : list Q) (terminal : TaskEvent) : M unit :=
  for_each (map TaskProgress progress ++ [terminal]) (downloadSongListener host l).

(** What the listener does after [setIndexID] on the commit path. *)
Definition commit_effects (host : Host) (l : DownloadListener) : list Effect :=
  SetActiveSong (dl_gdSongID l) (dl_id l)
  :: match setActiveSong host (dl_gdSongID l) (dl_id l) with
     | Err e => [Post (SongErrorEvent true ("Failed to set song as active: " +:+ e));
                 Post (SongStateChangedEvent (dl_gdSongID l))]
     | Ok _ => [Post (SongStateChangedEvent (dl_gdSongID l))]
     end.

Definition same_songs (a b : State) : Prop :=
  nongManager a = nongManager b /\ m_indexNongs a = m_indexNongs b.

Definition is_web_request (e : Effect) : bool :=
  match e with WebGet _ _ | WebPost _ _ _ => true | _ => false end.

Definition is_post (e : Effect) : bool :=
  match e with Post _ => true | _ => false end.

(** The progress values published, in order. *)
Definition reported (l : Log) : list Q :=
  omap (fun entry : Effect * State =>
          match fst entry with
          | Post (SongDownloadProgressEvent _ _ p) => Some p
          | _ => None
          end) l.

(** Progress ticks of a request, none of them after a cancellation. *)
Definition ticks (raws : list (option Q)) : list (bool * WebEvent) :=
  map (fun raw => (false, WebProgress raw)) raws.

(** The resolver answers with a stream at [audio_url]. *)
Definition resolves_to (response : WebResponse) (audio_url : string) : Prop :=
  ok response = true
  /\ exists jsonObj,
      body_json response = Ok jsonObj
      /\ json_get "status" jsonObj = Some (JString "stream")
      /\ json_get "url" jsonObj = Some (JString audio_url).

(** The raw progress of a request is a percentage that does not go down. *)
Definition percentages (raws : list (option Q)) : Prop :=
  Forall (fun raw => (0 <= value_or raw 0 <= 100)%Q) raws
  /\ Sorted Qle (map (fun raw => value_or raw 0) raws).


End Vocabulary.

Export Vocabulary.

(** ** Sample stores *)

Module Samples.

Definition meta (id title : string) : SongMetadata :=
  mkSongMetadata 42 id title "Artist" None 0.

Definition the_default : LocalSong :=
  mkLocalSong (meta "default-id" "Stereo Madness") "songs/42.mp3".

(** A YouTube song the user added by hand, and the same one after it was
    downloaded from an index. *)
Definition yt_by_hand : YTSong := mkYTSong (meta "a1" "X") "dQw4w9WgXcQ" None None.
Definition yt_downloaded : YTSong :=
  mkYTSong (meta "a1" "X") "dQw4w9WgXcQ" (Some "a1") (Some "nongs/a1.mp3").

(** The entry of the index with the same unique id. *)
Definition yt_of_index : YTSong :=
  mkYTSong (meta "a1" "X") "dQw4w9WgXcQ" (Some "song-file-hub") None.

(** An index entry that carries the unique id of the default song. *)
Definition hosted_named_default : HostedSong :=
  mkHostedSong (meta "default-id" "Y") "https://example.org/y.mp3" (Some "song-file-hub") None.

Definition nothing_on_disk (p : string) : bool := false.

Definition only_default : Nongs := mkNongs the_default [] [] [].
Definition with_yt_by_hand : Nongs := mkNongs the_default [] [yt_by_hand] [].
Definition with_yt_downloaded : Nongs := mkNongs the_default [] [yt_downloaded] [].
Definition index_with_yt : Nongs := mkNongs the_default [] [yt_of_index] [].
Definition index_with_default_id : Nongs := mkNongs the_default [] [] [hosted_named_default].

Definition store (n : Nongs) : gmap Z Nongs := {[ 42%Z := n ]}.

(** A hosted entry of the index, and the pointer [getNongs] returns to it. *)
Definition hosted_of_index : HostedSong :=
  mkHostedSong (meta "h1" "Z") "https://example.org/z.mp3" (Some "song-file-hub") None.

Definition index_with_hosted : Nongs := mkNongs the_default [] [] [hosted_of_index].

Definition hosted_ptr : SongPtr := mkSongPtr (IndexHosted 0) (AHosted hosted_of_index).

(** A YouTube entry whose video id has five characters. *)
Definition yt_short : YTSong := mkYTSong (meta "s1" "S") "short" (Some "song-file-hub") None.

Definition yt_short_ptr : SongPtr := mkSongPtr (IndexYoutube 0) (AYT yt_short).

Definition yt_ptr : SongPtr := mkSongPtr (IndexYoutube 0) (AYT yt_of_index).

(** Collaborators that always succeed. *)
Definition sample_host : Host :=
  mkHost
    (fun extension => "nongs/fresh." +:+ extension)
    (fun _ _ => Ok tt)
    (fun _ => true)
    (fun p => p)
    (fun address => "indexes-cache/" +:+ address +:+ ".json")
    (fun text => if String.eqb text "{}" then inr (JObject []) else inl "parse error")
    (fun _ => "{url}")
    (fun _ => Ok (mkIndexMetadata "song-file-hub" "Song File Hub" "https://example.org/index.json"))
    (fun _ _ => [])
    (fun _ => only_default)
    (fun _ nongs => Ok nongs)
    [mkIndexSource "https://example.org/index.json" true].

(** The same, but the local store hands out an empty path. *)
Definition pathless_host : Host :=
  mkHost
    (fun _ => "")
    (setActiveSong sample_host) (can_open sample_host) (filename sample_host)
    (cache_file sample_host) (parse sample_host) (dump sample_host)
    (IndexMetadata_from_json sample_host) (index_entries sample_host)
    (new_Nongs sample_host) (Nongs_add sample_host) (setting_indexes sample_host).

(** Nothing is being fetched or downloaded; the index table holds the hosted
    entry. *)
Definition idle : State :=
  mkState (store index_with_hosted) ∅ ∅ ∅ ∅ (store only_default) ∅ ∅ 0.

Definition hosted_listener (task : TaskId) : DownloadListener :=
  mkDownloadListener task 42 "h1" (IndexHosted 0).

(** A successful response without content. *)
Definition empty_response : WebResponse := mkWebResponse true (Ok "") (Err "empty") "".

(** The resolver's answer for a stream. *)
Definition stream_response : WebResponse :=
  mkWebResponse true (Ok "")
    (Ok (JObject [("status", JString "stream");
                  ("url", JString "https://cdn.example.org/a1")]))
    "".

Definition rising : list (option Q) := [None; Some 40%Q; Some 100%Q].

(** A download started twice in a row, then the events of both tasks as the
    host hands them over: the cancellation of the first task reaches the old
    listener after both zero-progress events, and the value of the second
    task reaches no listener. *)
Definition restarted : M unit :=
  downloadSong sample_host hosted_ptr >>
  downloadSong sample_host hosted_ptr >>
  deliver sample_host "h1" 0 TaskCancelled >>
  deliver sample_host "h1" 1 (TaskValue (Ok "nongs/fresh.mp3")).

End Samples.

(** ** Start-up: [IndexManager::init] *)

Module Lifecycle.

(** The cache directory [baseIndexesPath()]: it exists, or it does not and
    [std::filesystem::create_directory] will make it or throw. *)
Inductive Directory :=
| Present
| Absent (creatable : bool).

(** The manager with its flag [m_initialized] and the cache directory. *)
Record Installation := mkInstallation {
  manager : State;
  m_initialized : bool;
  cache_directory : Directory
}.

(** [getIndexes]: the setting, never an error. *)
Definition getIndexes (host : Host) : Result (list IndexSource) :=
  Ok (setting_indexes host).

(** [init].  The result of [fetchIndexes] decides between the error event
    and the flag. *)
Definition init (host : Host) (inst : Installation)
    : Outcome (bool * Installation * Log) :=
  if m_initialized inst then Returns (true, inst, [])
  else
    match cache_directory inst with
    | Absent true =>
        Returns (true, mkInstallation (manager inst) false Present, [])
    | Absent false => Throws "filesystem_error"
    | Present =>
        let '(fetched, st, log) := fetchIndexes host (manager inst) in
        if negb (String.eqb (error fetched) "")
        then
          Returns (false, mkInstallation st false Present,
                   log ++ [(Post (SongErrorEvent false
                                    ("Failed to fetch indexes: " +:+ error fetched)), st)])
        else Returns (true, mkInstallation st true Present, log)
    end.

End Lifecycle.

Export Lifecycle.

(** ** Histories of the manager *)

Module Sessions.

(** What can happen to the manager: one of its functions is called, or the
    host hands an event to one of its listeners. *)
Inductive Happening :=
| CallDownloadSong (nong : SongPtr)
| CallDownloadSongByID (gdSongID : Z) (uniqueID : string)
| CallFetchIndexes
| CallLoadIndex (path : string)
| DownloadEvent (id : string) (task : TaskId) (event : TaskEvent)
| HostedResponse (id : string) (task : TaskId) (response : WebResponse)
| YoutubeEvent (task : TaskId) (yt : YTSong) (phase : YTPhase)
    (hasBeenCancelled : bool) (event : WebEvent)
| FetchResponse (l : FetchListener) (response : WebResponse)
| FetchEnds (l : FetchListener) (event : FetchEvent).

Definition happen (host : Host) (h : Happening) : M unit :=
  match h with
  | CallDownloadSong nong => downloadSong host nong >> ret tt
  | CallDownloadSongByID gdSongID uniqueID =>
      downloadSongByID host gdSongID uniqueID >> ret tt
  | CallFetchIndexes => fetchIndexes host >> ret tt
  | CallLoadIndex path => loadIndex host path >> ret tt
  | DownloadEvent id task event => deliver host id task event
  | HostedResponse id task response =>
      let* result := hostedValue host response in
      deliver host id task (TaskValue result)
  | YoutubeEvent task yt phase hasBeenCancelled event =>
      youtubeEvent host task yt phase hasBeenCancelled event >> ret tt
  | FetchResponse l response => fetchCompletes host l response
  | FetchEnds l event => fetchListener host l event
  end.

Definition history (host : Host) (hs : list Happening) : M unit :=
  for_each hs (happen host).

End Sessions.

Export Sessions.

(** ** Further vocabulary *)

Module Observations.

(** The pointer designates a slot of the index collection. *)
Definition points_into_index (idx : Nongs) (p : SongPtr) : Prop :=
  (exists i s, youtube idx !! i = Some s /\ p = mkSongPtr (IndexYoutube i) (AYT s))
  \/ (exists i s, hosted idx !! i = Some s /\ p = mkSongPtr (IndexHosted i) (AHosted s)).

(** No other variant that [getNongs] would push carries the unique id of the
    default song. *)
Definition default_id_reserved (localNongs : Nongs) (indexNongs : option Nongs) : Prop :=
  Forall (fun p => uid p <> uniqueID (l_metadata (defaultSong localNongs)))
    (others localNongs indexNongs).

(** Where [Merge.std_sort] tells what [std::sort] does on the vector
    [getNongs] sorts: the default song is the only one with its unique id,
    so that the comparator orders the vector, or the vector is short enough
    for the insertion sort. *)
Definition sort_defined (localNongs : Nongs) (indexNongs : option Nongs) : Prop :=
  default_id_reserved localNongs indexNongs
  \/ length (merged localNongs indexNongs) <= 16.

(** Every unique id with a download listener has a progress entry. *)
Definition progress_covers_listeners (st : State) : Prop :=
  forall id, is_Some (m_downloadSongListeners st !! id) ->
             is_Some (m_downloadProgress st !! id).

(** The tasks that were finished, each with its result, in order. *)
Definition finished (l : Log) : list (TaskId * Result string) :=
  omap (fun entry : Effect * State =>
          match fst entry with
          | TaskFinish task result => Some (task, result)
          | _ => None
          end) l.

(** A hosted download from the call to the response: the call, then the
    value mapper on the response, then its result handed to the listener
    registered under the unique id for the task the call made. *)
Definition hostedDownload (host : Host) (nong : SongPtr) (response : WebResponse) : M unit :=
  let* before := get in
  downloadSong host nong >>
  let* result := hostedValue host response in
  deliver host (uid nong) (next_task before) (TaskValue result).

(** A YouTube download from the call on: the call, then the events of the
    web layer, each handed to the listener that is bound at that moment. *)
Definition youtubeDownload (host : Host) (nong : SongPtr) (yt : YTSong)
    (events : list (bool * WebEvent)) : M YTPhase :=
  let* before := get in
  let* started := downloadSong host nong in
  youtubeEvents host (next_task before) yt (snd started) events.

(** A download from the call to its end: the call, then for a YouTube song
    the events of the web layer handed to the bound listener, then what the
    task hands to the listener registered under the unique id: progress
    events and one terminal event. *)
Definition whole_download (host : Host) (nong : SongPtr)
    (web : list (bool * WebEvent)) (progress : list Q) (terminal : TaskEvent) : M unit :=
  let* before := get in
  let* started := downloadSong host nong in
  match pointee nong with
  | AYT yt => youtubeEvents host (next_task before) yt (snd started) web >> ret tt
  | _ => ret tt
  end >>
  for_each (map TaskProgress progress ++ [terminal])
    (deliver host (uid nong) (next_task before)).

(** What [loadAndReport] publishes after [loadIndex] has answered. *)
Definition load_report (loaded : Result unit) (st : State) : Log :=
  if negb (String.eqb (error loaded) "")
  then [(Post (SongErrorEvent false ("Failed to load index: " +:+ error loaded)), st)]
  else [].

(** The event tells the listener that its request was cancelled, or the
    listener finds the task cancelled. *)
Definition cancels (hasBeenCancelled : bool) (event : WebEvent) : Prop :=
  hasBeenCancelled = true \/ event = WebCancelled.

(** A source that [fetchIndexes] does not skip. *)
Definition fetched_source (index : IndexSource) : bool :=
  m_enabled index && (3 <=? String.length (m_url index))%nat.

(** The requests [fetchIndexes] makes for these sources when the next task
    is [first]. *)
Definition fetch_requests (first : TaskId) (indexes : list IndexSource) : list Effect :=
  imap (fun i index => WebGet (first + i) (m_url index))
    (List.filter fetched_source indexes).

(** The listener stands for a source of the list that is not skipped, under
    the address of that source, with the cache file of that address. *)
Definition listens_for (host : Host) (indexes : list IndexSource)
    (address : string) (l : FetchListener) : Prop :=
  fl_index l ∈ indexes
  /\ fetched_source (fl_index l) = true
  /\ m_url (fl_index l) = address
  /\ fl_filepath l = cache_file host address.

Definition cancel_message (phase : YTPhase) : string :=
  match phase with
  | Fetching _ => "Cancelled while fetching song data from Cobalt"
  | _ => "Cancelled while fetching song metadata from Cobalt"
  end.

(** [P] holds of the state a run leaves and of every state in which one of
    its effects happens. *)
Definition throughout {A} (P : State -> Prop) (r : A * State * Log) : Prop :=
  P (state_of r) /\ Forall (fun entry => P (snd entry)) (log_of r).

(** Started in a state with [P], the computation keeps [P] throughout. *)
Definition keeps {A} (P : State -> Prop) (m : M A) : Prop :=
  forall st, P st -> throughout P (m st).

(** Every effect of the computation, with the state it happens in, has [Q]. *)
Definition logs {A} (Q : Effect * State -> Prop) (m : M A) : Prop :=
  forall st, Forall Q (log_of (m st)).

(** A published progress is the one the progress table holds at that
    moment. *)
Definition progress_event_agrees (entry : Effect * State) : Prop :=
  match fst entry with
  | Post (SongDownloadProgressEvent _ uniqueID progress) =>
      m_downloadProgress (snd entry) !! uniqueID = Some progress
  | _ => True
  end.

(** The effect is not a state-changed notification. *)
Definition no_state_change (entry : Effect * State) : Prop :=
  match fst entry with
  | Post (SongStateChangedEvent _) => False
  | _ => True
  end.

(** The states a subscriber or a later caller can see the manager in. *)
Definition visible {A} (r : A * State * Log) : list State :=
  (snd <$> log_of r) ++ [state_of r].

End Observations.

Export Observations.

(** ** Further samples *)

Module Scenarios.
Import Samples.

(** A request that timed out. *)
Definition failed_response : WebResponse :=
  mkWebResponse false (Err "timeout") (Err "timeout") "".

(** A hosted download is started and makes progress, then the catalogs are
    fetched again while it runs, and its answer arrives afterwards. *)
Definition interrupted : list Happening :=
  [CallDownloadSong hosted_ptr;
   DownloadEvent "h1" 0 (TaskProgress 0.5);
   CallFetchIndexes;
   HostedResponse "h1" 0 empty_response].

(** The cache directory holds one catalog file. *)
Definition cached_catalog : State :=
  set_files (fun _ => {[ "indexes-cache/hub.json" := "{}" ]}) idle.

(** The first launch: the cache directory is not there yet. *)
Definition first_launch : Installation := mkInstallation idle false (Absent true).

End Scenarios.

(** * Properties *)

(** ** The sort *)

Module SortFacts.
Section Sort.
Context {A : Type} (comp : A -> A -> bool).

Lemma unguarded_linear_insert_perm (val : A) (rprefix : list A) :
  Permutation (unguarded_linear_insert comp val rprefix) (val :: rprefix).
Proof.
  induction rprefix as [|prev rest IH]; simpl.
  - reflexivity.
  - destruct (comp val prev).
    + rewrite IH. apply perm_swap.
    + reflexivity.
Qed.

Lemma linear_insert_perm (sorted : list A) (val : A) :
  Permutation (linear_insert comp sorted val) (val :: sorted).
Proof.
  destruct sorted as [|first rest]; simpl.
  - reflexivity.
  - destruct (comp val first).
    + reflexivity.
    + rewrite <- Permutation_rev, unguarded_linear_insert_perm.
      apply perm_skip. simpl.
      rewrite <- Permutation_cons_append. symmetry. apply perm_skip, Permutation_rev.
Qed.

Lemma fold_linear_insert_perm (l acc : list A) :
  Permutation (fold_left (linear_insert comp) l acc) (acc ++ l).
Proof.
  revert acc. induction l as [|x l IH]; intros acc; simpl.
  - rewrite app_nil_r. reflexivity.
  - rewrite IH, linear_insert_perm. apply Permutation_middle.
Qed.

(** The sort rearranges the vector and nothing else. *)
Lemma std_sort_perm (l : list A) : Permutation (std_sort comp l) l.
Proof. unfold std_sort. apply fold_linear_insert_perm. Qed.

(** An element that nothing compares less than, once in front, stays in
    front. *)
Lemma unguarded_keeps_last (val least : A) (l : list A) :
  comp val least = false ->
  exists l', unguarded_linear_insert comp val (l ++ [least]) = l' ++ [least].
Proof.
  intros Hlt. induction l as [|y l [l' IH]]; simpl.
  - rewrite Hlt. exists [val]. reflexivity.
  - destruct (comp val y).
    + rewrite IH. exists (y :: l'). reflexivity.
    + exists (val :: y :: l). reflexivity.
Qed.

Lemma linear_insert_keeps_first (val least : A) (rest : list A) :
  comp val least = false ->
  exists rest', linear_insert comp (least :: rest) val = least :: rest'.
Proof.
  intros Hlt. simpl. rewrite Hlt.
  destruct (unguarded_keeps_last val least (rev rest) Hlt) as [l' ->].
  rewrite rev_app_distr. simpl. eauto.
Qed.

Lemma fold_linear_insert_keeps_first (least : A) (l rest : list A) :
  (forall x, x ∈ l -> comp x least = false) ->
  exists rest', fold_left (linear_insert comp) l (least :: rest) = least :: rest'.
Proof.
  revert rest. induction l as [|x l IH]; intros rest Hl; cbn [fold_left].
  - eauto.
  - destruct (linear_insert_keeps_first x least rest) as [rest' ->].
    + apply Hl. left.
    + apply IH. intros y Hy. apply Hl. right. exact Hy.
Qed.

Lemma std_sort_keeps_first (least : A) (l : list A) :
  (forall x, x ∈ l -> comp x least = false) ->
  exists rest, std_sort comp (least :: l) = least :: rest.
Proof.
  intros Hl. unfold std_sort. cbn [fold_left linear_insert].
  apply fold_linear_insert_keeps_first, Hl.
Qed.

End Sort.

(** The insertion sort orders its input when the comparator behaves as a
    strict weak ordering between each element it inserts ([fresh]) and the
    elements already in place ([placed]). *)
Section Sorted.
Context {A : Type} (comp : A -> A -> bool) (placed fresh : A -> Prop).
Hypothesis fresh_placed : forall x, fresh x -> placed x.
Hypothesis comp_asym :
  forall v y, fresh v -> placed y -> comp v y = true -> comp y v = false.
Hypothesis comp_trans :
  forall y v f, placed y -> fresh v -> placed f ->
    comp y v = true -> comp v f = true -> comp y f = true.
Hypothesis comp_negtrans :
  forall v p x, fresh v -> placed p -> placed x ->
    comp v p = false -> comp p x = false -> comp v x = false.

Let backwards (l : list A) : Prop := StronglySorted (fun a b => comp a b = false) l.

Lemma unguarded_linear_insert_backwards (val : A) (rprefix : list A) :
  fresh val -> Forall placed rprefix -> backwards rprefix ->
  backwards (unguarded_linear_insert comp val rprefix).
Proof.
  intros Hval. induction rprefix as [|prev rest IH]; intros Hplaced Hsorted;
    cbn [unguarded_linear_insert].
  - repeat constructor.
  - apply Forall_cons in Hplaced as [Hprev Hrest].
    apply StronglySorted_inv in Hsorted as [Hsorted Hbelow].
    destruct (comp val prev) eqn:Hcmp.
    + constructor; [apply IH; assumption|].
      rewrite Forall_forall. intros x Hx.
      rewrite (unguarded_linear_insert_perm comp val rest) in Hx.
      apply elem_of_cons in Hx as [->|Hx].
      * apply comp_asym; assumption.
      * rewrite Forall_forall in Hbelow. apply Hbelow, Hx.
    + constructor; [constructor; assumption|].
      constructor; [exact Hcmp|].
      rewrite Forall_forall in Hbelow, Hrest |- *. intros x Hx.
      apply (comp_negtrans val prev x); auto.
Qed.

Lemma sorted_by_rev (l : list A) : backwards l -> sorted_by comp (rev l).
Proof.
  unfold sorted_by. induction 1 as [|x l Hl IH Hx]; cbn [rev].
  - constructor.
  - clear Hl. assert (Hrev : Forall (fun y => comp x y = false) (rev l)).
    { rewrite Forall_forall in Hx |- *. intros z Hz. apply Hx.
      apply list_elem_of_In, in_rev, list_elem_of_In, Hz. }
    clear Hx. induction (rev l) as [|z k IHk].
    + repeat constructor.
    + apply StronglySorted_inv in IH as [Hk Hz].
      apply Forall_cons in Hrev as [Hxz Hrev].
      constructor; [apply IHk; assumption|].
      apply Forall_app. split; [exact Hz | repeat constructor; exact Hxz].
Qed.

Lemma backwards_rev (l : list A) : sorted_by comp l -> backwards (rev l).
Proof.
  unfold sorted_by. induction 1 as [|x l Hl IH Hx]; cbn [rev].
  - constructor.
  - clear Hl. assert (Hrev : Forall (fun y => comp y x = false) (rev l)).
    { rewrite Forall_forall in Hx |- *. intros z Hz. apply Hx.
      apply list_elem_of_In, in_rev, list_elem_of_In, Hz. }
    clear Hx. induction (rev l) as [|z k IHk].
    + repeat constructor.
    + apply StronglySorted_inv in IH as [Hk Hz].
      apply Forall_cons in Hrev as [Hxz Hrev].
      constructor; [apply IHk; assumption|].
      apply Forall_app. split; [exact Hz | repeat constructor; exact Hxz].
Qed.

Lemma linear_insert_sorted (sorted : list A) (val : A) :
  fresh val -> Forall placed sorted -> sorted_by comp sorted ->
  sorted_by comp (linear_insert comp sorted val).
Proof.
  intros Hval Hplaced Hsorted. destruct sorted as [|first rest]; cbn [linear_insert].
  - repeat constructor.
  - destruct (comp val first) eqn:Hcmp.
    + constructor; [exact Hsorted|].
      pose proof Hplaced as Hall. apply Forall_cons in Hplaced as [Hfirst Hrest].
      apply StronglySorted_inv in Hsorted as [_ Hafter].
      constructor; [apply comp_asym; assumption|].
      rewrite Forall_forall in Hafter, Hrest |- *. intros y Hy.
      destruct (comp y val) eqn:Hyv; [|reflexivity].
      rewrite <- (Hafter y Hy). symmetry.
      apply (comp_trans y val first); auto.
    + apply sorted_by_rev, unguarded_linear_insert_backwards; [exact Hval| |].
      * rewrite Forall_forall in Hplaced |- *. intros y Hy. apply Hplaced.
        apply list_elem_of_In, in_rev, list_elem_of_In, Hy.
      * apply backwards_rev, Hsorted.
Qed.

Lemma fold_linear_insert_sorted (l acc : list A) :
  Forall fresh l -> Forall placed acc -> sorted_by comp acc ->
  sorted_by comp (fold_left (linear_insert comp) l acc).
Proof.
  revert acc. induction l as [|val l IH]; intros acc Hl Hacc Hsorted; cbn [fold_left].
  - exact Hsorted.
  - apply Forall_cons in Hl as [Hval Hl]. apply IH; [exact Hl| |].
    + rewrite Forall_forall in Hacc |- *. intros y Hy.
      rewrite (linear_insert_perm comp acc val) in Hy.
      apply elem_of_cons in Hy as [->|Hy]; auto.
    + apply linear_insert_sorted; assumption.
Qed.

End Sorted.
End SortFacts.

(** ** The merge *)

Module MergeFacts.
Import SortFacts.

Lemma merged_cons localNongs indexNongs :
  merged localNongs indexNongs = default_ptr localNongs :: others localNongs indexNongs.
Proof. reflexivity. Qed.

Lemma not_added_spec (added : list string) (id : string) :
  not_added added id = true <-> id ∉ added.
Proof.
  unfold not_added. rewrite negb_true_iff, <- not_true_iff_false, existsb_exists.
  split.
  - intros Hno Hin. apply Hno. exists id. split.
    + apply list_elem_of_In, Hin.
    + apply String.eqb_refl.
  - intros Hno [x [Hin Heq]]. apply String.eqb_eq in Heq. subst x.
    apply Hno, list_elem_of_In, Hin.
Qed.

(** The segments of the vector, by the store the pointers go to. *)
Lemma elem_of_merged localNongs indexNongs (p : SongPtr) :
  p ∈ merged localNongs indexNongs <->
  p = default_ptr localNongs
  \/ (exists i s, locals localNongs !! i = Some s /\ p = mkSongPtr (InLocals i) (ALocal s))
  \/ (exists i s, youtube localNongs !! i = Some s /\ p = mkSongPtr (InYoutube i) (AYT s))
  \/ (exists i s, hosted localNongs !! i = Some s /\ p = mkSongPtr (InHosted i) (AHosted s))
  \/ (exists idx, indexNongs = Some idx
        /\ (uid p ∉ addedIndexSongs localNongs indexNongs)
        /\ ((exists i s, youtube idx !! i = Some s /\ p = mkSongPtr (IndexYoutube i) (AYT s))
            \/ (exists i s, hosted idx !! i = Some s /\ p = mkSongPtr (IndexHosted i) (AHosted s)))).
Proof.
  unfold merged.
  rewrite !elem_of_app, list_elem_of_singleton, !elem_of_lookup_imap.
  split.
  - intros [H|[H|[H|[H|H]]]].
    + left. exact H.
    + right. left. destruct H as (i & s & -> & ?). eauto.
    + right. right. left. destruct H as (i & s & -> & ?). eauto.
    + right. right. right. left. destruct H as (i & s & -> & ?). eauto.
    + right. right. right. right. destruct indexNongs as [idx|].
      * exists idx. split; [reflexivity|].
        rewrite elem_of_app, !list_elem_of_filter, !elem_of_lookup_imap in H.
        destruct H as [[Hn (i & s & -> & ?)]|[Hn (i & s & -> & ?)]];
          (split; [apply not_added_spec, Hn | eauto]).
      * apply elem_of_nil in H. destruct H.
  - intros [H|[H|[H|[H|H]]]].
    + left. exact H.
    + right. left. destruct H as (i & s & ? & ->). eauto.
    + right. right. left. destruct H as (i & s & ? & ->). eauto.
    + right. right. right. left. destruct H as (i & s & ? & ->). eauto.
    + right. right. right. right. destruct H as (idx & -> & Hn & H).
      rewrite elem_of_app, !list_elem_of_filter, !elem_of_lookup_imap.
      apply not_added_spec in Hn.
      destruct H as [(i & s & ? & ->)|(i & s & ? & ->)]; [left|right]; eauto.
Qed.

Lemma others_not_default localNongs indexNongs (p : SongPtr) :
  p ∈ others localNongs indexNongs -> addr p <> InDefault.
Proof.
  unfold others, merged. cbn [app tail].
  rewrite !elem_of_app, !elem_of_lookup_imap.
  intros [H|[H|[H|H]]].
  - destruct H as (i & s & -> & ?). discriminate.
  - destruct H as (i & s & -> & ?). discriminate.
  - destruct H as (i & s & -> & ?). discriminate.
  - destruct indexNongs as [idx|]; [|apply elem_of_nil in H; destruct H].
    rewrite elem_of_app, !list_elem_of_filter, !elem_of_lookup_imap in H.
    destruct H as [[_ (i & s & -> & ?)]|[_ (i & s & -> & ?)]]; discriminate.
Qed.

Lemma elem_of_sorted_nongs file_exists localNongs indexNongs (p : SongPtr) :
  p ∈ sorted_nongs file_exists localNongs indexNongs <-> p ∈ merged localNongs indexNongs.
Proof.
  unfold sorted_nongs. split; intros H.
  - eapply elem_of_Permutation_proper; [symmetry; apply std_sort_perm | exact H].
  - eapply elem_of_Permutation_proper; [apply std_sort_perm | exact H].
Qed.

Lemma taken_from_index_added localNongs idx id :
  taken_from_index localNongs idx id ->
  id ∈ addedIndexSongs localNongs (Some idx).
Proof.
  unfold addedIndexSongs. rewrite elem_of_app.
  intros [(song & indexSong & Hs & Hi & [x Hx] & <- & Hid)
         |(song & indexSong & Hs & Hi & [x Hx] & <- & Hid)]; [left|right];
    apply list_elem_of_In, in_flat_map; exists song;
    (split; [apply list_elem_of_In, Hs|]).
  - unfold addedYT. rewrite Hx. apply in_map_iff. exists indexSong. split; [reflexivity|].
    apply list_elem_of_In, list_elem_of_filter. split; [congruence | exact Hi].
  - unfold addedHosted. rewrite Hx. apply in_map_iff. exists indexSong. split; [reflexivity|].
    apply list_elem_of_In, list_elem_of_filter. split; [congruence | exact Hi].
Qed.

Lemma sort_lambda_default_before_all file_exists (d x : Song) :
  sort_lambda file_exists (uniqueID (metadata d)) d x = true.
Proof. unfold sort_lambda, rule_default. rewrite String.eqb_refl. reflexivity. Qed.

Lemma sort_lambda_not_before_default file_exists (d x : Song) :
  uniqueID (metadata x) <> uniqueID (metadata d) ->
  sort_lambda file_exists (uniqueID (metadata d)) x d = false.
Proof.
  intros Hne. unfold sort_lambda, rule_default.
  apply String.eqb_neq in Hne. rewrite Hne, String.eqb_refl. reflexivity.
Qed.

(** *** The order the comparator puts on the songs other than the default *)

Lemma ascii_compare_refl (a : ascii) : Ascii.compare a a = Eq.
Proof. unfold Ascii.compare. apply N.compare_refl. Qed.

Lemma ascii_compare_lt_trans (a b c : ascii) :
  Ascii.compare a b = Lt -> Ascii.compare b c = Lt -> Ascii.compare a c = Lt.
Proof. unfold Ascii.compare. rewrite !N.compare_lt_iff. lia. Qed.

Lemma string_compare_refl (s : string) : String.compare s s = Eq.
Proof.
  induction s as [|a s IH]; cbn; [reflexivity|].
  rewrite ascii_compare_refl. exact IH.
Qed.

Lemma string_compare_lt_trans (x y z : string) :
  String.compare x y = Lt -> String.compare y z = Lt -> String.compare x z = Lt.
Proof.
  revert y z. induction x as [|a x IH]; intros [|b y] [|c z]; cbn; try congruence.
  destruct (Ascii.compare a b) eqn:Hab; try discriminate.
  - apply Ascii.compare_eq_iff in Hab. subst b.
    destruct (Ascii.compare a c); try congruence. apply IH.
  - intros _. destruct (Ascii.compare b c) eqn:Hbc; try discriminate.
    + apply Ascii.compare_eq_iff in Hbc. subst c. rewrite Hab. reflexivity.
    + rewrite (ascii_compare_lt_trans a b c Hab Hbc). reflexivity.
Qed.

Lemma ltb_irrefl (s : string) : String.ltb s s = false.
Proof. unfold String.ltb. rewrite string_compare_refl. reflexivity. Qed.

Lemma ltb_trans (x y z : string) :
  String.ltb x y = true -> String.ltb y z = true -> String.ltb x z = true.
Proof.
  unfold String.ltb.
  destruct (String.compare x y) eqn:Hxy; try discriminate.
  destruct (String.compare y z) eqn:Hyz; try discriminate.
  rewrite (string_compare_lt_trans x y z Hxy Hyz). reflexivity.
Qed.

Lemma ltb_incomparable_eq (x y : string) :
  String.ltb x y = false -> String.ltb y x = false -> x = y.
Proof.
  unfold String.ltb. rewrite (String.compare_antisym y x).
  destruct (String.compare x y) eqn:Hxy; cbn; try discriminate.
  intros _ _. apply String.compare_eq_iff, Hxy.
Qed.

(** Between two songs that do not carry the unique id of the default song,
    the comparator is the lexicographic order on the group and the name:
    the rules apply in the order of the source and the first that differs
    decides. *)
Lemma sort_lambda_lexicographic (file_exists : string -> bool) (d : string) (a b : Song) :
  uniqueID (metadata a) <> d -> uniqueID (metadata b) <> d ->
  sort_lambda file_exists d a b = by_group_then_name file_exists a b.
Proof.
  intros Ha Hb. apply String.eqb_neq in Ha, Hb.
  unfold sort_lambda, rule_default, rule_no_index, rule_path, rule_type,
    rule_index_again, rule_name, by_group_then_name, group.
  rewrite Ha, Hb.
  destruct (has_value (indexID a)), (has_value (indexID b)),
    (path_on_disk file_exists a), (path_on_disk file_exists b),
    (type a), (type b); reflexivity.
Qed.

(** Rule (e) never decides: when rule (b) falls through, both songs have an
    index or neither has. *)
Lemma rule_index_again_idle (a b : Song) :
  rule_no_index a b = None -> rule_index_again a b = None.
Proof.
  unfold rule_no_index, rule_index_again.
  destruct (has_value (indexID a)), (has_value (indexID b)); cbn; congruence.
Qed.

Lemma by_group_then_name_irrefl (file_exists : string -> bool) (a : Song) :
  by_group_then_name file_exists a a = false.
Proof.
  unfold by_group_then_name. rewrite Z.ltb_irrefl, ltb_irrefl, andb_false_r. reflexivity.
Qed.

Lemma by_group_then_name_true (file_exists : string -> bool) (a b : Song) :
  by_group_then_name file_exists a b = true <->
  (group file_exists a < group file_exists b)%Z
  \/ (group file_exists a = group file_exists b
      /\ String.ltb (name (metadata a)) (name (metadata b)) = true).
Proof.
  unfold by_group_then_name.
  rewrite orb_true_iff, andb_true_iff, Z.ltb_lt, Z.eqb_eq. reflexivity.
Qed.

Lemma by_group_then_name_false (file_exists : string -> bool) (a b : Song) :
  by_group_then_name file_exists a b = false <->
  (group file_exists b <= group file_exists a)%Z
  /\ (group file_exists a = group file_exists b ->
      String.ltb (name (metadata a)) (name (metadata b)) = false).
Proof.
  rewrite <- not_true_iff_false, by_group_then_name_true. split.
  - intros Hno. split; [lia|]. intros Heq.
    destruct (String.ltb _ _) eqn:Hlt; [|reflexivity]. destruct Hno. right. auto.
  - intros [Hle Hname] [Hlt|[Heq Hlt]]; [lia|]. rewrite (Hname Heq) in Hlt. discriminate.
Qed.

Lemma by_group_then_name_asym (file_exists : string -> bool) (a b : Song) :
  by_group_then_name file_exists a b = true ->
  by_group_then_name file_exists b a = false.
Proof.
  rewrite by_group_then_name_true, by_group_then_name_false.
  intros [Hlt|[Heq Hlt]]; (split; [lia|]); intros Heq'; [lia|].
  destruct (String.ltb (name (metadata b)) (name (metadata a))) eqn:Hba; [|reflexivity].
  rewrite <- (ltb_irrefl (name (metadata a))). symmetry.
  apply (ltb_trans _ (name (metadata b))); assumption.
Qed.

Lemma by_group_then_name_trans (file_exists : string -> bool) (a b c : Song) :
  by_group_then_name file_exists a b = true ->
  by_group_then_name file_exists b c = true ->
  by_group_then_name file_exists a c = true.
Proof.
  rewrite !by_group_then_name_true.
  intros [Hab|[Hab Hnab]] [Hbc|[Hbc Hnbc]]; try (left; lia).
  right. split; [congruence|]. apply (ltb_trans _ (name (metadata b))); assumption.
Qed.

Lemma by_group_then_name_negtrans (file_exists : string -> bool) (a b c : Song) :
  by_group_then_name file_exists a b = false ->
  by_group_then_name file_exists b c = false ->
  by_group_then_name file_exists a c = false.
Proof.
  rewrite !by_group_then_name_false.
  intros [Hab Hnab] [Hbc Hnbc]. split; [lia|]. intros Heq.
  assert (Hgab : group file_exists a = group file_exists b) by lia.
  assert (Hgbc : group file_exists b = group file_exists c) by lia.
  specialize (Hnab Hgab). specialize (Hnbc Hgbc).
  destruct (String.ltb (name (metadata a)) (name (metadata c))) eqn:Hac; [|reflexivity].
  destruct (String.ltb (name (metadata c)) (name (metadata b))) eqn:Hcb.
  - rewrite <- Hnab. symmetry.
    apply (ltb_trans _ (name (metadata c))); assumption.
  - rewrite (ltb_incomparable_eq _ _ Hnbc Hcb) in Hnab. congruence.
Qed.

(** On songs that do not carry the unique id of the default song the
    comparator is a strict weak ordering. *)
Lemma sort_lambda_strict_weak_on_others (file_exists : string -> bool) (d : string)
    (l : list Song) :
  Forall (fun s => uniqueID (metadata s) <> d) l ->
  strict_weak_ordering (sort_lambda file_exists d) l.
Proof.
  rewrite Forall_forall. intros Hl. split; [|split].
  - intros x Hx. rewrite sort_lambda_lexicographic by auto.
    apply by_group_then_name_irrefl.
  - intros x y z Hx Hy Hz. rewrite !sort_lambda_lexicographic by auto.
    apply by_group_then_name_trans.
  - intros x y z Hx Hy Hz [Hxy Hyx] [Hyz Hzy].
    rewrite sort_lambda_lexicographic in Hxy, Hyx, Hyz, Hzy by auto.
    split; rewrite sort_lambda_lexicographic by auto;
      eapply by_group_then_name_negtrans; eassumption.
Qed.

Lemma nong_before_default (file_exists : string -> bool) (localNongs : Nongs)
    (x : SongPtr) :
  nong_before file_exists localNongs (default_ptr localNongs) x = true.
Proof.
  apply (sort_lambda_default_before_all file_exists (ALocal (defaultSong localNongs))).
Qed.

Lemma nong_before_not_default (file_exists : string -> bool) (localNongs : Nongs)
    (v : SongPtr) :
  uid v <> uniqueID (l_metadata (defaultSong localNongs)) ->
  nong_before file_exists localNongs v (default_ptr localNongs) = false.
Proof.
  apply (sort_lambda_not_before_default file_exists (ALocal (defaultSong localNongs))).
Qed.

Lemma nong_before_lexicographic (file_exists : string -> bool) (localNongs : Nongs)
    (a b : SongPtr) :
  uid a <> uniqueID (l_metadata (defaultSong localNongs)) ->
  uid b <> uniqueID (l_metadata (defaultSong localNongs)) ->
  nong_before file_exists localNongs a b
  = by_group_then_name file_exists (pointee a) (pointee b).
Proof. apply sort_lambda_lexicographic. Qed.

(** When no other variant carries the unique id of the default song, what
    [getNongs] returns is ordered by the comparator: the default song, then
    the other songs by group and name. *)
Lemma sorted_nongs_sorted (file_exists : string -> bool) (localNongs : Nongs)
    (indexNongs : option Nongs) :
  Forall (fun p => uid p <> uniqueID (l_metadata (defaultSong localNongs)))
    (others localNongs indexNongs) ->
  sorted_by (nong_before file_exists localNongs)
    (sorted_nongs file_exists localNongs indexNongs).
Proof.
  intros Hreserved. unfold sorted_nongs, std_sort. rewrite merged_cons.
  cbn [fold_left linear_insert].
  apply (fold_linear_insert_sorted (nong_before file_exists localNongs)
           (fun p => uid p <> uniqueID (l_metadata (defaultSong localNongs))
                     \/ p = default_ptr localNongs)
           (fun p => uid p <> uniqueID (l_metadata (defaultSong localNongs)))).
  - intros x Hx. left. exact Hx.
  - intros v y Hv [Hy | ->] Hvy.
    + rewrite nong_before_lexicographic in * by assumption.
      apply by_group_then_name_asym, Hvy.
    + rewrite nong_before_not_default in Hvy by assumption. discriminate Hvy.
  - intros y v f Hy Hv [Hf | ->] Hyv Hvf.
    + destruct Hy as [Hy | ->]; [|apply nong_before_default].
      rewrite nong_before_lexicographic in * by assumption.
      eapply by_group_then_name_trans; eassumption.
    + rewrite nong_before_not_default in Hvf by assumption. discriminate Hvf.
  - intros v p x Hv [Hp | ->] Hx Hvp Hpx.
    + destruct Hx as [Hx | ->]; [|apply nong_before_not_default, Hv].
      rewrite nong_before_lexicographic in * by assumption.
      eapply by_group_then_name_negtrans; eassumption.
    + rewrite nong_before_default in Hpx. discriminate Hpx.
  - exact Hreserved.
  - constructor; [right; reflexivity | constructor].
  - repeat constructor.
Qed.

End MergeFacts.


Module MergeClaims.
Import SortFacts MergeFacts Samples.

Example getNongs_unknown_song :
  getNongs nothing_on_disk (store only_default) ∅ 7 = inl "Failed to get nongs".
Proof. reflexivity. Qed.

Example getNongs_downloaded_once :
  getNongs nothing_on_disk (store with_yt_downloaded) (store index_with_yt) 42
  = inr [default_ptr with_yt_downloaded; mkSongPtr (InYoutube 0) (AYT yt_downloaded)].
Proof. vm_compute. reflexivity. Qed.

(** C1, counterexample: a YouTube song added by hand (no [indexID]) and the
    index entry with the same unique id are both returned. *)
Lemma getNongs_returns_both_copies :
  getNongs nothing_on_disk (store with_yt_by_hand) (store index_with_yt) 42
  = inr [default_ptr with_yt_by_hand;
         mkSongPtr (InYoutube 0) (AYT yt_by_hand);
         mkSongPtr (IndexYoutube 0) (AYT yt_of_index)]
  /\ uniqueID (yt_metadata yt_by_hand) = uniqueID (yt_metadata yt_of_index)
  /\ ~ NoDup (map uid [default_ptr with_yt_by_hand;
                       mkSongPtr (InYoutube 0) (AYT yt_by_hand);
                       mkSongPtr (IndexYoutube 0) (AYT yt_of_index)]).
Proof.
  split; [vm_compute; reflexivity|]. split; [reflexivity|].
  intros Hnd. apply NoDup_cons_1_2 in Hnd. apply NoDup_cons_1_1 in Hnd.
  apply Hnd. left.
Qed.

(** C1, as amended: when a local YouTube or hosted song carries an [indexID]
    and the index collection of the song id has a song of the same kind with
    the same unique id, no index song with that unique id is returned: every
    returned variant with that id comes from the local store, and one does.
    This is said of the vectors on which the sort is defined: the default
    song is the only variant with its unique id, or at most 16 variants are
    pushed. *)
Theorem getNongs_keeps_local_copy (file_exists : string -> bool)
    (nongManager m_indexNongs : gmap Z Nongs) (gdSongID : Z)
    (localNongs idx : Nongs) (id : string) :
  nongManager !! gdSongID = Some localNongs ->
  m_indexNongs !! gdSongID = Some idx ->
  sort_defined localNongs (Some idx) ->
  taken_from_index localNongs idx id ->
  exists nongs,
    getNongs file_exists nongManager m_indexNongs gdSongID = inr nongs
    /\ (forall p, p ∈ nongs -> uid p = id -> from_index (addr p) = false)
    /\ (exists p, p ∈ nongs /\ uid p = id /\ from_index (addr p) = false).
Proof.
  intros Hlocal Hindex _ Htaken. unfold getNongs. rewrite Hlocal, Hindex.
  eexists. split; [reflexivity|]. split.
  - intros p Hp Hid. apply elem_of_sorted_nongs, elem_of_merged in Hp.
    destruct Hp as [->|[(i & s & _ & ->)|[(i & s & _ & ->)
                   |[(i & s & _ & ->)|(idx' & _ & Hnot & _)]]]]; try reflexivity.
    exfalso. apply Hnot. rewrite Hid. apply taken_from_index_added, Htaken.
  - destruct Htaken as [(song & indexSong & Hs & _ & _ & Hid & _)
                       |(song & indexSong & Hs & _ & _ & Hid & _)];
      apply list_elem_of_lookup in Hs as [i Hi].
    + exists (mkSongPtr (InYoutube i) (AYT song)). split; [|split; [exact Hid|reflexivity]].
      apply elem_of_sorted_nongs, elem_of_merged. right. right. left. eauto.
    + exists (mkSongPtr (InHosted i) (AHosted song)). split; [|split; [exact Hid|reflexivity]].
      apply elem_of_sorted_nongs, elem_of_merged. right. right. right. left. eauto.
Qed.

Lemma getNongs_keeps_local_copy_witness :
  store with_yt_downloaded !! 42%Z = Some with_yt_downloaded
  /\ store index_with_yt !! 42%Z = Some index_with_yt
  /\ sort_defined with_yt_downloaded (Some index_with_yt)
  /\ taken_from_index with_yt_downloaded index_with_yt "a1"
  /\ exists nongs,
       getNongs nothing_on_disk (store with_yt_downloaded) (store index_with_yt) 42
       = inr nongs
       /\ (forall p, p ∈ nongs -> uid p = "a1" -> from_index (addr p) = false)
       /\ (exists p, p ∈ nongs /\ uid p = "a1" /\ from_index (addr p) = false).
Proof.
  assert (Htaken : taken_from_index with_yt_downloaded index_with_yt "a1").
  { left. exists yt_downloaded, yt_of_index.
    repeat split; [apply list_elem_of_singleton; reflexivity
                  |apply list_elem_of_singleton; reflexivity
                  |exists "a1"; reflexivity]. }
  assert (Hshort : sort_defined with_yt_downloaded (Some index_with_yt)).
  { right. vm_compute. lia. }
  split; [reflexivity|]. split; [reflexivity|]. split; [exact Hshort|].
  split; [exact Htaken|].
  apply (getNongs_keeps_local_copy nothing_on_disk (store with_yt_downloaded)
           (store index_with_yt) 42 with_yt_downloaded index_with_yt "a1");
    [reflexivity | reflexivity | exact Hshort | exact Htaken].
Defined.

Example getNongs_index_entry_in_front :
  getNongs nothing_on_disk (store only_default) (store index_with_default_id) 42
  = inr [mkSongPtr (IndexHosted 0) (AHosted hosted_named_default);
         default_ptr only_default].
Proof. vm_compute. reflexivity. Qed.

(** The front of the insertion sort when some elements compare less than
    every element and no other element compares less than one of them: the
    last such element of the input. *)
Lemma fold_linear_insert_front {A} (comp : A -> A -> bool) (top : A -> Prop) :
  (forall x y, top x -> comp x y = true) ->
  (forall x y, ~ top x -> top y -> comp x y = false) ->
  (forall x, top x \/ ~ top x) ->
  forall l h t,
    top h ->
    exists h' t',
      fold_left (linear_insert comp) l (h :: t) = h' :: t'
      /\ top h'
      /\ ((Forall (fun x => ~ top x) l /\ h' = h)
          \/ exists before after,
               l = before ++ h' :: after /\ Forall (fun x => ~ top x) after).
Proof.
  intros Hbefore Hafter Hdec.
  induction l as [|x l IH]; intros h t Hh; cbn [fold_left].
  - exists h, t. split; [reflexivity|]. split; [exact Hh|]. left. split; [constructor | reflexivity].
  - destruct (Hdec x) as [Hx | Hx].
    + cbn [linear_insert]. rewrite (Hbefore x h Hx).
      destruct (IH x (h :: t) Hx) as (h' & t' & Hfold & Htop & Hwhere).
      exists h', t'. split; [exact Hfold|]. split; [exact Htop|]. right.
      destruct Hwhere as [[Hnone ->] | (before & after & -> & Hlast)].
      * exists [], l. split; [reflexivity | exact Hnone].
      * exists (x :: before), after. split; [reflexivity | exact Hlast].
    + destruct (linear_insert_keeps_first comp x h t (Hafter x h Hx Hh)) as [rest' ->].
      destruct (IH h rest' Hh) as (h' & t' & Hfold & Htop & Hwhere).
      exists h', t'. split; [exact Hfold|]. split; [exact Htop|].
      destruct Hwhere as [[Hnone ->] | (before & after & -> & Hlast)].
      * left. split; [constructor; assumption | reflexivity].
      * right. exists (x :: before), after. split; [reflexivity | exact Hlast].
Qed.

(** C3: the default song loses the front.  Whenever another variant that
    [getNongs] pushes carries the unique id of the default song, the first
    variant returned is not the default song: it is the variant with that
    unique id that was pushed last, and the default song comes after it.
    The rule on lines 376 to 379 answers [true] for every song with that
    unique id, whatever it is compared with.  This is said of the vectors of
    at most 16 variants, which [std::sort] sorts by insertion. *)
Theorem getNongs_default_displaced (file_exists : string -> bool)
    (nongManager m_indexNongs : gmap Z Nongs) (gdSongID : Z) (localNongs : Nongs) :
  nongManager !! gdSongID = Some localNongs ->
  Exists (fun p => uid p = uniqueID (l_metadata (defaultSong localNongs)))
    (others localNongs (m_indexNongs !! gdSongID)) ->
  length (merged localNongs (m_indexNongs !! gdSongID)) <= 16 ->
  exists first rest before after,
    getNongs file_exists nongManager m_indexNongs gdSongID = inr (first :: rest)
    /\ others localNongs (m_indexNongs !! gdSongID) = before ++ first :: after
    /\ uid first = uniqueID (l_metadata (defaultSong localNongs))
    /\ Forall (fun p => uid p <> uniqueID (l_metadata (defaultSong localNongs))) after
    /\ first <> default_ptr localNongs
    /\ default_ptr localNongs ∈ rest.
Proof.
  intros Hlocal Hother _. unfold getNongs. rewrite Hlocal.
  set (indexNongs := m_indexNongs !! gdSongID) in *.
  set (d := uniqueID (l_metadata (defaultSong localNongs))) in *.
  destruct (fold_linear_insert_front (nong_before file_exists localNongs)
              (fun p => uid p = d)) with
    (l := others localNongs indexNongs) (h := default_ptr localNongs)
    (t := @nil SongPtr)
    as (first & rest & Hsorted & Hid & Hwhere).
  - intros x y Hx. unfold nong_before. fold d. unfold uid in Hx. rewrite <- Hx.
    apply sort_lambda_default_before_all.
  - intros x y Hx Hy. unfold nong_before. fold d. unfold uid in Hx, Hy. rewrite <- Hy.
    apply sort_lambda_not_before_default. rewrite Hy. exact Hx.
  - intros x. destruct (decide (uid x = d)); [left | right]; assumption.
  - reflexivity.
  - destruct Hwhere as [[Hnone _] | (before & after & Hsplit & Hlast)].
    { apply Exists_exists in Hother as (p & Hp & Hpd).
      rewrite Forall_forall in Hnone. destruct (Hnone p Hp Hpd). }
    assert (Hin : first ∈ others localNongs indexNongs).
    { rewrite Hsplit. apply elem_of_app. right. left. }
    assert (Hne : first <> default_ptr localNongs).
    { intros ->. apply (others_not_default localNongs indexNongs _ Hin). reflexivity. }
    exists first, rest, before, after.
    split; [|split; [exact Hsplit|split; [exact Hid|split; [exact Hlast|split; [exact Hne|]]]]].
    + unfold sorted_nongs, std_sort. rewrite merged_cons.
      cbn [fold_left linear_insert]. rewrite Hsorted. reflexivity.
    + assert (Hperm : Permutation (first :: rest)
                        (default_ptr localNongs :: others localNongs indexNongs)).
      { rewrite <- Hsorted.
        rewrite (fold_linear_insert_perm (nong_before file_exists localNongs)).
        reflexivity. }
      assert (Hd : default_ptr localNongs ∈ first :: rest) by (rewrite Hperm; left).
      apply elem_of_cons in Hd. destruct Hd as [Heq | Hd]; [|exact Hd].
      destruct Hne. symmetry. exact Heq.
Qed.

Lemma getNongs_default_displaced_witness :
  store only_default !! 42%Z = Some only_default
  /\ Exists (fun p => uid p = uniqueID (l_metadata (defaultSong only_default)))
       (others only_default (store index_with_default_id !! 42%Z))
  /\ length (merged only_default (store index_with_default_id !! 42%Z)) <= 16
  /\ exists first rest before after,
       getNongs nothing_on_disk (store only_default) (store index_with_default_id) 42
       = inr (first :: rest)
       /\ others only_default (store index_with_default_id !! 42%Z)
          = before ++ first :: after
       /\ uid first = uniqueID (l_metadata (defaultSong only_default))
       /\ Forall (fun p => uid p <> uniqueID (l_metadata (defaultSong only_default)))
            after
       /\ first <> default_ptr only_default
       /\ default_ptr only_default ∈ rest.
Proof.
  assert (Hother : Exists (fun p => uid p = uniqueID (l_metadata (defaultSong only_default)))
                     (others only_default (store index_with_default_id !! 42%Z))).
  { apply Exists_cons_hd. reflexivity. }
  assert (Hshort : length (merged only_default (store index_with_default_id !! 42%Z)) <= 16).
  { vm_compute. lia. }
  split; [reflexivity|]. split; [exact Hother|]. split; [exact Hshort|].
  apply (getNongs_default_displaced nothing_on_disk (store only_default)
           (store index_with_default_id) 42 only_default);
    [reflexivity | exact Hother | exact Hshort].
Defined.

(** C4: the comparator answers [true] when both arguments are the default
    song, so on no vector that [getNongs] sorts is it a strict weak
    ordering. *)
Theorem nong_before_not_strict_weak_ordering (file_exists : string -> bool)
    (localNongs : Nongs) (indexNongs : option Nongs) :
  nong_before file_exists localNongs (default_ptr localNongs) (default_ptr localNongs) = true
  /\ ~ strict_weak_ordering (nong_before file_exists localNongs)
        (merged localNongs indexNongs).
Proof.
  assert (Hrefl : nong_before file_exists localNongs
                    (default_ptr localNongs) (default_ptr localNongs) = true).
  { apply nong_before_default. }
  split; [exact Hrefl|].
  intros [Hirr _]. specialize (Hirr (default_ptr localNongs)).
  rewrite Hrefl in Hirr. rewrite merged_cons in Hirr.
  discriminate Hirr. left.
Qed.

End MergeClaims.

(** ** The download pipeline *)

Module DownloadFacts.
Import Samples.

Ltac run :=
  cbv beta iota zeta delta
    [bind ret modify emit post get when fresh result_of state_of log_of fst snd].

Lemma state_changes_app (l1 l2 : Log) :
  state_changes (l1 ++ l2) = state_changes l1 ++ state_changes l2.
Proof. apply omap_app. Qed.

Lemma for_each_app {A} (l1 l2 : list A) (body : A -> M unit) (st : State) :
  for_each (l1 ++ l2) body st
  = (tt, state_of (for_each l2 body (state_of (for_each l1 body st))),
     log_of (for_each l1 body st)
     ++ log_of (for_each l2 body (state_of (for_each l1 body st)))).
Proof.
  revert st. induction l1 as [|x l1 IH]; intros st; cbn [app for_each].
  - unfold ret, state_of, log_of. cbn.
    destruct (for_each l2 body st) as [[[] s] l]. reflexivity.
  - unfold bind at 1. destruct (body x st) as [[[] s1] lg1] eqn:Hx.
    rewrite IH. unfold state_of, log_of. cbn [fst snd].
    unfold bind. rewrite Hx.
    destruct (for_each l1 body s1) as [[[] s2] lg2]. cbn [fst snd].
    rewrite app_assoc. reflexivity.
Qed.

Lemma setIndexID_frame (gdSongID : Z) (a : SongAddr) (id : string) (st : State) :
  log_of (setIndexID gdSongID a id st) = []
  /\ m_downloadProgress (state_of (setIndexID gdSongID a id st)) = m_downloadProgress st
  /\ m_downloadSongListeners (state_of (setIndexID gdSongID a id st))
     = m_downloadSongListeners st.
Proof. destruct a; repeat split. Qed.

Lemma progress_events_quiet (host : Host) (l : DownloadListener) (progress : list Q)
    (st : State) :
  state_changes (log_of (for_each (map TaskProgress progress)
                           (downloadSongListener host l) st)) = [].
Proof.
  revert st. induction progress as [|p ps IH]; intros st; cbn [map for_each].
  - reflexivity.
  - unfold bind at 1. cbn [downloadSongListener]. run.
    specialize (IH (set_downloadProgress <[dl_id l:=p]> st)).
    destruct (for_each _ _ _) as [[[] s] lg]. cbn in IH |- *. exact IH.
Qed.

Lemma terminal_event_notifies_once (host : Host) (l : DownloadListener)
    (terminal : TaskEvent) (st : State) :
  is_terminal terminal = true ->
  exists seen,
    state_changes (log_of (downloadSongListener host l terminal st))
    = [(dl_gdSongID l, seen)]
    /\ bookkeeping_cleared (dl_id l) seen.
Proof.
  intros Hterminal. unfold bookkeeping_cleared.
  destruct terminal as [p| |[destination|e]]; [discriminate Hterminal| | |].
  - eexists. split; [reflexivity|]. cbn. split; apply lookup_delete_eq.
  - cbn [downloadSongListener]. destruct (String.length destination =? 0)%nat.
    + eexists. split; [reflexivity|]. cbn. split; apply lookup_delete_eq.
    + destruct (setActiveSong host (dl_gdSongID l) (dl_id l)) eqn:Hactive;
        destruct (dl_nong l) eqn:Hnong; run; cbn; rewrite ?Hactive; cbn;
        (eexists; split; [reflexivity|]); cbn; split; apply lookup_delete_eq.
  - eexists. split; [reflexivity|]. cbn. split; apply lookup_delete_eq.
Qed.

(** Whatever the terminal event handed to a listener is (a value, an error
    or the cancellation), the listener publishes exactly one state-changed
    notification, and when it is published the progress and listener
    entries of the unique id are erased. *)
Lemma whole_task_notifies_once (host : Host) (l : DownloadListener)
    (progress : list Q) (terminal : TaskEvent) (st : State) :
  is_terminal terminal = true ->
  exists seen,
    state_changes (log_of (whole_task host l progress terminal st))
    = [(dl_gdSongID l, seen)]
    /\ bookkeeping_cleared (dl_id l) seen.
Proof.
  intros Hterminal. unfold whole_task. rewrite for_each_app.
  cbn [log_of snd]. rewrite state_changes_app, progress_events_quiet.
  cbn [app for_each].
  set (st1 := state_of (for_each (map TaskProgress progress)
                          (downloadSongListener host l) st)).
  destruct (terminal_event_notifies_once host l terminal st1 Hterminal)
    as (seen & Hseen & Hcleared).
  exists seen. split; [|exact Hcleared].
  unfold bind, ret. destruct (downloadSongListener host l terminal st1) as [[[] s] lg].
  cbn in Hseen |- *. rewrite app_nil_r. exact Hseen.
Qed.

Example download_succeeds :
  posted (log_of (whole_task sample_host (hosted_listener 0) [(1 # 2)%Q]
                    (TaskValue (Ok "nongs/fresh.mp3"))
                    (state_of (downloadSong sample_host hosted_ptr idle))))
  = [SongDownloadProgressEvent 42 "h1" (1 # 2); SongStateChangedEvent 42].
Proof. vm_compute. reflexivity. Qed.

Lemma length_zero_empty (s : string) : (String.length s =? 0)%nat = true <-> s = "".
Proof. destruct s; cbn; split; intros H; (reflexivity || discriminate H). Qed.


Example hosted_empty_body_commits :
  effects (log_of (hostedCompletes sample_host (hosted_listener 0) empty_response idle))
  = [SetActiveSong 42 "h1"; Post (SongStateChangedEvent 42)]
  /\ m_indexNongs (state_of (hostedCompletes sample_host (hosted_listener 0)
                               empty_response idle))
     = store (mkNongs the_default [] [] [hosted_setIndexID "h1" hosted_of_index]).
Proof. split; vm_compute; reflexivity. Qed.

(** C2, counterexample: a hosted download that succeeds with an empty body
    still commits: the local store is asked to make the song active and the
    song gets its [indexID]. *)
Lemma hosted_empty_body_not_skipped :
  ok empty_response = true /\ data empty_response = ""
  /\ SetActiveSong 42 "h1"
       ∈ effects (log_of (hostedCompletes sample_host (hosted_listener 0)
                            empty_response idle))
  /\ m_indexNongs (state_of (hostedCompletes sample_host (hosted_listener 0)
                                empty_response idle))
     <> m_indexNongs idle.
Proof.
  split; [reflexivity|]. split; [reflexivity|].
  destruct hosted_empty_body_commits as [-> ->].
  split; [left|]. vm_compute. discriminate.
Qed.

(** C2, as amended: when the fetch of a hosted download succeeds, the body is
    written to the generated path whatever it holds, and the commit step is
    skipped exactly when that path is the empty string: then no [indexID] is
    assigned, the local store is not asked to make the song active, no error
    is published and only the state-changed notification fires.  With any
    other path, also for an empty body, the song gets its [indexID] and the
    local store is asked to make it active. *)
Theorem hosted_commit_skipped_on_empty_path (host : Host) (l : DownloadListener)
    (response : WebResponse) (st : State) :
  ok response = true ->
  let destination := generateSongFilePath host "mp3" in
  let r := hostedCompletes host l response st in
  files (state_of r)
  = files (state_of (write_file host destination (data response) st))
  /\ (destination = "" ->
      effects (log_of r) = [Post (SongStateChangedEvent (dl_gdSongID l))]
      /\ same_songs (state_of r) st)
  /\ (destination <> "" ->
      effects (log_of r) = commit_effects host l
      /\ same_songs (state_of r)
           (state_of (setIndexID (dl_gdSongID l) (dl_nong l) (dl_id l) st))).
Proof.
  intros Hok destination r. subst r.
  unfold hostedCompletes, hostedValue, write_file, commit_effects, same_songs.
  rewrite Hok. fold destination. split; [|split].
  - destruct (can_open host destination); run; cbn [downloadSongListener];
      destruct (String.length destination =? 0)%nat;
      destruct (setActiveSong host (dl_gdSongID l) (dl_id l));
      destruct (dl_nong l); reflexivity.
  - intros Hempty. apply length_zero_empty in Hempty.
    destruct (can_open host destination); run; cbn [downloadSongListener];
      rewrite Hempty; run; cbn; repeat split.
  - intros Hpath. rewrite <- length_zero_empty in Hpath.
    apply not_true_is_false in Hpath.
    destruct (can_open host destination); run; cbn [downloadSongListener];
      rewrite Hpath; destruct (setActiveSong host (dl_gdSongID l) (dl_id l));
      destruct (dl_nong l); run; cbn; repeat split.
Qed.

Lemma hosted_commit_skipped_on_empty_path_witness :
  ok empty_response = true
  /\ generateSongFilePath pathless_host "mp3" = ""
  /\ let destination := generateSongFilePath pathless_host "mp3" in
     let r := hostedCompletes pathless_host (hosted_listener 0) empty_response idle in
     files (state_of r)
     = files (state_of (write_file pathless_host destination (data empty_response) idle))
     /\ (destination = "" ->
         effects (log_of r) = [Post (SongStateChangedEvent (dl_gdSongID (hosted_listener 0)))]
         /\ same_songs (state_of r) idle)
     /\ (destination <> "" ->
         effects (log_of r) = commit_effects pathless_host (hosted_listener 0)
         /\ same_songs (state_of r)
              (state_of (setIndexID (dl_gdSongID (hosted_listener 0))
                           (dl_nong (hosted_listener 0)) (dl_id (hosted_listener 0)) idle))).
Proof.
  split; [reflexivity|]. split; [reflexivity|].
  apply (hosted_commit_skipped_on_empty_path pathless_host (hosted_listener 0)
           empty_response idle).
  reflexivity.
Defined.

Example downloadSong_local_refused :
  downloadSong sample_host (mkSongPtr InDefault (ALocal the_default)) idle
  = (Err "Can't download local song", Unbound, idle, []).
Proof. reflexivity. Qed.

Example downloadSong_hosted_starts :
  effects (log_of (downloadSong sample_host hosted_ptr idle))
  = [WebGet 0 "https://example.org/z.mp3"; Post (SongDownloadProgressEvent 42 "h1" 0)]
  /\ m_downloadSongListeners (state_of (downloadSong sample_host hosted_ptr idle))
     = {[ "h1" := hosted_listener 0 ]}.
Proof. split; vm_compute; reflexivity. Qed.

(** C5: when a download starts for a unique id that already has a listener,
    the old task is asked to cancel, but [emplace] finds the key taken and
    the new listener is not registered: the entry still holds the listener
    of the old task.  Between the cancel request and the zero-progress event
    nothing is published, so the old listener has not been handed its
    cancellation by then. *)
Theorem downloadSong_keeps_old_listener (host : Host) (nong : SongPtr) (st : State)
    (old : DownloadListener) :
  type (pointee nong) <> LOCAL ->
  m_downloadSongListeners st !! uid nong = Some old ->
  let r := downloadSong host nong st in
  m_downloadSongListeners (state_of r) !! uid nong = Some old
  /\ exists started,
      effects (log_of r)
      = TaskCancel (dl_task old) :: started
        ++ [Post (SongDownloadProgressEvent (gdID (metadata (pointee nong))) (uid nong) 0)]
      /\ Forall (fun e => is_post e = false) started.
Proof.
  intros Htype Hold r. subst r. unfold downloadSong.
  destruct (pointee nong) as [s|yt|h] eqn:Hsong; [destruct Htype; reflexivity| |].
  - unfold youtubeBody.
    destruct (negb (String.length (youtubeID yt) =? 11)%nat); run; rewrite Hold; run;
      cbn; unfold emplace; rewrite Hold; (split; [exact Hold|]);
      eexists [_]; (split; [reflexivity|]); repeat constructor.
  - run. rewrite Hold. run. cbn. unfold emplace. rewrite Hold. split; [exact Hold|].
    eexists [_]. split; [reflexivity|]. repeat constructor.
Qed.

Lemma downloadSong_keeps_old_listener_witness :
  type (pointee hosted_ptr) <> LOCAL
  /\ m_downloadSongListeners (state_of (downloadSong sample_host hosted_ptr idle))
       !! uid hosted_ptr = Some (hosted_listener 0)
  /\ let r := downloadSong sample_host hosted_ptr
                (state_of (downloadSong sample_host hosted_ptr idle)) in
     m_downloadSongListeners (state_of r) !! uid hosted_ptr = Some (hosted_listener 0)
     /\ exists started,
         effects (log_of r)
         = TaskCancel (dl_task (hosted_listener 0)) :: started
           ++ [Post (SongDownloadProgressEvent (gdID (metadata (pointee hosted_ptr)))
                       (uid hosted_ptr) 0)]
         /\ Forall (fun e => is_post e = false) started.
Proof.
  assert (Htype : type (pointee hosted_ptr) <> LOCAL) by discriminate.
  assert (Hold : m_downloadSongListeners (state_of (downloadSong sample_host hosted_ptr idle))
                   !! uid hosted_ptr = Some (hosted_listener 0))
    by (vm_compute; reflexivity).
  split; [exact Htype|]. split; [exact Hold|].
  exact (downloadSong_keeps_old_listener sample_host hosted_ptr
           (state_of (downloadSong sample_host hosted_ptr idle))
           (hosted_listener 0) Htype Hold).
Defined.

Example restarted_download_is_lost :
  effects (log_of (restarted idle))
  = [WebGet 0 "https://example.org/z.mp3";
     Post (SongDownloadProgressEvent 42 "h1" 0);
     TaskCancel 0;
     WebGet 1 "https://example.org/z.mp3";
     Post (SongDownloadProgressEvent 42 "h1" 0);
     Post (SongErrorEvent false "Failed to fetch song: cancelled");
     Post (SongStateChangedEvent 42)]
  /\ m_downloadSongListeners (state_of (restarted idle)) = ∅
  /\ m_indexNongs (state_of (restarted idle)) = m_indexNongs idle.
Proof. repeat split; vm_compute; reflexivity. Qed.

Lemma youtubeEvents_unbound (host : Host) (task : TaskId) (yt : YTSong)
    (events : list (bool * WebEvent)) (st : State) :
  youtubeEvents host task yt Unbound events st = (Unbound, st, []).
Proof.
  induction events as [|[cancelled event] rest IH]; cbn [youtubeEvents youtubeEvent].
  - reflexivity.
  - unfold bind, ret. rewrite IH. reflexivity.
Qed.

(** C6: a YouTube download whose video id does not have 11 characters
    finishes at once with the error, neither listener is bound to a request,
    and no request is made, then or later. *)
Theorem youtube_invalid_id_no_request (host : Host) (nong : SongPtr) (yt : YTSong)
    (st : State) :
  pointee nong = AYT yt ->
  String.length (youtubeID yt) <> 11 ->
  let r := downloadSong host nong st in
  snd (result_of r) = Unbound
  /\ TaskFinish (next_task st) (Err "Invalid YouTube ID") ∈ effects (log_of r)
  /\ Forall (fun e => is_web_request e = false) (effects (log_of r))
  /\ forall events st',
      youtubeEvents host (next_task st) yt (snd (result_of r)) events st'
      = (Unbound, st', []).
Proof.
  intros Hsong Hlength r. subst r. unfold downloadSong, youtubeBody. rewrite Hsong.
  apply Nat.eqb_neq in Hlength. rewrite Hlength. cbn [negb].
  destruct (m_downloadSongListeners st !! uid nong) as [old|] eqn:Hold;
    run; rewrite Hold; run; cbn;
    (split; [reflexivity|]); (split; [|split]).
  - right. left.
  - repeat constructor.
  - intros events st'. apply youtubeEvents_unbound.
  - left.
  - repeat constructor.
  - intros events st'. apply youtubeEvents_unbound.
Qed.

Lemma youtube_invalid_id_no_request_witness :
  pointee yt_short_ptr = AYT yt_short
  /\ String.length (youtubeID yt_short) <> 11
  /\ let r := downloadSong sample_host yt_short_ptr idle in
     snd (result_of r) = Unbound
     /\ TaskFinish (next_task idle) (Err "Invalid YouTube ID") ∈ effects (log_of r)
     /\ Forall (fun e => is_web_request e = false) (effects (log_of r))
     /\ forall events st',
         youtubeEvents sample_host (next_task idle) yt_short (snd (result_of r)) events st'
         = (Unbound, st', []).
Proof.
  split; [reflexivity|]. split; [cbn; lia|].
  apply (youtube_invalid_id_no_request sample_host yt_short_ptr yt_short idle);
    [reflexivity | cbn; lia].
Defined.

Example youtube_valid_id_resolves :
  effects (log_of (downloadSong sample_host yt_ptr idle))
  = [WebPost 1 "https://api.cobalt.tools/api/json" (cobalt_request yt_of_index);
     Post (SongDownloadProgressEvent 42 "a1" 0)]
  /\ snd (result_of (downloadSong sample_host yt_ptr idle)) = Resolving 1.
Proof. split; vm_compute; reflexivity. Qed.

Ltac qarith :=
  unfold stageA, stageB, Qdiv in *;
  change (/ 1000)%Q with (1 # 1000)%Q in *;
  change (/ 100)%Q with (1 # 100)%Q in *;
  lra.

Lemma reported_app (l1 l2 : Log) : reported (l1 ++ l2) = reported l1 ++ reported l2.
Proof. apply omap_app. Qed.

Lemma youtubeEvents_app (host : Host) (task : TaskId) (yt : YTSong) (phase : YTPhase)
    (l1 l2 : list (bool * WebEvent)) (st : State) :
  youtubeEvents host task yt phase (l1 ++ l2) st
  = let r1 := youtubeEvents host task yt phase l1 st in
    let r2 := youtubeEvents host task yt (result_of r1) l2 (state_of r1) in
    (result_of r2, state_of r2, log_of r1 ++ log_of r2).
Proof.
  revert phase st. induction l1 as [|[cancelled event] l1 IH]; intros phase st;
    cbn [app].
  - cbn. destruct (youtubeEvents host task yt phase l2 st) as [[ph s] lg]. reflexivity.
  - destruct (youtubeEvent host task yt phase cancelled event st) as [[ph1 s1] lg1] eqn:Hev.
    assert (Hstep : forall evs,
               youtubeEvents host task yt phase ((cancelled, event) :: evs) st
               = (result_of (youtubeEvents host task yt ph1 evs s1),
                  state_of (youtubeEvents host task yt ph1 evs s1),
                  lg1 ++ log_of (youtubeEvents host task yt ph1 evs s1))).
    { intros evs. cbn [youtubeEvents]. unfold bind. rewrite Hev.
      destruct (youtubeEvents host task yt ph1 evs s1) as [[a b] c]. reflexivity. }
    rewrite !Hstep, IH. cbn zeta. cbn [result_of state_of log_of fst snd].
    rewrite app_assoc. reflexivity.
Qed.

Lemma resolving_ticks (host : Host) (task : TaskId) (yt : YTSong) (request : TaskId)
    (raws : list (option Q)) (st : State) :
  result_of (youtubeEvents host task yt (Resolving request) (ticks raws) st)
  = Resolving request
  /\ reported (log_of (youtubeEvents host task yt (Resolving request) (ticks raws) st))
     = map stageA raws.
Proof.
  revert st. induction raws as [|raw raws IH]; intros st; cbn [ticks map youtubeEvents].
  - split; reflexivity.
  - cbn [youtubeEvent cobaltMetadataListener orb isCancelled]. unfold report. run.
    match goal with |- context [youtubeEvents _ _ _ _ _ ?s] => specialize (IH s) end.
    unfold ticks in IH.
    destruct (youtubeEvents _ _ _ _ _ _) as [[ph s] lg]. cbn in IH |- *.
    destruct IH as [-> ->]. split; reflexivity.
Qed.

Lemma fetching_ticks (host : Host) (task : TaskId) (yt : YTSong) (request : TaskId)
    (raws : list (option Q)) (st : State) :
  reported (log_of (youtubeEvents host task yt (Fetching request) (ticks raws) st))
  = map stageB raws.
Proof.
  revert st. induction raws as [|raw raws IH]; intros st; cbn [ticks map youtubeEvents].
  - reflexivity.
  - cbn [youtubeEvent cobaltSongListener orb isCancelled]. unfold report. run.
    match goal with |- context [youtubeEvents _ _ _ _ _ ?s] => specialize (IH s) end.
    unfold ticks in IH.
    destruct (youtubeEvents _ _ _ _ _ _) as [[ph s] lg]. cbn in IH |- *.
    rewrite IH. reflexivity.
Qed.

Lemma resolved_starts_fetch (host : Host) (task : TaskId) (yt : YTSong)
    (request : TaskId) (response : WebResponse) (audio_url : string) (st : State) :
  resolves_to response audio_url ->
  youtubeEvent host task yt (Resolving request) false (WebValue response) st
  = (Fetching (next_task st), set_next_task S st,
     [(WebGet (next_task st) audio_url, set_next_task S st)]).
Proof.
  intros (Hok & jsonObj & Hjson & Hstatus & Haddress).
  cbn [youtubeEvent cobaltMetadataListener orb isCancelled].
  rewrite Hok, Hjson, Hstatus, Haddress. reflexivity.
Qed.

Lemma Sorted_map_monotone (f : option Q -> Q) (raws : list (option Q)) :
  (forall a b, (value_or a 0 <= value_or b 0)%Q -> (f a <= f b)%Q) ->
  Sorted Qle (map (fun raw => value_or raw 0) raws) ->
  Sorted Qle (map f raws).
Proof.
  intros Hmono. induction raws as [|a raws IH]; cbn [map]; intros Hsorted.
  - constructor.
  - apply Sorted_inv in Hsorted as [Hrest Hhead]. constructor.
    + apply IH, Hrest.
    + destruct raws as [|b raws]; cbn [map] in *; constructor.
      apply Hmono. apply HdRel_inv in Hhead. exact Hhead.
Qed.

Lemma Sorted_app_between (bound : Q) (l1 l2 : list Q) :
  Sorted Qle l1 -> Sorted Qle l2 ->
  Forall (fun x => (x <= bound)%Q) l1 -> Forall (fun y => (bound <= y)%Q) l2 ->
  Sorted Qle (l1 ++ l2).
Proof.
  intros H1 H2 Hlow Hhigh. induction l1 as [|x l1 IH]; cbn [app].
  - exact H2.
  - apply Sorted_inv in H1 as [Hrest Hhead].
    apply Forall_cons in Hlow as [Hx Hlow]. constructor.
    + apply IH; assumption.
    + destruct l1 as [|x' l1]; cbn [app].
      * destruct l2 as [|y l2]; constructor.
        apply Forall_cons in Hhigh as [Hy _]. eapply Qle_trans; eassumption.
      * constructor. apply HdRel_inv in Hhead. exact Hhead.
Qed.

Example fetch_progress_goes_down :
  reported (log_of (youtubeEvents sample_host 0 yt_of_index (Fetching 2)
                      (ticks [Some 50%Q; None]) idle))
  = [stageB (Some 50%Q); stageB None].
Proof. reflexivity. Qed.

(** C7, counterexample: when the audio request reports 50 percent and then
    no progress (read as 0), the second value published is below the
    first. *)
Lemma youtube_progress_not_monotone :
  ~ Sorted Qle
      (reported (log_of (youtubeEvents sample_host 0 yt_of_index (Fetching 2)
                           (ticks [Some 50%Q; None]) idle))).
Proof.
  rewrite fetch_progress_goes_down. intros Hsorted.
  apply Sorted_inv in Hsorted as [_ Hhead]. apply HdRel_inv in Hhead.
  revert Hhead. vm_compute. intros Hle. apply Hle. reflexivity.
Qed.

(** C7, as amended: the resolver stage publishes its raw progress divided by
    1000 and the audio stage its raw progress divided by 100, times 0.9, plus
    0.1.  When the raw progress of each request is a percentage that does not
    go down, the first values lie in [0, 0.1], the second in [0.1, 1], and
    the values published for the task, from the initial 0 on, never go
    down. *)
Theorem youtube_progress_monotone (host : Host) (task : TaskId) (yt : YTSong)
    (request : TaskId) (rawA rawB : list (option Q)) (response : WebResponse)
    (audio_url : string) (st : State) :
  resolves_to response audio_url ->
  percentages rawA ->
  percentages rawB ->
  let published :=
    reported (log_of (youtubeEvents host task yt (Resolving request)
                        (ticks rawA ++ [(false, WebValue response)] ++ ticks rawB) st)) in
  published = map stageA rawA ++ map stageB rawB
  /\ Forall (fun p => (0 <= p <= 0.1)%Q) (map stageA rawA)
  /\ Forall (fun p => (0.1 <= p <= 1)%Q) (map stageB rawB)
  /\ Sorted Qle (0%Q :: published).
Proof.
  intros Hresolved [HrangeA HsortedA] [HrangeB HsortedB] published.
  assert (Hpublished : published = map stageA rawA ++ map stageB rawB).
  { subst published. rewrite youtubeEvents_app. cbn zeta. cbn [log_of snd].
    destruct (resolving_ticks host task yt request rawA st) as [Hphase HlogA].
    rewrite reported_app, HlogA, Hphase. f_equal.
    cbn [app youtubeEvents]. unfold bind at 1.
    rewrite (resolved_starts_fetch host task yt request response audio_url _ Hresolved).
    match goal with |- context [youtubeEvents _ _ _ (Fetching ?rq) _ ?s] =>
      pose proof (fetching_ticks host task yt rq rawB s) as HlogB end.
    destruct (youtubeEvents _ _ _ (Fetching _) _ _) as [[ph s] lg].
    cbn in HlogB |- *. exact HlogB. }
  assert (HboundA : Forall (fun p => (0 <= p <= 0.1)%Q) (map stageA rawA)).
  { apply Forall_map. eapply Forall_impl; [exact HrangeA|]. cbn. intros raw Hraw. qarith. }
  assert (HboundB : Forall (fun p => (0.1 <= p <= 1)%Q) (map stageB rawB)).
  { apply Forall_map. eapply Forall_impl; [exact HrangeB|]. cbn. intros raw Hraw. qarith. }
  split; [exact Hpublished|]. split; [exact HboundA|]. split; [exact HboundB|].
  rewrite Hpublished.
  apply (Sorted_app_between 0 [0%Q] (map stageA rawA ++ map stageB rawB)).
  - repeat constructor.
  - apply (Sorted_app_between 0.1).
    + apply Sorted_map_monotone; [|exact HsortedA]. intros a b Hab. qarith.
    + apply Sorted_map_monotone; [|exact HsortedB]. intros a b Hab. qarith.
    + eapply Forall_impl; [exact HboundA|]. cbn. intros p Hp. lra.
    + eapply Forall_impl; [exact HboundB|]. cbn. intros p Hp. lra.
  - repeat constructor. lra.
  - apply Forall_app. split.
    + eapply Forall_impl; [exact HboundA|]. cbn. intros p Hp. lra.
    + eapply Forall_impl; [exact HboundB|]. cbn. intros p Hp. lra.
Qed.

Lemma rising_percentages : percentages rising.
Proof.
  split.
  - repeat constructor; cbn; lra.
  - repeat constructor; cbn; lra.
Qed.

Lemma youtube_progress_monotone_witness :
  resolves_to stream_response "https://cdn.example.org/a1"
  /\ percentages rising
  /\ let published :=
       reported (log_of (youtubeEvents sample_host 0 yt_of_index (Resolving 1)
                           (ticks rising ++ [(false, WebValue stream_response)]
                            ++ ticks rising) idle)) in
     published = map stageA rising ++ map stageB rising
     /\ Forall (fun p => (0 <= p <= 0.1)%Q) (map stageA rising)
     /\ Forall (fun p => (0.1 <= p <= 1)%Q) (map stageB rising)
     /\ Sorted Qle (0%Q :: published).
Proof.
  assert (Hresolved : resolves_to stream_response "https://cdn.example.org/a1").
  { split; [reflexivity|]. eexists. repeat split; reflexivity. }
  split; [exact Hresolved|]. split; [exact rising_percentages|].
  exact (youtube_progress_monotone sample_host 0 yt_of_index 1 rising rising
           stream_response "https://cdn.example.org/a1" idle
           Hresolved rising_percentages rising_percentages).
Defined.

End DownloadFacts.

(** ** The catalog cache *)

Module CacheFacts.
Import DownloadFacts Samples.

Lemma fetchIndex_frame (host : Host) (index : IndexSource) (st : State) :
  let st' := state_of (fetchIndex host index st) in
  m_downloadSongListeners st' = m_downloadSongListeners st
  /\ m_indexNongs st' = m_indexNongs st
  /\ m_downloadProgress st' = m_downloadProgress st
  /\ next_task st <= next_task st'
  /\ forall n,
      n <= next_task st ->
      (forall address l, m_indexListeners st !! address = Some l -> n <= fl_task l) ->
      forall address l, m_indexListeners st' !! address = Some l -> n <= fl_task l.
Proof.
  unfold fetchIndex.
  destruct (negb (m_enabled index) || (String.length (m_url index) <? 3)%nat); run; cbn.
  - repeat split; auto.
  - repeat split; auto. intros n Hn Hold address l. unfold emplace.
    destruct (m_indexListeners st !! m_url index) eqn:Htaken; [apply Hold|].
    rewrite lookup_insert. case_decide.
    + intros [= <-]. exact Hn.
    + apply Hold.
Qed.

Lemma fetch_all_frame (host : Host) (indexes : list IndexSource) (st : State) :
  let st' := state_of (for_each indexes (fetchIndex host) st) in
  m_downloadSongListeners st' = m_downloadSongListeners st
  /\ m_indexNongs st' = m_indexNongs st
  /\ m_downloadProgress st' = m_downloadProgress st
  /\ next_task st <= next_task st'
  /\ forall n,
      n <= next_task st ->
      (forall address l, m_indexListeners st !! address = Some l -> n <= fl_task l) ->
      forall address l, m_indexListeners st' !! address = Some l -> n <= fl_task l.
Proof.
  revert st. induction indexes as [|index indexes IH]; intros st; cbn [for_each].
  - cbn. repeat split; auto.
  - pose proof (fetchIndex_frame host index st) as Hone. cbn zeta in Hone.
    unfold bind. destruct (fetchIndex host index st) as [[[] s1] lg1].
    cbn [state_of fst snd] in Hone. specialize (IH s1). cbn zeta in IH.
    destruct (for_each indexes (fetchIndex host) s1) as [[[] s2] lg2].
    cbn [state_of fst snd] in IH |- *.
    destruct Hone as (H1 & H2 & H3 & H4 & H5), IH as (I1 & I2 & I3 & I4 & I5).
    repeat split; try congruence; try lia.
    intros n Hn Hold. apply I5; [lia|]. apply H5; assumption.
Qed.

(** C10: every call to [fetchIndexes] empties the map of download listeners,
    as it empties the index table and replaces the fetch listeners by those
    of the requests it starts.  The progress map is left as it was, but
    [getSongDownloadProgress] answers with no progress for every unique id,
    because it looks the id up among the listeners first. *)
Theorem fetchIndexes_drops_download_listeners (host : Host) (st : State)
    (uniqueID : string) :
  let st' := state_of (fetchIndexes host st) in
  m_downloadSongListeners st' = ∅
  /\ m_indexNongs st' = ∅
  /\ (forall address l, m_indexListeners st' !! address = Some l ->
        next_task st <= fl_task l)
  /\ m_downloadProgress st' = m_downloadProgress st
  /\ getSongDownloadProgress st' uniqueID = Returns None.
Proof.
  unfold fetchIndexes. run. cbn.
  match goal with |- context [for_each _ _ ?s] =>
    pose proof (fetch_all_frame host (setting_indexes host) s) as Hframe;
    destruct (for_each (setting_indexes host) (fetchIndex host) s) as [[[] s1] lg1]
  end.
  cbn in Hframe |- *. destruct Hframe as (H1 & H2 & H3 & H4 & H5).
  split; [exact H1|]. split; [exact H2|]. split; [|split; [exact H3|]].
  - apply H5; [lia|]. intros address l Hl. rewrite lookup_empty in Hl. discriminate Hl.
  - unfold getSongDownloadProgress. rewrite H1, lookup_empty. reflexivity.
Qed.

Lemma add_index_song_files (host : Host) (entry : Z * Song) (st : State) :
  files (state_of (add_index_song host entry st)) = files st.
Proof.
  destruct entry as [gdSongID song]. unfold add_index_song. run.
  destruct (Nongs_add host song _); reflexivity.
Qed.

Lemma for_each_files {A} (body : A -> M unit) (l : list A) (st : State) :
  (forall x s, files (state_of (body x s)) = files s) ->
  files (state_of (for_each l body st)) = files st.
Proof.
  intros Hbody. revert st. induction l as [|x l IH]; intros st; cbn [for_each].
  - reflexivity.
  - unfold bind. specialize (Hbody x st).
    destruct (body x st) as [[[] s1] lg1]. specialize (IH s1).
    destruct (for_each l body s1) as [[[] s2] lg2].
    cbn [state_of fst snd] in *. congruence.
Qed.

(** Loading a catalog file writes no file. *)
Lemma loadContents_files (host : Host) (p : string) (contents : option string)
    (st : State) :
  files (state_of (loadContents host p contents st)) = files st.
Proof.
  unfold loadContents. destruct contents as [text|]; [|reflexivity].
  destruct (negb (can_open host p)); [reflexivity|].
  destruct (parse host text) as [e|jsonObj]; [reflexivity|].
  destruct (IndexMetadata_from_json host jsonObj) as [index|e]; [|reflexivity].
  unfold cacheIndexName. run.
  match goal with |- context [for_each ?l ?b ?s] =>
    pose proof (for_each_files b l s (add_index_song_files host)) as Hfiles;
    destruct (for_each l b s) as [[[] s1] lg1]
  end.
  cbn in Hfiles |- *. exact Hfiles.
Qed.

Lemma loadAndReport_files (host : Host) (p : string) (st : State) :
  files (state_of (loadAndReport host p st)) = files st.
Proof.
  unfold loadAndReport, loadIndex. run.
  pose proof (loadContents_files host p (files st !! p) st) as Hfiles.
  destruct (loadContents host p (files st !! p) st) as [[loaded s1] lg1].
  cbn [state_of fst snd] in Hfiles.
  destruct (negb (error loaded =? "")%string); cbn; exact Hfiles.
Qed.

Lemma loadIndex_reads (host : Host) (p : string) (st : State) :
  loadIndex host p st = loadContents host p (files st !! p) st.
Proof.
  unfold loadIndex, bind, get.
  destruct (loadContents host p (files st !! p) st) as [[a b] c]. reflexivity.
Qed.

(** [loadAndReport] is [loadIndex], then the report of its error. *)
Lemma loadAndReport_run (host : Host) (filepath : string) (st : State) :
  exists loaded loadlog,
    loadIndex host filepath st
    = (loaded, state_of (loadAndReport host filepath st), loadlog)
    /\ log_of (loadAndReport host filepath st)
       = loadlog ++ load_report loaded (state_of (loadAndReport host filepath st)).
Proof.
  unfold loadAndReport, bind, load_report.
  destruct (loadIndex host filepath st) as [[loaded s1] loadlog].
  exists loaded, loadlog. unfold when.
  destruct (negb (String.eqb (error loaded) "")); split; reflexivity.
Qed.


Example fetch_refused_keeps_cache :
  let l := mkFetchListener 0 (mkIndexSource "https://example.org/index.json" true)
             "indexes-cache/1.json" in
  let cached := set_files <["indexes-cache/1.json" := "{}"]> idle in
  let r := fetchCompletes sample_host l (mkWebResponse false (Err "") (Err "") "") cached in
  posted (log_of r) = [SongErrorEvent false "Failed to fetch index: Web request failed"]
  /\ files (state_of r) = files cached
  /\ cached_index_names (state_of r) = {[ "song-file-hub" := "Song File Hub" ]}.
Proof. repeat split; vm_compute; reflexivity. Qed.

Example fetch_accepted_overwrites_cache :
  let l := mkFetchListener 0 (mkIndexSource "https://example.org/index.json" true)
             "indexes-cache/1.json" in
  let r := fetchCompletes sample_host l (mkWebResponse true (Ok "{}") (Err "") "") idle in
  posted (log_of r) = [SongErrorEvent false "Failed to load index: parse error"]
  /\ files (state_of r) = {[ "indexes-cache/1.json" := "{url}" ]}.
Proof. repeat split; vm_compute; reflexivity. Qed.

(** A download in flight when the catalogs are refreshed. *)
Example refresh_during_download :
  let downloading := state_of (downloadSong sample_host hosted_ptr idle) in
  let refreshed := state_of (fetchIndexes sample_host downloading) in
  getSongDownloadProgress downloading "h1" = Returns (Some 0%Q)
  /\ m_downloadProgress refreshed !! "h1" = Some 0%Q
  /\ getSongDownloadProgress refreshed "h1" = Returns None
  /\ log_of (deliver sample_host "h1" 0 (TaskValue (Ok "nongs/fresh.mp3")) refreshed) = [].
Proof. repeat split; vm_compute; reflexivity. Qed.

End CacheFacts.

(** ** More on the merge *)

Module MergeExtras.
Import SortFacts MergeFacts Samples.

(** X2: every variant of the local collection is returned: the default song
    and each local, YouTube and hosted song, whatever the index table holds
    among the tables on which the sort is defined (the default song is the
    only variant with its unique id, or at most 16 variants are pushed). *)
Theorem getNongs_returns_local_store (file_exists : string -> bool)
    (nongManager m_indexNongs : gmap Z Nongs) (gdSongID : Z) (localNongs : Nongs) :
  nongManager !! gdSongID = Some localNongs ->
  sort_defined localNongs (m_indexNongs !! gdSongID) ->
  exists nongs,
    getNongs file_exists nongManager m_indexNongs gdSongID = inr nongs
    /\ default_ptr localNongs ∈ nongs
    /\ (forall i s, locals localNongs !! i = Some s ->
          mkSongPtr (InLocals i) (ALocal s) ∈ nongs)
    /\ (forall i s, youtube localNongs !! i = Some s ->
          mkSongPtr (InYoutube i) (AYT s) ∈ nongs)
    /\ (forall i s, hosted localNongs !! i = Some s ->
          mkSongPtr (InHosted i) (AHosted s) ∈ nongs).
Proof.
  intros Hlocal _. unfold getNongs. rewrite Hlocal. eexists. split; [reflexivity|].
  repeat split; intros; apply elem_of_sorted_nongs, elem_of_merged.
  - left. reflexivity.
  - right. left. eauto.
  - right. right. left. eauto.
  - right. right. right. left. eauto.
Qed.

Lemma getNongs_returns_local_store_witness :
  store with_yt_by_hand !! 42%Z = Some with_yt_by_hand
  /\ sort_defined with_yt_by_hand (store index_with_yt !! 42%Z)
  /\ exists nongs,
      getNongs nothing_on_disk (store with_yt_by_hand) (store index_with_yt) 42 = inr nongs
      /\ default_ptr with_yt_by_hand ∈ nongs
      /\ (forall i s, locals with_yt_by_hand !! i = Some s ->
            mkSongPtr (InLocals i) (ALocal s) ∈ nongs)
      /\ (forall i s, youtube with_yt_by_hand !! i = Some s ->
            mkSongPtr (InYoutube i) (AYT s) ∈ nongs)
      /\ (forall i s, hosted with_yt_by_hand !! i = Some s ->
            mkSongPtr (InHosted i) (AHosted s) ∈ nongs).
Proof.
  assert (Hshort : sort_defined with_yt_by_hand (store index_with_yt !! 42%Z)).
  { right. vm_compute. lia. }
  split; [reflexivity|]. split; [exact Hshort|].
  apply (getNongs_returns_local_store nothing_on_disk (store with_yt_by_hand)
           (store index_with_yt) 42 with_yt_by_hand); [reflexivity | exact Hshort].
Defined.

Lemma added_taken_from_index localNongs idx id :
  id ∈ addedIndexSongs localNongs (Some idx) ->
  taken_from_index localNongs idx id.
Proof.
  unfold addedIndexSongs. rewrite elem_of_app.
  intros [H|H]; apply list_elem_of_In, in_flat_map in H as (song & Hsong & Hid);
    apply list_elem_of_In in Hsong.
  - left. unfold addedYT in Hid. destruct (yt_indexID song) eqn:Hindex; [|destruct Hid].
    apply in_map_iff in Hid as (indexSong & <- & Hin).
    apply list_elem_of_In, list_elem_of_filter in Hin as [Heq Hin].
    exists song, indexSong. rewrite Hindex. repeat split; eauto.
  - right. unfold addedHosted in Hid. destruct (h_indexID song) eqn:Hindex; [|destruct Hid].
    apply in_map_iff in Hid as (indexSong & <- & Hin).
    apply list_elem_of_In, list_elem_of_filter in Hin as [Heq Hin].
    exists song, indexSong. rewrite Hindex. repeat split; eauto.
Qed.

(** X3: the exact rule of the merge for the songs of the index.  A song of
    the index collection is returned if and only if no local YouTube or
    hosted song with an [indexID] shares its unique id with an index song of
    that local song's kind.  This is said of the vectors on which the sort
    is defined: the default song is the only variant with its unique id, or
    at most 16 variants are pushed. *)
Theorem getNongs_index_song_returned (file_exists : string -> bool)
    (nongManager m_indexNongs : gmap Z Nongs) (gdSongID : Z)
    (localNongs idx : Nongs) :
  nongManager !! gdSongID = Some localNongs ->
  m_indexNongs !! gdSongID = Some idx ->
  sort_defined localNongs (Some idx) ->
  exists nongs,
    getNongs file_exists nongManager m_indexNongs gdSongID = inr nongs
    /\ forall p, from_index (addr p) = true ->
         (p ∈ nongs <->
          points_into_index idx p /\ ~ taken_from_index localNongs idx (uid p)).
Proof.
  intros Hlocal Hindex _. unfold getNongs. rewrite Hlocal, Hindex.
  eexists. split; [reflexivity|]. intros p Hp.
  rewrite elem_of_sorted_nongs, elem_of_merged. split.
  - intros [->|[(i & s & _ & ->)|[(i & s & _ & ->)|[(i & s & _ & ->)|H]]]];
      try discriminate Hp.
    destruct H as (idx' & [= <-] & Hnot & Hslot). split; [exact Hslot|].
    intros Htaken. apply Hnot, taken_from_index_added, Htaken.
  - intros [Hslot Hnot]. right. right. right. right.
    exists idx. split; [reflexivity|]. split; [|exact Hslot].
    intros Hadded. apply Hnot, added_taken_from_index, Hadded.
Qed.

Lemma getNongs_index_song_returned_witness :
  store with_yt_downloaded !! 42%Z = Some with_yt_downloaded
  /\ store index_with_yt !! 42%Z = Some index_with_yt
  /\ sort_defined with_yt_downloaded (Some index_with_yt)
  /\ exists nongs,
      getNongs nothing_on_disk (store with_yt_downloaded) (store index_with_yt) 42
      = inr nongs
      /\ forall p, from_index (addr p) = true ->
           (p ∈ nongs <->
            points_into_index index_with_yt p
            /\ ~ taken_from_index with_yt_downloaded index_with_yt (uid p)).
Proof.
  assert (Hshort : sort_defined with_yt_downloaded (Some index_with_yt)).
  { right. vm_compute. lia. }
  split; [reflexivity|]. split; [reflexivity|]. split; [exact Hshort|].
  apply (getNongs_index_song_returned nothing_on_disk (store with_yt_downloaded)
           (store index_with_yt) 42 with_yt_downloaded index_with_yt);
    [reflexivity | reflexivity | exact Hshort].
Defined.

(** X4: a song id without a collection in the index table gets the variants
    of the local store and nothing else. *)
Theorem getNongs_without_index (file_exists : string -> bool)
    (nongManager m_indexNongs : gmap Z Nongs) (gdSongID : Z) (localNongs : Nongs) :
  nongManager !! gdSongID = Some localNongs ->
  m_indexNongs !! gdSongID = None ->
  exists nongs,
    getNongs file_exists nongManager m_indexNongs gdSongID = inr nongs
    /\ Forall (fun p => from_index (addr p) = false) nongs
    /\ length nongs
       = 1 + length (locals localNongs) + length (youtube localNongs)
         + length (hosted localNongs).
Proof.
  intros Hlocal Hindex. unfold getNongs. rewrite Hlocal, Hindex.
  eexists. split; [reflexivity|]. split.
  - rewrite Forall_forall. intros p Hp.
    apply elem_of_sorted_nongs, elem_of_merged in Hp.
    destruct Hp as [->|[(i & s & _ & ->)|[(i & s & _ & ->)
                   |[(i & s & _ & ->)|(idx' & Hno & _)]]]];
      try reflexivity. discriminate Hno.
  - unfold sorted_nongs. rewrite (Permutation_length (std_sort_perm _ _)).
    unfold merged. rewrite !length_app, !length_imap. cbn. lia.
Qed.

Lemma getNongs_without_index_witness :
  store with_yt_by_hand !! 42%Z = Some with_yt_by_hand
  /\ (∅ : gmap Z Nongs) !! 42%Z = None
  /\ exists nongs,
      getNongs nothing_on_disk (store with_yt_by_hand) ∅ 42 = inr nongs
      /\ Forall (fun p => from_index (addr p) = false) nongs
      /\ length nongs
         = 1 + length (locals with_yt_by_hand) + length (youtube with_yt_by_hand)
           + length (hosted with_yt_by_hand).
Proof.
  split; [reflexivity|]. split; [reflexivity|].
  apply (getNongs_without_index nothing_on_disk (store with_yt_by_hand) ∅ 42
           with_yt_by_hand); reflexivity.
Defined.

(** X5: the order of what is returned.  When no other variant carries the
    unique id of the default song, the default song comes first and the
    others follow by group (without an index before with one, on disk before
    not on disk, local before hosted before YouTube) and, within a group, by
    name: none of them is before one that precedes it. *)
Theorem getNongs_sorted (file_exists : string -> bool)
    (nongManager m_indexNongs : gmap Z Nongs) (gdSongID : Z) (localNongs : Nongs) :
  nongManager !! gdSongID = Some localNongs ->
  default_id_reserved localNongs (m_indexNongs !! gdSongID) ->
  exists rest,
    getNongs file_exists nongManager m_indexNongs gdSongID
    = inr (default_ptr localNongs :: rest)
    /\ StronglySorted
         (fun a b => by_group_then_name file_exists (pointee b) (pointee a) = false)
         rest.
Proof.
  intros Hlocal Hreserved. unfold getNongs. rewrite Hlocal.
  set (indexNongs := m_indexNongs !! gdSongID) in *.
  pose proof (sorted_nongs_sorted file_exists localNongs indexNongs Hreserved) as Hsorted.
  destruct (std_sort_keeps_first (nong_before file_exists localNongs)
              (default_ptr localNongs) (others localNongs indexNongs))
    as [rest Hfirst].
  { intros x Hx. unfold default_id_reserved in Hreserved.
    rewrite Forall_forall in Hreserved. apply nong_before_not_default, Hreserved, Hx. }
  unfold sorted_nongs in Hsorted |- *. rewrite merged_cons, Hfirst in Hsorted |- *.
  exists rest. split; [reflexivity|].
  assert (Hrest : Forall (fun p => uid p <> uniqueID (l_metadata (defaultSong localNongs)))
                    rest).
  { assert (Hperm : Permutation rest (others localNongs indexNongs)).
    { apply (Permutation_cons_inv (a := default_ptr localNongs)).
      rewrite <- Hfirst. apply std_sort_perm. }
    unfold default_id_reserved in Hreserved. rewrite Hperm. exact Hreserved. }
  apply StronglySorted_inv in Hsorted as [Hsorted _]. clear Hfirst.
  induction Hsorted as [|a l Hl IH Ha]; [constructor|].
  apply Forall_cons in Hrest as [Hna Hrest]. constructor; [apply IH, Hrest|].
  rewrite Forall_forall in Ha, Hrest |- *. intros b Hb.
  rewrite <- (nong_before_lexicographic file_exists localNongs b a) by auto.
  apply Ha, Hb.
Qed.

Lemma getNongs_sorted_witness :
  store with_yt_by_hand !! 42%Z = Some with_yt_by_hand
  /\ default_id_reserved with_yt_by_hand (store index_with_yt !! 42%Z)
  /\ exists rest,
      getNongs nothing_on_disk (store with_yt_by_hand) (store index_with_yt) 42
      = inr (default_ptr with_yt_by_hand :: rest)
      /\ StronglySorted
           (fun a b => by_group_then_name nothing_on_disk (pointee b) (pointee a) = false)
           rest.
Proof.
  assert (Hreserved : default_id_reserved with_yt_by_hand (store index_with_yt !! 42%Z)).
  { vm_compute. repeat constructor; discriminate. }
  split; [reflexivity|]. split; [exact Hreserved|].
  apply (getNongs_sorted nothing_on_disk (store with_yt_by_hand) (store index_with_yt)
           42 with_yt_by_hand); [reflexivity | exact Hreserved].
Defined.

(** X6: the second test on [indexID] in the comparator (after the test on
    the kind) never decides: the comparator is the same without it. *)
Theorem sort_lambda_second_index_test_idle (file_exists : string -> bool)
    (defaultUniqueID : string) (a b : Song) :
  sort_lambda file_exists defaultUniqueID a b
  = or_else (rule_default defaultUniqueID a b)
      (or_else (rule_no_index a b)
         (or_else (rule_path file_exists a b)
            (or_else (rule_type a b) (rule_name a b)))).
Proof.
  unfold sort_lambda. destruct (rule_default defaultUniqueID a b); [reflexivity|].
  cbn [or_else]. destruct (rule_no_index a b) eqn:Hrule; [reflexivity|].
  rewrite (rule_index_again_idle a b Hrule). reflexivity.
Qed.

End MergeExtras.

(** ** More on the download pipeline *)

Module DownloadExtras.
Import DownloadFacts CacheFacts Samples.

(** What a call of [downloadSong] on a YouTube or hosted song leaves. *)
Lemma downloadSong_started (host : Host) (nong : SongPtr) (st : State) :
  type (pointee nong) <> LOCAL ->
  let r := downloadSong host nong st in
  fst (result_of r) = Ok tt
  /\ m_downloadProgress (state_of r) = <[uid nong := 0%Q]> (m_downloadProgress st)
  /\ m_downloadSongListeners (state_of r)
     = emplace (uid nong)
         (mkDownloadListener (next_task st) (gdID (metadata (pointee nong)))
            (uid nong) (addr nong))
         (m_downloadSongListeners st)
  /\ files (state_of r) = files st
  /\ nongManager (state_of r) = nongManager st
  /\ m_indexNongs (state_of r) = m_indexNongs st
  /\ last (effects (log_of r))
     = Some (Post (SongDownloadProgressEvent (gdID (metadata (pointee nong)))
                     (uid nong) 0)).
Proof.
  intros Htype r. subst r. unfold downloadSong.
  destruct (pointee nong) as [s|yt|h] eqn:Hsong; [destruct Htype; reflexivity| |].
  - unfold youtubeBody.
    destruct (negb (String.length (youtubeID yt) =? 11)%nat);
      destruct (m_downloadSongListeners st !! uid nong) eqn:Hold;
      run; rewrite Hold; run; cbn; repeat split.
  - destruct (m_downloadSongListeners st !! uid nong) eqn:Hold;
      run; rewrite Hold; run; cbn; repeat split.
Qed.

Lemma downloadSong_local (host : Host) (nong : SongPtr) (st : State) :
  type (pointee nong) = LOCAL ->
  downloadSong host nong st = (Err "Can't download local song", Unbound, st, []).
Proof.
  intros Htype. unfold downloadSong.
  destruct (pointee nong); try discriminate Htype. reflexivity.
Qed.

(** X7: a download that starts sets the progress of its unique id back to 0:
    whether or not a task was running for that id, [getSongDownloadProgress]
    answers 0 for it afterwards, the answer for every other id is as before,
    and the event published last is the zero progress. *)
Theorem downloadSong_resets_progress (host : Host) (nong : SongPtr) (st : State) :
  type (pointee nong) <> LOCAL ->
  let r := downloadSong host nong st in
  fst (result_of r) = Ok tt
  /\ getSongDownloadProgress (state_of r) (uid nong) = Returns (Some 0%Q)
  /\ (forall id, id <> uid nong ->
        getSongDownloadProgress (state_of r) id = getSongDownloadProgress st id)
  /\ last (posted (log_of r))
     = Some (SongDownloadProgressEvent (gdID (metadata (pointee nong))) (uid nong) 0).
Proof.
  intros Htype r.
  destruct (downloadSong_started host nong st Htype)
    as (Hok & Hprogress & Hlisteners & _ & _ & _ & Hlast).
  fold r in Hok, Hprogress, Hlisteners, Hlast.
  split; [exact Hok|]. unfold getSongDownloadProgress.
  rewrite Hprogress, Hlisteners. unfold emplace. split; [|split].
  - rewrite lookup_insert_eq.
    destruct (m_downloadSongListeners st !! uid nong) eqn:Hold.
    + rewrite Hold. reflexivity.
    + rewrite lookup_insert_eq. reflexivity.
  - intros id Hid. rewrite lookup_insert_ne by congruence.
    destruct (m_downloadSongListeners st !! uid nong) eqn:Hold; [reflexivity|].
    rewrite lookup_insert_ne by congruence. reflexivity.
  - unfold posted. destruct (effects (log_of r)) as [|e es] using rev_ind;
      [discriminate Hlast|].
    rewrite last_snoc in Hlast. injection Hlast as ->.
    rewrite omap_app. cbn. apply last_snoc.
Qed.

Lemma downloadSong_resets_progress_witness :
  type (pointee hosted_ptr) <> LOCAL
  /\ let r := downloadSong sample_host hosted_ptr idle in
     fst (result_of r) = Ok tt
     /\ getSongDownloadProgress (state_of r) (uid hosted_ptr) = Returns (Some 0%Q)
     /\ (forall id, id <> uid hosted_ptr ->
           getSongDownloadProgress (state_of r) id = getSongDownloadProgress idle id)
     /\ last (posted (log_of r))
        = Some (SongDownloadProgressEvent (gdID (metadata (pointee hosted_ptr)))
                  (uid hosted_ptr) 0).
Proof.
  split; [discriminate|].
  apply (downloadSong_resets_progress sample_host hosted_ptr idle). discriminate.
Defined.

(** X8: a download that cannot start leaves no trace.  When
    [downloadSong(gdSongID, uniqueID)] answers with an error (the song id is
    unknown to the local store, no variant has the unique id, or the variant
    found is a local song), the manager is as before, nothing is published
    and no request is made. *)
Theorem downloadSongByID_failure_silent (host : Host) (gdSongID : Z) (uniqueID : string)
    (st : State) :
  let r := downloadSongByID host gdSongID uniqueID st in
  isErr (fst (result_of r)) = true ->
  state_of r = st /\ log_of r = [].
Proof.
  intros r. subst r. unfold downloadSongByID. run.
  destruct (getNongs _ _ _ gdSongID) as [e|nongs]; [split; reflexivity|].
  destruct (List.find _ nongs) as [nong|]; [|split; reflexivity].
  assert (Hcases : type (pointee nong) = LOCAL \/ type (pointee nong) <> LOCAL)
    by (destruct (type (pointee nong)); (left; reflexivity) || (right; discriminate)).
  destruct Hcases as [Hlocal|Hremote].
  - rewrite (downloadSong_local host nong st Hlocal). split; reflexivity.
  - destruct (downloadSong_started host nong st Hremote) as (Hok & _).
    cbn zeta in Hok. destruct (downloadSong host nong st) as [[[res ph] s1] lg].
    cbn in Hok. cbn. rewrite Hok. discriminate.
Qed.

Lemma downloadSongByID_failure_silent_witness :
  let r := downloadSongByID sample_host 42 "no-such-id" idle in
  isErr (fst (result_of r)) = true
  /\ state_of r = idle /\ log_of r = [].
Proof.
  split; [reflexivity|].
  apply (downloadSongByID_failure_silent sample_host 42 "no-such-id" idle).
  reflexivity.
Defined.

End DownloadExtras.

(** ** The progress table and the listener table *)

Module ProgressExtras.
Import DownloadFacts Samples Scenarios.

Section Keeps.
Context (P : State -> Prop).

Lemma keeps_ret {A} (a : A) : keeps P (ret a).
Proof. intros st H. split; [exact H | constructor]. Qed.

Lemma keeps_bind {A B} (m : M A) (k : A -> M B) :
  keeps P m -> (forall a, keeps P (k a)) -> keeps P (bind m k).
Proof.
  intros Hm Hk st H. unfold bind. specialize (Hm st H).
  destruct (m st) as [[a s1] l1]. destruct Hm as [Hs1 Hl1]. cbn in Hs1, Hl1.
  specialize (Hk a s1 Hs1). destruct (k a s1) as [[b s2] l2].
  destruct Hk as [Hs2 Hl2]. cbn in Hs2, Hl2.
  split; cbn; [exact Hs2 | apply Forall_app; split; assumption].
Qed.

Lemma keeps_get : keeps P get.
Proof. intros st H. split; [exact H | constructor]. Qed.

Lemma keeps_emit (e : Effect) : keeps P (emit e).
Proof. intros st H. split; [exact H | repeat constructor; exact H]. Qed.

Lemma keeps_post (e : SongEvent) : keeps P (post e).
Proof. apply keeps_emit. Qed.

Lemma keeps_modify (f : State -> State) :
  (forall st, P st -> P (f st)) -> keeps P (modify f).
Proof. intros Hf st H. split; [apply Hf, H | constructor]. Qed.

(** Two updates in a row, with nothing published in between, count as one. *)
Lemma keeps_modify_twice {A} (f g : State -> State) (k : M A) :
  (forall st, P st -> P (g (f st))) -> keeps P k ->
  keeps P (modify f >> modify g >> k).
Proof.
  intros Hfg Hk st H. unfold bind, modify. specialize (Hk (g (f st)) (Hfg st H)).
  destruct (k (g (f st))) as [[b s2] l2]. exact Hk.
Qed.

Lemma keeps_when (b : bool) (m : M unit) : keeps P m -> keeps P (when b m).
Proof. intros Hm. destruct b; [exact Hm | apply keeps_ret]. Qed.

Lemma keeps_for_each {A} (l : list A) (body : A -> M unit) :
  (forall x, keeps P (body x)) -> keeps P (for_each l body).
Proof.
  intros Hbody. induction l as [|x rest IH]; cbn [for_each].
  - apply keeps_ret.
  - apply keeps_bind; [apply Hbody | intros _; exact IH].
Qed.

End Keeps.

Lemma covers_frame (st st' : State) :
  m_downloadSongListeners st' = m_downloadSongListeners st ->
  m_downloadProgress st' = m_downloadProgress st ->
  progress_covers_listeners st -> progress_covers_listeners st'.
Proof. intros Hl Hp H id. rewrite Hl, Hp. apply H. Qed.

Lemma covers_report (id : string) (p : Q) (st : State) :
  progress_covers_listeners st ->
  progress_covers_listeners (set_downloadProgress <[id := p]> st).
Proof.
  intros H id' Hl. cbn in *. destruct (decide (id = id')) as [->|Hne].
  - rewrite lookup_insert_eq. eauto.
  - rewrite lookup_insert_ne by exact Hne. apply H, Hl.
Qed.

Lemma covers_erase (id : string) (st : State) :
  progress_covers_listeners st ->
  progress_covers_listeners
    (set_downloadSongListeners (delete id) (set_downloadProgress (delete id) st)).
Proof.
  intros H id' Hl. cbn in *. destruct (decide (id = id')) as [->|Hne].
  - rewrite lookup_delete_eq in Hl. destruct Hl as [l Hl]. discriminate Hl.
  - rewrite lookup_delete_ne in Hl by exact Hne.
    rewrite lookup_delete_ne by exact Hne. apply H, Hl.
Qed.

Lemma covers_register (id : string) (l : DownloadListener) (st : State) :
  progress_covers_listeners st ->
  progress_covers_listeners
    (set_downloadProgress <[id := 0%Q]> (set_downloadSongListeners (emplace id l) st)).
Proof.
  intros H id' Hl. cbn in *. destruct (decide (id = id')) as [->|Hne].
  - rewrite lookup_insert_eq. eauto.
  - rewrite lookup_insert_ne by exact Hne. apply H.
    unfold emplace in Hl. destruct (m_downloadSongListeners st !! id); [exact Hl|].
    rewrite lookup_insert_ne in Hl by exact Hne. exact Hl.
Qed.

Lemma covers_clear (st : State) :
  progress_covers_listeners (set_downloadSongListeners (fun _ => ∅) st).
Proof. intros id [l Hl]. cbn in Hl. rewrite lookup_empty in Hl. discriminate Hl. Qed.

Ltac untouched :=
  apply keeps_modify; intros ? ?; eapply covers_frame; [reflexivity | reflexivity | assumption].

Ltac step :=
  first
    [ apply keeps_ret | apply keeps_get | apply keeps_post | apply keeps_emit
    | untouched
    | apply keeps_modify, covers_report
    | apply keeps_when
    | apply keeps_bind; [|intros ?] ].

Lemma setIndexID_covered (gdSongID : Z) (a : SongAddr) (id : string) :
  keeps progress_covers_listeners (setIndexID gdSongID a id).
Proof. destruct a; cbn [setIndexID]; step. Qed.

Lemma downloadSongListener_covered (host : Host) (l : DownloadListener) (event : TaskEvent) :
  keeps progress_covers_listeners (downloadSongListener host l event).
Proof.
  unfold downloadSongListener. destruct event as [p| |[destination|e]].
  - repeat step.
  - apply keeps_modify_twice; [intros st; apply covers_erase | repeat step].
  - apply keeps_modify_twice; [intros st; apply covers_erase |].
    destruct (String.length destination =? 0)%nat; [step|].
    step; [apply setIndexID_covered|]. step; [step|].
    destruct (setActiveSong host _ _); repeat step.
  - apply keeps_modify_twice; [intros st; apply covers_erase | repeat step].
Qed.

Lemma deliver_covered (host : Host) (id : string) (task : TaskId) (event : TaskEvent) :
  keeps progress_covers_listeners (deliver host id task event).
Proof.
  unfold deliver. step; [step|].
  destruct (m_downloadSongListeners _ !! id) as [l|]; [|step].
  destruct (dl_task l =? task)%nat; [apply downloadSongListener_covered | step].
Qed.

Lemma fresh_covered : keeps progress_covers_listeners fresh.
Proof.
  intros st H. split; [|constructor].
  eapply covers_frame; [reflexivity | reflexivity | exact H].
Qed.

Lemma write_file_covered (host : Host) (destination contents : string) :
  keeps progress_covers_listeners (write_file host destination contents).
Proof. unfold write_file. destruct (can_open host destination); step. Qed.

Lemma hostedValue_covered (host : Host) (response : WebResponse) :
  keeps progress_covers_listeners (hostedValue host response).
Proof.
  unfold hostedValue. destruct (ok response); [|step].
  step; [apply write_file_covered | step].
Qed.

Lemma finishErr_covered (task : TaskId) (err : string) :
  keeps progress_covers_listeners (finishErr task err).
Proof. unfold finishErr. repeat step. Qed.

Lemma report_covered (yt : YTSong) (progress : Q) :
  keeps progress_covers_listeners (report yt progress).
Proof. unfold report. repeat step. Qed.

Lemma youtubeEvent_covered (host : Host) (task : TaskId) (yt : YTSong) (phase : YTPhase)
    (hasBeenCancelled : bool) (event : WebEvent) :
  keeps progress_covers_listeners (youtubeEvent host task yt phase hasBeenCancelled event).
Proof.
  destruct phase as [request|request|]; cbn [youtubeEvent]; [| |step].
  - unfold cobaltMetadataListener.
    destruct (hasBeenCancelled || isCancelled event); [apply finishErr_covered|].
    destruct event as [raw|response|]; [| |step].
    + step; [apply report_covered | step].
    + repeat match goal with
             | |- keeps _ (finishErr _ _) => apply finishErr_covered
             | |- keeps _ (match ?x with _ => _ end) => destruct x
             | |- keeps _ (if ?x then _ else _) => destruct x
             end.
      step; [apply fresh_covered | repeat step].
  - unfold cobaltSongListener.
    destruct (hasBeenCancelled || isCancelled event); [apply finishErr_covered|].
    destruct event as [raw|response|]; [| |step].
    + step; [apply report_covered | step].
    + destruct (negb (ok response)); [apply finishErr_covered|].
      step; [apply write_file_covered|]. repeat step.
Qed.

Lemma youtubeBody_covered (task : TaskId) (yt : YTSong) :
  keeps progress_covers_listeners (youtubeBody task yt).
Proof.
  unfold youtubeBody. destruct (negb _); [repeat step|].
  step; [apply fresh_covered | repeat step].
Qed.

Lemma downloadSong_covered (host : Host) (nong : SongPtr) :
  keeps progress_covers_listeners (downloadSong host nong).
Proof.
  unfold downloadSong.
  assert (Hend : forall id l gdSongID (result : Result unit * YTPhase),
    keeps progress_covers_listeners
      (modify (set_downloadSongListeners (emplace id l)) >>
       modify (set_downloadProgress <[id := 0%Q]>) >>
       post (SongDownloadProgressEvent gdSongID id 0) >> ret result)).
  { intros id l gdSongID result. apply keeps_modify_twice.
    - intros st. apply covers_register.
    - repeat step. }
  destruct (pointee nong) as [s|yt|h]; [step| |].
  - step; [step|]. step; [destruct (m_downloadSongListeners _ !! _); step|].
    step; [apply fresh_covered|]. step; [apply youtubeBody_covered | apply Hend].
  - step; [step|]. step; [destruct (m_downloadSongListeners _ !! _); step|].
    step; [apply fresh_covered|]. step; [repeat step | apply Hend].
Qed.

Lemma downloadSongByID_covered (host : Host) (gdSongID : Z) (uniqueID : string) :
  keeps progress_covers_listeners (downloadSongByID host gdSongID uniqueID).
Proof.
  unfold downloadSongByID. step; [step|].
  destruct (getNongs _ _ _ gdSongID) as [e|nongs]; [step|].
  destruct (List.find _ nongs); [apply downloadSong_covered | step].
Qed.

Lemma add_index_song_covered (host : Host) (entry : Z * Song) :
  keeps progress_covers_listeners (add_index_song host entry).
Proof.
  destruct entry as [gdSongID song]. unfold add_index_song. step; [step|].
  destruct (Nongs_add host song _); repeat step.
Qed.

Lemma loadIndex_covered (host : Host) (path : string) :
  keeps progress_covers_listeners (loadIndex host path).
Proof.
  unfold loadIndex. step; [step|]. unfold loadContents.
  destruct (files _ !! path) as [text|]; [|step].
  destruct (negb (can_open host path)); [step|].
  destruct (parse host text) as [e|jsonObj]; [step|].
  destruct (IndexMetadata_from_json host jsonObj) as [index|e]; [|step].
  step; [unfold cacheIndexName; step|].
  step; [apply keeps_for_each, add_index_song_covered|]. repeat step.
Qed.

Lemma fetchListener_covered (host : Host) (l : FetchListener) (event : FetchEvent) :
  keeps progress_covers_listeners (fetchListener host l event).
Proof.
  assert (Hload : keeps progress_covers_listeners (loadAndReport host (fl_filepath l))).
  { unfold loadAndReport. step; [apply loadIndex_covered | repeat step]. }
  unfold fetchListener. destruct event as [p| |[|e]]; [step|..];
    (step; [step|]); (step; [|exact Hload]); step.
Qed.

Lemma fetchCompletes_covered (host : Host) (l : FetchListener) (response : WebResponse) :
  keeps progress_covers_listeners (fetchCompletes host l response).
Proof.
  unfold fetchCompletes. step; [|apply fetchListener_covered].
  unfold fetchValue.
  repeat match goal with
         | |- keeps _ (ret _) => apply keeps_ret
         | |- keeps _ (match ?x with _ => _ end) => destruct x
         | |- keeps _ (if ?x then _ else _) => destruct x
         end.
  repeat step.
Qed.

Lemma fetchIndexes_covered (host : Host) :
  keeps progress_covers_listeners (fetchIndexes host).
Proof.
  unfold fetchIndexes. step; [step|]. step; [step|].
  step; [apply keeps_modify; intros st _; apply covers_clear|].
  step; [|step]. apply keeps_for_each. intros index. unfold fetchIndex.
  destruct (_ || _); [step|]. step; [apply fresh_covered | repeat step].
Qed.

Lemma happen_covered (host : Host) (h : Happening) :
  keeps progress_covers_listeners (happen host h).
Proof.
  destruct h; cbn [happen].
  - step; [apply downloadSong_covered | step].
  - step; [apply downloadSongByID_covered | step].
  - step; [apply fetchIndexes_covered | step].
  - step; [apply loadIndex_covered | step].
  - apply deliver_covered.
  - step; [apply hostedValue_covered | apply deliver_covered].
  - step; [apply youtubeEvent_covered | step].
  - apply fetchCompletes_covered.
  - apply fetchListener_covered.
Qed.

(** X9: [getSongDownloadProgress] never throws.  Whatever is called and
    whatever the host hands to the listeners, in any order, every unique id
    with a download listener has a progress entry: in the state the manager
    ends in and in every state in which it publishes an event or makes a
    request, the lookup [m_downloadProgress.at(uniqueID)] finds its key. *)
Theorem getSongDownloadProgress_never_throws (host : Host) (hs : list Happening)
    (st : State) :
  progress_covers_listeners st ->
  forall seen uniqueID,
    seen ∈ visible (history host hs st) ->
    exists progress, getSongDownloadProgress seen uniqueID = Returns progress.
Proof.
  intros Hst seen uniqueID Hseen.
  assert (Hcovered : progress_covers_listeners seen).
  { destruct (keeps_for_each _ hs (happen host) (happen_covered host) st Hst)
      as [Hend Hlog].
    unfold visible, history in Hseen. apply elem_of_app in Hseen.
    destruct Hseen as [Hseen|Hseen].
    - apply list_elem_of_fmap in Hseen. destruct Hseen as (entry & -> & Hentry).
      rewrite Forall_forall in Hlog. apply Hlog, Hentry.
    - apply list_elem_of_singleton in Hseen. subst seen. exact Hend. }
  unfold getSongDownloadProgress.
  destruct (m_downloadSongListeners seen !! uniqueID) as [l|] eqn:Hl; cbn; [|eauto].
  destruct (Hcovered uniqueID) as [p Hp]; [eauto|]. rewrite Hp. eauto.
Qed.

Lemma getSongDownloadProgress_never_throws_witness :
  progress_covers_listeners idle
  /\ forall seen uniqueID,
       seen ∈ visible (history sample_host interrupted idle) ->
       exists progress, getSongDownloadProgress seen uniqueID = Returns progress.
Proof.
  assert (Hidle : progress_covers_listeners idle).
  { intros id [l Hl]. cbn in Hl. rewrite lookup_empty in Hl. discriminate Hl. }
  split; [exact Hidle|].
  exact (getSongDownloadProgress_never_throws sample_host interrupted idle Hidle).
Defined.

End ProgressExtras.

(** ** A hosted download from the call to the response *)

Module HostedExtras.
Import DownloadFacts Samples Scenarios.

Lemma hostedDownload_run (host : Host) (nong : SongPtr) (h : HostedSong)
    (response : WebResponse) (st : State) :
  pointee nong = AHosted h ->
  m_downloadSongListeners st !! uid nong = None ->
  let gdSongID := gdID (h_metadata h) in
  let l := mkDownloadListener (next_task st) gdSongID (uid nong) (addr nong) in
  let started :=
    set_downloadProgress <[uid nong := 0%Q]>
      (set_downloadSongListeners <[uid nong := l]> (set_next_task S st)) in
  hostedDownload host nong response st
  = (tt, state_of (hostedCompletes host l response started),
     (WebGet (next_task st) (url h), set_next_task S st)
     :: (Post (SongDownloadProgressEvent gdSongID (uid nong) 0), started)
     :: log_of (hostedCompletes host l response started)).
Proof.
  intros Hsong Hnone gdSongID l started.
  unfold hostedDownload, downloadSong, hostedCompletes, deliver. rewrite Hsong.
  assert (Hemplace :
    set_downloadSongListeners (emplace (uid nong) l) (set_next_task S st)
    = set_downloadSongListeners <[uid nong := l]> (set_next_task S st)).
  { unfold set_downloadSongListeners, emplace. cbn [m_downloadSongListeners set_next_task].
    rewrite Hnone. reflexivity. }
  run. rewrite Hnone. run. cbn [metadata]. fold gdSongID. fold l.
  rewrite Hemplace. fold started. cbn [app].
  destruct (hostedValue host response started) as [[result s1] l1] eqn:Hvalue.
  assert (Hkept : m_downloadSongListeners s1 !! uid nong = Some l).
  { unfold hostedValue, write_file in Hvalue.
    destruct (ok response); [destruct (can_open host _)|];
      injection Hvalue as <- <- <-; cbn; apply lookup_insert_eq. }
  rewrite Hkept. cbn [dl_task l]. rewrite Nat.eqb_refl.
  destruct (downloadSongListener host l (TaskValue result) s1) as [[[] s2] l2].
  reflexivity.
Qed.

(** X10: a hosted download whose web request fails.  From the call of
    [downloadSong] to the response, with no download of that unique id under
    way: the request is made, progress 0 is published, then the error
    "Failed to fetch song: Web request failed" (with the notification flag)
    and one state-changed event.  No file is written, no song is altered, the
    local store is not asked to make the song active, and the unique id has
    no progress afterwards. *)
Theorem hosted_download_failure (host : Host) (nong : SongPtr) (h : HostedSong)
    (response : WebResponse) (st : State) :
  pointee nong = AHosted h ->
  m_downloadSongListeners st !! uid nong = None ->
  ok response = false ->
  let gdSongID := gdID (h_metadata h) in
  let r := hostedDownload host nong response st in
  effects (log_of r)
  = [WebGet (next_task st) (url h);
     Post (SongDownloadProgressEvent gdSongID (uid nong) 0);
     Post (SongErrorEvent true "Failed to fetch song: Web request failed");
     Post (SongStateChangedEvent gdSongID)]
  /\ files (state_of r) = files st
  /\ same_songs (state_of r) st
  /\ getSongDownloadProgress (state_of r) (uid nong) = Returns None.
Proof.
  intros Hsong Hnone Hfailed gdSongID r. subst r.
  rewrite (hostedDownload_run host nong h response st Hsong Hnone).
  unfold hostedCompletes, hostedValue. rewrite Hfailed. run.
  cbn [downloadSongListener]. run. cbn.
  repeat split. unfold getSongDownloadProgress. cbn.
  rewrite lookup_delete_eq. reflexivity.
Qed.

Lemma hosted_download_failure_witness :
  pointee hosted_ptr = AHosted hosted_of_index
  /\ m_downloadSongListeners idle !! uid hosted_ptr = None
  /\ ok failed_response = false
  /\ let r := hostedDownload sample_host hosted_ptr failed_response idle in
     effects (log_of r)
     = [WebGet 0 "https://example.org/z.mp3";
        Post (SongDownloadProgressEvent 42 "h1" 0);
        Post (SongErrorEvent true "Failed to fetch song: Web request failed");
        Post (SongStateChangedEvent 42)]
     /\ files (state_of r) = files idle
     /\ same_songs (state_of r) idle
     /\ getSongDownloadProgress (state_of r) (uid hosted_ptr) = Returns None.
Proof.
  split; [reflexivity|]. split; [reflexivity|]. split; [reflexivity|].
  apply (hosted_download_failure sample_host hosted_ptr hosted_of_index
           failed_response idle); reflexivity.
Defined.

(** X11: a hosted download that succeeds.  From the call of [downloadSong]
    to the response, with no download of that unique id under way and a
    destination that is not the empty path: the listener registered by the
    call receives the answer of the task the call made; the body is stored
    at the generated path when the stream opens, the song the pointer
    designates gets the unique id as its [indexID], the local store is asked
    to make it active, and the unique id has no progress afterwards. *)
Theorem hosted_download_success (host : Host) (nong : SongPtr) (h : HostedSong)
    (response : WebResponse) (st : State) :
  pointee nong = AHosted h ->
  m_downloadSongListeners st !! uid nong = None ->
  ok response = true ->
  generateSongFilePath host "mp3" <> "" ->
  let gdSongID := gdID (h_metadata h) in
  let destination := generateSongFilePath host "mp3" in
  let r := hostedDownload host nong response st in
  effects (log_of r)
  = [WebGet (next_task st) (url h);
     Post (SongDownloadProgressEvent gdSongID (uid nong) 0)]
    ++ commit_effects host
         (mkDownloadListener (next_task st) gdSongID (uid nong) (addr nong))
  /\ files (state_of r)
     = (if can_open host destination
        then <[destination := data response]> (files st)
        else files st)
  /\ same_songs (state_of r)
       (state_of (setIndexID gdSongID (addr nong) (uid nong) st))
  /\ getSongDownloadProgress (state_of r) (uid nong) = Returns None.
Proof.
  intros Hsong Hnone Hok Hpath gdSongID destination r. subst r.
  rewrite (hostedDownload_run host nong h response st Hsong Hnone).
  fold gdSongID.
  rewrite <- length_zero_empty in Hpath. apply not_true_is_false in Hpath.
  unfold hostedCompletes, hostedValue, write_file, commit_effects, same_songs,
    getSongDownloadProgress.
  rewrite Hok. fold destination. fold destination in Hpath.
  destruct (can_open host destination); run; cbn [downloadSongListener];
    rewrite Hpath; cbn [dl_gdSongID dl_id dl_nong];
    destruct (setActiveSong host gdSongID (uid nong));
    destruct (addr nong); run; cbn; rewrite ?lookup_delete_eq; repeat split.
Qed.

Lemma hosted_download_success_witness :
  pointee hosted_ptr = AHosted hosted_of_index
  /\ m_downloadSongListeners idle !! uid hosted_ptr = None
  /\ ok empty_response = true
  /\ generateSongFilePath sample_host "mp3" <> ""
  /\ let r := hostedDownload sample_host hosted_ptr empty_response idle in
     effects (log_of r)
     = [WebGet 0 "https://example.org/z.mp3";
        Post (SongDownloadProgressEvent 42 "h1" 0);
        SetActiveSong 42 "h1";
        Post (SongStateChangedEvent 42)]
     /\ files (state_of r) !! "nongs/fresh.mp3" = Some ""
     /\ getSongDownloadProgress (state_of r) (uid hosted_ptr) = Returns None.
Proof.
  split; [reflexivity|]. split; [reflexivity|]. split; [reflexivity|].
  split; [discriminate|].
  destruct (hosted_download_success sample_host hosted_ptr hosted_of_index
              empty_response idle) as (Heffects & Hfiles & _ & Hprogress);
    [reflexivity | reflexivity | reflexivity | discriminate |].
  cbv zeta. split; [exact Heffects|]. split; [|exact Hprogress].
  rewrite Hfiles. reflexivity.
Defined.

End HostedExtras.

(** ** The task of a YouTube download *)

Module YoutubeExtras.
Import DownloadFacts Samples Scenarios.

Lemma finished_app (l1 l2 : Log) : finished (l1 ++ l2) = finished l1 ++ finished l2.
Proof. apply omap_app. Qed.

Lemma stream_match {A} (o : option Json) (a b : A) :
  (o = Some (JString "stream")
   /\ match o with Some (JString "stream") => a | _ => b end = a)
  \/ (o <> Some (JString "stream")
      /\ match o with Some (JString "stream") => a | _ => b end = b).
Proof.
  destruct o as [j|]; [|right; split; [discriminate | reflexivity]].
  destruct j; try (right; split; [discriminate | reflexivity]).
  repeat match goal with
         | |- context [match ?x with _ => _ end] =>
             is_var x; destruct x;
             try (right; split; [discriminate | reflexivity])
         end.
  left. split; reflexivity.
Qed.

Section Task.
Context (host : Host) (task : TaskId) (yt : YTSong).

(** The two ways the resolver's answer is handled. *)
Lemma metadata_response_cases (request : TaskId) (response : WebResponse) (st : State) :
  let r := cobaltMetadataListener task yt request false (WebValue response) st in
  (exists audio_url,
      resolves_to response audio_url
      /\ r = (Fetching (next_task st), set_next_task S st,
              [(WebGet (next_task st) audio_url, set_next_task S st)]))
  \/ ((forall audio_url, ~ resolves_to response audio_url)
      /\ exists e, r = (Unbound, st, [(TaskFinish task (Err e), st)])).
Proof.
  intros r. subst r. unfold cobaltMetadataListener, resolves_to. cbn [orb isCancelled].
  destruct (ok response) eqn:Hok.
  2: { right. split; [intros u (Hfalse & _); discriminate Hfalse|].
       destruct (body_json response); eexists; reflexivity. }
  destruct (body_json response) as [jsonObj|e0] eqn:Hjson.
  2: { right. split; [intros u (_ & j & Hj & _); discriminate Hj|].
       eexists; reflexivity. }
  destruct (stream_match (json_get "status" jsonObj)
              (match json_get "url" jsonObj with
               | Some (JString audio_url) =>
                   let* song_request := fresh in
                   emit (WebGet song_request audio_url) >>
                   ret (Fetching song_request)
               | _ => finishErr task "Cobalt metadata bad response"
               end)
              (finishErr task "Cobalt metadata response is not a stream"))
    as [[Hs Heq] | [Hs Heq]]; rewrite Heq; clear Heq.
  2: { right. split; [|eexists; reflexivity].
       intros u (_ & j & Hj & Hstatus & _). injection Hj as <-. contradiction. }
  destruct (json_get "url" jsonObj) as [[]|] eqn:Hurl.
  all: try (right; split; [|eexists; reflexivity];
            intros u (_ & j & Hj & _ & Hu); injection Hj as <-;
            rewrite Hurl in Hu; discriminate Hu).
  left. eexists. split; [|reflexivity].
  split; [reflexivity|]. exists jsonObj. repeat split; assumption.
Qed.

(** One event of the web layer: what it may change, and whether it ends the
    task. *)
Lemma youtubeEvent_outcome (phase : YTPhase) (hasBeenCancelled : bool) (event : WebEvent)
    (st : State) :
  let r := youtubeEvent host task yt phase hasBeenCancelled event st in
  let destination := generateSongFilePath host "mp3" in
  same_songs (state_of r) st
  /\ m_downloadSongListeners (state_of r) = m_downloadSongListeners st
  /\ (forall p, p <> destination -> files (state_of r) !! p = files st !! p)
  /\ match phase with
     | Unbound => r = (Unbound, st, [])
     | _ =>
         (result_of r = Unbound
          /\ exists result,
              finished (log_of r) = [(task, result)]
              /\ (files (state_of r) = files st \/ result = Ok destination))
         \/ (result_of r <> Unbound
             /\ finished (log_of r) = []
             /\ files (state_of r) = files st)
     end.
Proof.
  intros r destination. subst r. unfold same_songs.
  destruct phase as [request|request|]; cbn [youtubeEvent];
    [| |repeat split; reflexivity].
  - destruct hasBeenCancelled;
      [repeat split; left; split; [reflexivity|]; eexists; split;
         [reflexivity | left; reflexivity]|].
    destruct event as [raw|response|].
    + repeat split. right. repeat split. discriminate.
    + destruct (metadata_response_cases request response st)
        as [(audio_url & _ & ->) | (_ & e & ->)].
      * repeat split. right. repeat split. discriminate.
      * repeat split. left. split; [reflexivity|]. eexists.
        split; [reflexivity | left; reflexivity].
    + repeat split. left. split; [reflexivity|]. eexists.
      split; [reflexivity | left; reflexivity].
  - destruct hasBeenCancelled;
      [repeat split; left; split; [reflexivity|]; eexists; split;
         [reflexivity | left; reflexivity]|].
    destruct event as [raw|response|].
    + repeat split. right. repeat split. discriminate.
    + unfold cobaltSongListener, write_file. cbn [orb isCancelled].
      fold destination.
      destruct (ok response); cbn [negb];
        [destruct (can_open host destination)|]; run; cbn.
      * repeat split.
        -- intros p Hp. apply lookup_insert_ne. congruence.
        -- left. split; [reflexivity|]. eexists. split; [reflexivity|].
           right; reflexivity.
      * repeat split. left. split; [reflexivity|]. eexists.
        split; [reflexivity | right; reflexivity].
      * repeat split. left. split; [reflexivity|]. eexists.
        split; [reflexivity | left; reflexivity].
    + repeat split. left. split; [reflexivity|]. eexists.
      split; [reflexivity | left; reflexivity].
Qed.

Lemma youtubeEvents_outcome (events : list (bool * WebEvent)) :
  forall (phase : YTPhase) (st : State),
  let r := youtubeEvents host task yt phase events st in
  let destination := generateSongFilePath host "mp3" in
  same_songs (state_of r) st
  /\ m_downloadSongListeners (state_of r) = m_downloadSongListeners st
  /\ (forall p, p <> destination -> files (state_of r) !! p = files st !! p)
  /\ match phase with
     | Unbound => r = (Unbound, st, [])
     | _ =>
         (result_of r = Unbound
          /\ exists result,
              finished (log_of r) = [(task, result)]
              /\ (files (state_of r) = files st \/ result = Ok destination))
         \/ (result_of r <> Unbound
             /\ finished (log_of r) = []
             /\ files (state_of r) = files st)
     end.
Proof.
  induction events as [|[hasBeenCancelled event] rest IH]; intros phase st r destination.
  - subst r. cbn. unfold same_songs. repeat split.
    destruct phase; [right; repeat split; discriminate.. | reflexivity].
  - subst r. cbn [youtubeEvents]. unfold bind.
    pose proof (youtubeEvent_outcome phase hasBeenCancelled event st) as Hstep.
    cbv zeta in Hstep. fold destination in Hstep.
    destruct (youtubeEvent host task yt phase hasBeenCancelled event st)
      as [[phase1 s1] l1].
    specialize (IH phase1 s1). cbv zeta in IH. fold destination in IH.
    destruct (youtubeEvents host task yt phase1 rest s1) as [[phase2 s2] l2].
    unfold same_songs in *. cbn [state_of result_of log_of fst snd] in *.
    destruct Hstep as ((Hn1 & Hi1) & Hl1 & Hf1 & Hcase1).
    destruct IH as ((Hn2 & Hi2) & Hl2 & Hf2 & Hcase2).
    split; [split; congruence|]. split; [congruence|].
    split; [intros p Hp; rewrite Hf2, Hf1 by exact Hp; reflexivity|].
    rewrite finished_app.
    assert (Hbound : phase <> Unbound ->
      (phase2 = Unbound
       /\ exists result,
           finished l1 ++ finished l2 = [(task, result)]
           /\ (files s2 = files st \/ result = Ok destination))
      \/ (phase2 <> Unbound /\ finished l1 ++ finished l2 = [] /\ files s2 = files st)).
    { intros Hphase.
      assert (Hstep : (phase1 = Unbound
                 /\ exists result,
                     finished l1 = [(task, result)]
                     /\ (files s1 = files st \/ result = Ok destination))
                \/ (phase1 <> Unbound /\ finished l1 = [] /\ files s1 = files st))
        by (destruct phase; [exact Hcase1 | exact Hcase1 | destruct Hphase; reflexivity]).
      destruct Hstep as [(-> & result & Hfin & Hfile) | (Hne & Hfin & Hfile)].
      - injection Hcase2 as -> -> ->. left. split; [reflexivity|].
        exists result. rewrite Hfin. split; [reflexivity | exact Hfile].
      - rewrite Hfin. cbn [app].
        assert (Hrest : (phase2 = Unbound
                   /\ exists result,
                       finished l2 = [(task, result)]
                       /\ (files s2 = files s1 \/ result = Ok destination))
                  \/ (phase2 <> Unbound /\ finished l2 = [] /\ files s2 = files s1))
          by (destruct phase1; [exact Hcase2 | exact Hcase2 | destruct Hne; reflexivity]).
        destruct Hrest as [(-> & result & Hfin2 & Hfile2) | (Hne2 & Hfin2 & Hfile2)].
        + left. split; [reflexivity|]. exists result. split; [exact Hfin2|].
          destruct Hfile2 as [Hfile2 | ->]; [left; congruence | right; reflexivity].
        + right. repeat split; [exact Hne2 | exact Hfin2 | congruence]. }
    destruct phase as [request|request|].
    + apply Hbound. discriminate.
    + apply Hbound. discriminate.
    + injection Hcase1 as -> -> ->. injection Hcase2 as -> -> ->. reflexivity.
Qed.

(** X12: the events of the web layer never alter a song, the listener table
    or a file other than the generated destination, and the destination is
    written only when the task is finished with it: as long as the task has
    not been finished with a destination, the files are as before. *)
Theorem youtube_writes_only_on_success (phase : YTPhase)
    (events : list (bool * WebEvent)) (st : State) :
  let r := youtubeEvents host task yt phase events st in
  let destination := generateSongFilePath host "mp3" in
  same_songs (state_of r) st
  /\ m_downloadSongListeners (state_of r) = m_downloadSongListeners st
  /\ (forall p, p <> destination -> files (state_of r) !! p = files st !! p)
  /\ ((task, Ok destination) ∉ finished (log_of r) -> files (state_of r) = files st).
Proof.
  intros r destination.
  destruct (youtubeEvents_outcome events phase st) as (Hsongs & Hlisteners & Hfiles & Hcase).
  fold r in Hsongs, Hlisteners, Hfiles, Hcase. fold destination in Hfiles, Hcase.
  split; [exact Hsongs|]. split; [exact Hlisteners|]. split; [exact Hfiles|].
  intros Hnot.
  assert (Hunbound : r = (Unbound, st, []) -> files (state_of r) = files st)
    by (intros ->; reflexivity).
  assert (Hbound :
    (result_of r = Unbound
     /\ exists result,
         finished (log_of r) = [(task, result)]
         /\ (files (state_of r) = files st \/ result = Ok destination))
    \/ (result_of r <> Unbound /\ finished (log_of r) = []
        /\ files (state_of r) = files st) ->
    files (state_of r) = files st).
  { intros [(_ & result & Hfin & [Hsame | ->]) | (_ & _ & Hsame)];
      [exact Hsame | | exact Hsame].
    destruct Hnot. rewrite Hfin. apply list_elem_of_singleton. reflexivity. }
  destruct phase; [apply Hbound, Hcase | apply Hbound, Hcase | apply Hunbound, Hcase].
Qed.

End Task.

(** What the call leaves for the web layer when the song is a YouTube song. *)
Lemma downloadSong_youtube (host : Host) (nong : SongPtr) (yt : YTSong) (st : State) :
  pointee nong = AYT yt ->
  let r := downloadSong host nong st in
  (snd (result_of r) = Unbound
   /\ finished (log_of r) = [(next_task st, Err "Invalid YouTube ID")])
  \/ (snd (result_of r) = Resolving (S (next_task st))
      /\ finished (log_of r) = []).
Proof.
  intros Hsong r. subst r. unfold downloadSong, youtubeBody. rewrite Hsong.
  destruct (negb (String.length (youtubeID yt) =? 11)%nat);
    destruct (m_downloadSongListeners st !! uid nong) eqn:Hold;
    run; rewrite Hold; run; cbn; [left | left | right | right]; split; reflexivity.
Qed.

(** X13: the task of a YouTube download is finished at most once.  From the
    call of [downloadSong] on, whatever the web layer hands to the two
    listeners: when both listeners are gone the task has been finished
    exactly once, and while one of them is bound it has not been finished. *)
Theorem youtube_task_finishes_once (host : Host) (nong : SongPtr) (yt : YTSong)
    (events : list (bool * WebEvent)) (st : State) :
  pointee nong = AYT yt ->
  let r := youtubeDownload host nong yt events st in
  (result_of r = Unbound
   /\ exists result, finished (log_of r) = [(next_task st, result)])
  \/ (result_of r <> Unbound /\ finished (log_of r) = []).
Proof.
  intros Hsong r. subst r. unfold youtubeDownload, bind, get.
  pose proof (downloadSong_youtube host nong yt st Hsong) as Hcall. cbv zeta in Hcall.
  destruct (downloadSong host nong st) as [[[res phase] s1] l1].
  cbn [result_of log_of fst snd] in Hcall. cbn [snd].
  pose proof (youtubeEvents_outcome host (next_task st) yt events phase s1) as Hrest.
  cbv zeta in Hrest. destruct Hrest as (_ & _ & _ & Hrest).
  destruct (youtubeEvents host (next_task st) yt phase events s1) as [[phase2 s2] l2].
  cbn [result_of state_of log_of fst snd app] in *. rewrite finished_app.
  destruct Hcall as [[-> ->] | [-> ->]].
  - injection Hrest as -> -> ->. left. split; [reflexivity|]. eexists. reflexivity.
  - cbn [app].
    destruct Hrest as [(-> & result & Hfin & _) | (Hne & Hfin & _)].
    + left. split; [reflexivity|]. exists result. exact Hfin.
    + right. split; assumption.
Qed.

Lemma youtube_task_finishes_once_witness :
  pointee yt_ptr = AYT yt_of_index
  /\ let r := youtubeDownload sample_host yt_ptr yt_of_index
                [(false, WebProgress (Some 50%Q));
                 (false, WebValue stream_response);
                 (false, WebValue empty_response);
                 (true, WebValue empty_response)] idle in
     (result_of r = Unbound
      /\ exists result, finished (log_of r) = [(next_task idle, result)])
     \/ (result_of r <> Unbound /\ finished (log_of r) = []).
Proof.
  split; [reflexivity|].
  apply (youtube_task_finishes_once sample_host yt_ptr yt_of_index). reflexivity.
Defined.

(** X14: a cancellation ends the task with the message of the stage it is
    in and nothing else.  When the bound listener finds the task cancelled or
    is told that its request was cancelled, also when the event carries a
    successful response, the task is finished with the error of that stage;
    no progress is published, no file is written, no request is made, the
    manager is as before, and every later event of the web layer is
    ignored. *)
Theorem youtube_cancellation_ends_task (host : Host) (task : TaskId) (yt : YTSong)
    (phase : YTPhase) (hasBeenCancelled : bool) (event : WebEvent)
    (later : list (bool * WebEvent)) (st : State) :
  phase <> Unbound ->
  cancels hasBeenCancelled event ->
  youtubeEvents host task yt phase ((hasBeenCancelled, event) :: later) st
  = (Unbound, st, [(TaskFinish task (Err (cancel_message phase)), st)]).
Proof.
  intros Hphase Hcancel. cbn [youtubeEvents]. unfold bind.
  assert (Hflag : hasBeenCancelled || isCancelled event = true)
    by (destruct Hcancel as [-> | ->]; [reflexivity | apply orb_true_r]).
  assert (Hstep : youtubeEvent host task yt phase hasBeenCancelled event st
                  = (Unbound, st, [(TaskFinish task (Err (cancel_message phase)), st)])).
  { destruct phase as [request|request|]; [| |destruct Hphase; reflexivity];
      cbn [youtubeEvent]; unfold cobaltMetadataListener, cobaltSongListener;
      rewrite Hflag; reflexivity. }
  rewrite Hstep, youtubeEvents_unbound. reflexivity.
Qed.

Lemma youtube_cancellation_ends_task_witness :
  Fetching 1 <> Unbound
  /\ cancels true (WebValue empty_response)
  /\ youtubeEvents sample_host 0 yt_of_index (Fetching 1)
       [(true, WebValue empty_response); (false, WebValue empty_response)] idle
     = (Unbound, idle,
        [(TaskFinish 0 (Err "Cancelled while fetching song data from Cobalt"), idle)]).
Proof.
  split; [discriminate|]. split; [left; reflexivity|].
  apply (youtube_cancellation_ends_task sample_host 0 yt_of_index (Fetching 1) true
           (WebValue empty_response) [(false, WebValue empty_response)] idle).
  - discriminate.
  - left; reflexivity.
Defined.

(** X15: the audio is requested exactly when the resolver answers with a
    stream.  On the resolver's response, the task not being cancelled:
    either the response is ok, its body is JSON with ["status"] the string
    ["stream"] and ["url"] a string, and then one GET of that address is
    made under a fresh task and the song listener takes over; or the task is
    finished with an error, nothing is requested and the manager is as
    before. *)
Theorem youtube_resolver_answer (host : Host) (task : TaskId) (yt : YTSong)
    (request : TaskId) (response : WebResponse) (st : State) :
  let r := youtubeEvent host task yt (Resolving request) false (WebValue response) st in
  (exists audio_url,
      resolves_to response audio_url
      /\ result_of r = Fetching (next_task st)
      /\ effects (log_of r) = [WebGet (next_task st) audio_url]
      /\ state_of r = set_next_task S st)
  \/ ((forall audio_url, ~ resolves_to response audio_url)
      /\ result_of r = Unbound
      /\ (exists e, effects (log_of r) = [TaskFinish task (Err e)])
      /\ state_of r = st).
Proof.
  intros r. subst r. cbn [youtubeEvent].
  destruct (metadata_response_cases task yt request response st)
    as [(audio_url & Hresolves & ->) | (Hnot & e & ->)].
  - left. exists audio_url. split; [exact Hresolves|]. repeat split.
  - right. split; [exact Hnot|]. split; [reflexivity|].
    split; [exists e; reflexivity | reflexivity].
Qed.

End YoutubeExtras.

(** ** More on the catalogs *)

Module CacheExtras.
Import DownloadFacts CacheFacts Samples Scenarios.

Lemma fetchIndex_skips (host : Host) (index : IndexSource) (st : State) :
  fetched_source index = false -> fetchIndex host index st = (tt, st, []).
Proof.
  unfold fetched_source, fetchIndex. intros Hskip.
  destruct (m_enabled index); cbn in *; [|reflexivity].
  destruct (String.length (m_url index)) as [|[|[|n]]]; (reflexivity || discriminate Hskip).
Qed.

Lemma fetchIndex_fetches (host : Host) (index : IndexSource) (st : State) :
  fetched_source index = true ->
  fetchIndex host index st
  = (tt,
     set_indexListeners
       (emplace (m_url index)
          (mkFetchListener (next_task st) index (cache_file host (m_url index))))
       (set_next_task S st),
     [(WebGet (next_task st) (m_url index), set_next_task S st)]).
Proof.
  unfold fetched_source, fetchIndex. intros Hfetched.
  destruct (m_enabled index); cbn in *; [|discriminate Hfetched].
  destruct (String.length (m_url index)) as [|[|[|n]]]; (discriminate Hfetched || reflexivity).
Qed.

Lemma fetch_all_requests (host : Host) (indexes : list IndexSource) :
  forall st,
  let r := for_each indexes (fetchIndex host) st in
  effects (log_of r) = fetch_requests (next_task st) indexes
  /\ next_task (state_of r)
     = next_task st + length (List.filter fetched_source indexes).
Proof.
  unfold fetch_requests.
  induction indexes as [|index indexes IH]; intros st; cbn [for_each List.filter].
  - split; [reflexivity | cbn; lia].
  - unfold bind. destruct (fetched_source index) eqn:Hfetched.
    + rewrite (fetchIndex_fetches host index st Hfetched).
      match goal with
      | |- context [for_each indexes (fetchIndex host) ?s] =>
          destruct (IH s) as [Hlog Hnext];
          destruct (for_each indexes (fetchIndex host) s) as [[[] s3] l3]
      end.
      cbn [log_of state_of fst snd effects map app length next_task
           set_indexListeners set_next_task] in *.
      split.
      * cbn [imap]. rewrite Nat.add_0_r, Hlog. f_equal.
        apply imap_ext. intros i x _. cbn. f_equal. lia.
      * rewrite Hnext. lia.
    + rewrite (fetchIndex_skips host index st Hfetched).
      destruct (IH st) as [Hlog Hnext].
      destruct (for_each indexes (fetchIndex host) st) as [[[] s2] l2].
      cbn [log_of state_of fst snd app] in *. split; assumption.
Qed.

Lemma fetch_all_untouched (host : Host) (indexes : list IndexSource) :
  forall st,
  let st' := state_of (for_each indexes (fetchIndex host) st) in
  m_loadedIndexes st' = m_loadedIndexes st
  /\ files st' = files st
  /\ nongManager st' = nongManager st
  /\ cached_index_names st' = cached_index_names st.
Proof.
  induction indexes as [|index indexes IH]; intros st; cbn [for_each].
  - repeat split.
  - unfold bind. destruct (fetched_source index) eqn:Hfetched.
    + rewrite (fetchIndex_fetches host index st Hfetched).
      match goal with
      | |- context [for_each indexes (fetchIndex host) ?s] =>
          pose proof (IH s) as Hrest;
          destruct (for_each indexes (fetchIndex host) s) as [[[] s3] l3]
      end.
      exact Hrest.
    + rewrite (fetchIndex_skips host index st Hfetched).
      pose proof (IH st) as Hrest.
      destruct (for_each indexes (fetchIndex host) st) as [[[] s3] l3].
      exact Hrest.
Qed.

(** X16: [fetchIndexes] never fails and requests every source of the
    setting that is enabled and whose address has at least three characters:
    one GET per such entry, in the order of the setting, each under a task of
    its own, and nothing else is published.  The loaded-index table, the
    cached index names, the files and the local store are not touched. *)
Theorem fetchIndexes_requests (host : Host) (st : State) :
  let r := fetchIndexes host st in
  result_of r = Ok tt
  /\ effects (log_of r) = fetch_requests (next_task st) (setting_indexes host)
  /\ next_task (state_of r)
     = next_task st + length (List.filter fetched_source (setting_indexes host))
  /\ m_loadedIndexes (state_of r) = m_loadedIndexes st
  /\ cached_index_names (state_of r) = cached_index_names st
  /\ files (state_of r) = files st
  /\ nongManager (state_of r) = nongManager st.
Proof.
  intros r. subst r. unfold fetchIndexes. run.
  match goal with
  | |- context [for_each (setting_indexes host) (fetchIndex host) ?s] =>
      destruct (fetch_all_requests host (setting_indexes host) s) as [Hlog Hnext];
      destruct (fetch_all_untouched host (setting_indexes host) s)
        as (Hloaded & Hfiles & Hstore & Hnames);
      destruct (for_each (setting_indexes host) (fetchIndex host) s) as [[[] s1] l1]
  end.
  cbn in *. rewrite app_nil_r. repeat split; assumption.
Qed.

Lemma fetch_all_listeners (host : Host) (indexes : list IndexSource) :
  forall st,
  let r := for_each indexes (fetchIndex host) st in
  (forall address l,
      m_indexListeners (state_of r) !! address = Some l ->
      m_indexListeners st !! address = Some l
      \/ (listens_for host indexes address l
          /\ WebGet (fl_task l) address ∈ effects (log_of r)))
  /\ (forall address,
        is_Some (m_indexListeners st !! address)
        \/ (exists index,
              index ∈ indexes /\ fetched_source index = true
              /\ m_url index = address) ->
        is_Some (m_indexListeners (state_of r) !! address)).
Proof.
  induction indexes as [|index indexes IH]; intros st; cbn [for_each].
  - split; [intros address l Hl; left; exact Hl|].
    intros address [Hold | (index & Hin & _)]; [exact Hold|].
    apply elem_of_nil in Hin. destruct Hin.
  - unfold bind. destruct (fetched_source index) eqn:Hfetched.
    + rewrite (fetchIndex_fetches host index st Hfetched).
      match goal with
      | |- context [for_each indexes (fetchIndex host) ?s] =>
          destruct (IH s) as [Hsome Hdom];
          destruct (for_each indexes (fetchIndex host) s) as [[[] s3] l3]
      end.
      cbn [log_of state_of fst snd effects map app m_indexListeners
           set_indexListeners set_next_task] in *.
      split.
      * intros address l Hl. destruct (Hsome address l Hl) as [Hold | [Hnew Hget]].
        -- unfold emplace in Hold.
           destruct (m_indexListeners st !! m_url index) eqn:Htaken; [left; exact Hold|].
           destruct (decide (m_url index = address)) as [<-|Hne].
           ++ rewrite lookup_insert_eq in Hold. injection Hold as <-. right.
              split; [|left].
              unfold listens_for. cbn. repeat split; [left | exact Hfetched].
           ++ rewrite lookup_insert_ne in Hold by exact Hne. left; exact Hold.
        -- right. destruct Hnew as (Hin & Hrest). split; [|right; exact Hget].
           split; [right; exact Hin | exact Hrest].
      * intros address Hcase. apply Hdom.
        assert (Hkept : is_Some (m_indexListeners st !! address)
                        \/ m_url index = address ->
                        is_Some (emplace (m_url index)
                                   (mkFetchListener (next_task st) index
                                      (cache_file host (m_url index)))
                                   (m_indexListeners st) !! address)).
        { unfold emplace. intros Hor.
          destruct (m_indexListeners st !! m_url index) eqn:Htaken.
          - destruct Hor as [Hold | <-]; [exact Hold | rewrite Htaken; eauto].
          - destruct (decide (m_url index = address)) as [<-|Hne].
            + rewrite lookup_insert_eq. eauto.
            + rewrite lookup_insert_ne by exact Hne.
              destruct Hor as [Hold | Heq]; [exact Hold | contradiction]. }
        destruct Hcase as [Hold | (index' & Hin & Hf & Hurl)].
        -- left. apply Hkept. left; exact Hold.
        -- apply elem_of_cons in Hin. destruct Hin as [-> | Hin].
           ++ left. apply Hkept. right; exact Hurl.
           ++ right. exists index'. repeat split; assumption.
    + rewrite (fetchIndex_skips host index st Hfetched).
      destruct (IH st) as [Hsome Hdom].
      destruct (for_each indexes (fetchIndex host) st) as [[[] s3] l3].
      cbn [log_of state_of fst snd effects map app] in *.
      split.
      * intros address l Hl. destruct (Hsome address l Hl) as [Hold | [Hnew Hget]];
          [left; exact Hold|]. right. split; [|exact Hget].
        destruct Hnew as (Hin & Hrest). split; [right; exact Hin | exact Hrest].
      * intros address [Hold | (index' & Hin & Hf & Hurl)]; apply Hdom;
          [left; exact Hold|].
        apply elem_of_cons in Hin. destruct Hin as [-> | Hin]; [congruence|].
        right. exists index'. repeat split; assumption.
Qed.

(** X17: after [fetchIndexes] the fetch listeners are those of the requests
    it made.  Every listener stands under the address of a source of the
    setting that was not skipped, filters on a GET of that address made by
    this call, and carries the cache file of that address; and every source
    that was not skipped has a listener under its address. *)
Theorem fetchIndexes_listeners (host : Host) (st : State) :
  let r := fetchIndexes host st in
  (forall address l,
      m_indexListeners (state_of r) !! address = Some l ->
      listens_for host (setting_indexes host) address l
      /\ WebGet (fl_task l) address ∈ effects (log_of r))
  /\ (forall index,
        index ∈ setting_indexes host -> fetched_source index = true ->
        is_Some (m_indexListeners (state_of r) !! m_url index)).
Proof.
  intros r. subst r. unfold fetchIndexes. run.
  match goal with
  | |- context [for_each (setting_indexes host) (fetchIndex host) ?s] =>
      destruct (fetch_all_listeners host (setting_indexes host) s) as [Hsome Hdom];
      destruct (for_each (setting_indexes host) (fetchIndex host) s) as [[[] s1] l1]
  end.
  cbn in *. rewrite app_nil_r. split.
  - intros address l Hl. destruct (Hsome address l Hl) as [Hold | Hnew]; [|exact Hnew].
    rewrite lookup_empty in Hold. discriminate Hold.
  - intros index Hin Hfetched. apply Hdom. right. exists index. repeat split; assumption.
Qed.

(** What one pass of an entry loop leaves. *)
Lemma add_index_song_tables (host : Host) (entry : Z * Song) (st : State) :
  let st' := state_of (add_index_song host entry st) in
  is_Some (m_indexNongs st' !! entry.1)
  /\ (forall gdSongID, is_Some (m_indexNongs st !! gdSongID) ->
        is_Some (m_indexNongs st' !! gdSongID))
  /\ m_loadedIndexes st' = m_loadedIndexes st
  /\ cached_index_names st' = cached_index_names st
  /\ nongManager st' = nongManager st
  /\ m_indexListeners st' = m_indexListeners st.
Proof.
  destruct entry as [gdSongID song]. unfold add_index_song. run.
  assert (Hgrows : forall nongs other,
             is_Some (m_indexNongs st !! other) ->
             is_Some (<[gdSongID := nongs]> (m_indexNongs st) !! other)).
  { intros nongs other Hother. destruct (decide (gdSongID = other)) as [<-|Hne].
    - rewrite lookup_insert_eq. eauto.
    - rewrite lookup_insert_ne by exact Hne. exact Hother. }
  destruct (Nongs_add host song _); cbn;
    (split; [rewrite lookup_insert_eq; eauto|]); (split; [apply Hgrows|]);
    repeat split.
Qed.

Lemma index_entries_tables (host : Host) (entries : list (Z * Song)) :
  forall st,
  let st' := state_of (for_each entries (add_index_song host) st) in
  (forall entry, entry ∈ entries -> is_Some (m_indexNongs st' !! entry.1))
  /\ (forall gdSongID, is_Some (m_indexNongs st !! gdSongID) ->
        is_Some (m_indexNongs st' !! gdSongID))
  /\ m_loadedIndexes st' = m_loadedIndexes st
  /\ cached_index_names st' = cached_index_names st
  /\ nongManager st' = nongManager st
  /\ m_indexListeners st' = m_indexListeners st.
Proof.
  induction entries as [|entry entries IH]; intros st; cbn [for_each].
  - split; [intros entry Hin; apply elem_of_nil in Hin; destruct Hin|].
    repeat split. intros gdSongID H. exact H.
  - unfold bind.
    pose proof (add_index_song_tables host entry st) as Hone. cbv zeta in Hone.
    destruct (add_index_song host entry st) as [[[] s1] l1].
    pose proof (IH s1) as Hrest. cbv zeta in Hrest.
    destruct (for_each entries (add_index_song host) s1) as [[[] s2] l2].
    cbn [state_of fst snd] in *.
    destruct Hone as (Hhere & Hgrow1 & Hloaded1 & Hnames1 & Hstore1 & Hlisten1).
    destruct Hrest as (Hthere & Hgrow2 & Hloaded2 & Hnames2 & Hstore2 & Hlisten2).
    split; [|split; [|repeat split; congruence]].
    + intros e He. apply elem_of_cons in He. destruct He as [-> | He].
      * apply Hgrow2, Hhere.
      * apply Hthere, He.
    + intros gdSongID H. apply Hgrow2, Hgrow1, H.
Qed.

(** X18: a catalog that cannot be loaded changes nothing.  When [loadIndex]
    answers with an error (no such file, the file does not open, its content
    does not parse or does not describe an index), the manager is as before:
    no name is cached, no song is added, and nothing is published. *)
Theorem loadIndex_failure_silent (host : Host) (path : string) (st : State) :
  let r := loadIndex host path st in
  isErr (result_of r) = true ->
  state_of r = st /\ log_of r = [].
Proof.
  intros r. subst r. rewrite loadIndex_reads. unfold loadContents.
  destruct (files st !! path) as [text|]; [|split; reflexivity].
  destruct (negb (can_open host path)); [split; reflexivity|].
  destruct (parse host text) as [e|jsonObj]; [split; reflexivity|].
  destruct (IndexMetadata_from_json host jsonObj) as [index|e]; [|split; reflexivity].
  unfold cacheIndexName. run.
  destruct (for_each _ (add_index_song host) _) as [[[] s1] l1].
  cbn. discriminate.
Qed.

Lemma loadIndex_failure_silent_witness :
  let r := loadIndex sample_host "indexes-cache/none.json" idle in
  isErr (result_of r) = true
  /\ state_of r = idle /\ log_of r = [].
Proof.
  split; [reflexivity|].
  apply (loadIndex_failure_silent sample_host "indexes-cache/none.json" idle).
  reflexivity.
Defined.

(** X19: what a loaded catalog leaves.  When [loadIndex] succeeds, the file
    held a document that parses and describes an index; the name of the
    index is cached under its id, replacing a name cached before, whereas the
    table of loaded indexes keeps the metadata it already had for that id;
    every song id the catalog lists has a collection in the index table, no
    collection is removed, and the files, the local store and the fetch
    listeners are as before. *)
Theorem loadIndex_success (host : Host) (path : string) (st : State) :
  let r := loadIndex host path st in
  result_of r = Ok tt ->
  exists text jsonObj index,
    files st !! path = Some text
    /\ can_open host path = true
    /\ parse host text = inr jsonObj
    /\ IndexMetadata_from_json host jsonObj = Ok index
    /\ getIndexName (state_of r) (m_id index) = Some (m_name index)
    /\ m_loadedIndexes (state_of r) !! m_id index
       = Some (default index (m_loadedIndexes st !! m_id index))
    /\ (forall entry, entry ∈ index_entries host jsonObj index ->
          is_Some (m_indexNongs (state_of r) !! entry.1))
    /\ (forall gdSongID, is_Some (m_indexNongs st !! gdSongID) ->
          is_Some (m_indexNongs (state_of r) !! gdSongID))
    /\ files (state_of r) = files st
    /\ nongManager (state_of r) = nongManager st
    /\ m_indexListeners (state_of r) = m_indexListeners st.
Proof.
  intros r. subst r.
  pose proof (loadContents_files host path (files st !! path) st) as Hfiles.
  rewrite loadIndex_reads. revert Hfiles. unfold loadContents.
  destruct (files st !! path) as [text|] eqn:Hfile; [|discriminate].
  destruct (can_open host path) eqn:Hopen; cbn [negb]; [|discriminate].
  destruct (parse host text) as [e|jsonObj] eqn:Hparse; [discriminate|].
  destruct (IndexMetadata_from_json host jsonObj) as [index|e] eqn:Hindex; [|discriminate].
  intros Hfiles _. exists text, jsonObj, index.
  do 4 (split; [first [reflexivity | assumption]|]).
  revert Hfiles. unfold cacheIndexName, getIndexName. run.
  match goal with
  | |- context [for_each (index_entries host jsonObj index) (add_index_song host) ?s] =>
      pose proof (index_entries_tables host (index_entries host jsonObj index) s) as Htables;
      cbv zeta in Htables;
      destruct (for_each (index_entries host jsonObj index) (add_index_song host) s)
        as [[[] s1] l1]
  end.
  cbn in Htables |- *.
  destruct Htables as (Hentries & Hgrow & Hloaded & Hnames & Hstore & Hlisten).
  intros Hfiles. rewrite Hnames, Hloaded, Hstore, Hlisten.
  split; [apply lookup_insert_eq|]. split.
  { unfold emplace. destruct (m_loadedIndexes st !! m_id index) eqn:Hold.
    - rewrite Hold. reflexivity.
    - apply lookup_insert_eq. }
  repeat split; assumption.
Qed.

Lemma loadIndex_success_witness :
  let r := loadIndex sample_host "indexes-cache/hub.json" cached_catalog in
  result_of r = Ok tt
  /\ exists text jsonObj index,
      files cached_catalog !! "indexes-cache/hub.json" = Some text
      /\ can_open sample_host "indexes-cache/hub.json" = true
      /\ parse sample_host text = inr jsonObj
      /\ IndexMetadata_from_json sample_host jsonObj = Ok index
      /\ getIndexName (state_of r) (m_id index) = Some (m_name index)
      /\ m_loadedIndexes (state_of r) !! m_id index
         = Some (default index (m_loadedIndexes cached_catalog !! m_id index))
      /\ (forall entry, entry ∈ index_entries sample_host jsonObj index ->
            is_Some (m_indexNongs (state_of r) !! entry.1))
      /\ (forall gdSongID, is_Some (m_indexNongs cached_catalog !! gdSongID) ->
            is_Some (m_indexNongs (state_of r) !! gdSongID))
      /\ files (state_of r) = files cached_catalog
      /\ nongManager (state_of r) = nongManager cached_catalog
      /\ m_indexListeners (state_of r) = m_indexListeners cached_catalog.
Proof.
  split; [reflexivity|].
  apply (loadIndex_success sample_host "indexes-cache/hub.json" cached_catalog).
  reflexivity.
Defined.

Lemma loadAndReport_tables (host : Host) (filepath : string) (st : State) :
  let st' := state_of (loadAndReport host filepath st) in
  m_indexListeners st' = m_indexListeners st /\ nongManager st' = nongManager st.
Proof.
  cbv zeta. unfold loadAndReport, bind. rewrite loadIndex_reads. unfold loadContents.
  destruct (files st !! filepath) as [text|]; [|run; cbn; split; reflexivity].
  destruct (negb (can_open host filepath));
    [run; destruct (negb _); cbn; split; reflexivity|].
  destruct (parse host text) as [e|jsonObj];
    [run; destruct (negb _); cbn; split; reflexivity|].
  destruct (IndexMetadata_from_json host jsonObj) as [index|e];
    [|run; destruct (negb _); cbn; split; reflexivity].
  unfold cacheIndexName. run.
  match goal with
  | |- context [for_each (index_entries host jsonObj index) (add_index_song host) ?s] =>
      pose proof (index_entries_tables host (index_entries host jsonObj index) s) as Htables;
      cbv zeta in Htables;
      destruct (for_each (index_entries host jsonObj index) (add_index_song host) s)
        as [[[] s1] l1]
  end.
  cbn in Htables |- *.
  destruct Htables as (_ & _ & _ & _ & Hstore & Hlisten). split; assumption.
Qed.

(** X20: the listener of a fetch.  A progress event is ignored.  On any other
    event (a value, an error or the cancellation) the listener of that
    address and no other is removed, then [loadIndex] runs on the cache file
    and the manager ends in the state in which that call leaves it; no file
    is written and the local store is not touched.  What is published is
    the fetch error when the fetch failed, then what [loadIndex] publishes,
    then its error if it has one: a cancelled fetch reports no error of its
    own. *)
Theorem fetchListener_unregisters (host : Host) (l : FetchListener) (event : FetchEvent)
    (st : State) :
  let r := fetchListener host l event st in
  let unlisten := set_indexListeners (delete (m_url (fl_index l))) in
  match event with
  | FetchProgress _ => r = (tt, st, [])
  | _ =>
      exists loaded loadlog,
        loadIndex host (fl_filepath l) (unlisten st) = (loaded, state_of r, loadlog)
        /\ log_of r
           = match event with
             | FetchValue (Err e) =>
                 [(Post (SongErrorEvent false ("Failed to fetch index: " +:+ e)),
                   unlisten st)]
             | _ => []
             end ++ loadlog ++ load_report loaded (state_of r)
        /\ m_indexListeners (state_of r)
           = delete (m_url (fl_index l)) (m_indexListeners st)
        /\ files (state_of r) = files st
        /\ nongManager (state_of r) = nongManager st
  end.
Proof.
  intros r unlisten. subst r.
  pose proof (loadAndReport_tables host (fl_filepath l) (unlisten st)) as Htables.
  pose proof (loadAndReport_files host (fl_filepath l) (unlisten st)) as Hfiles.
  destruct (loadAndReport_run host (fl_filepath l) (unlisten st))
    as (loaded & loadlog & Hload & Hlog).
  cbv zeta in Htables. destruct Htables as [Hlisten Hstore].
  destruct event as [p| |[[]|e]]; [reflexivity|..];
    exists loaded, loadlog;
    cbn [fetchListener]; run; fold unlisten;
    destruct (loadAndReport host (fl_filepath l) (unlisten st)) as [[[] s1] l1];
    cbn in Hlisten, Hstore, Hfiles, Hload, Hlog |- *;
    rewrite Hlog; repeat split; assumption.
Qed.

End CacheExtras.

(** ** Start-up *)

Module LifecycleExtras.
Import DownloadFacts CacheFacts CacheExtras Samples Scenarios.

Lemma fetchIndexes_run (host : Host) (st : State) :
  exists st' log,
    fetchIndexes host st = (Ok tt, st', log)
    /\ effects log = fetch_requests (next_task st) (setting_indexes host).
Proof.
  unfold fetchIndexes. run.
  match goal with
  | |- context [for_each (setting_indexes host) (fetchIndex host) ?s] =>
      destruct (fetch_all_requests host (setting_indexes host) s) as [Hlog _];
      destruct (for_each (setting_indexes host) (fetchIndex host) s) as [[[] s1] l1]
  end.
  cbn in *. rewrite app_nil_r. eexists _, _. split; [reflexivity | exact Hlog].
Qed.

Lemma requests_post_nothing {A} (g : nat -> A -> Effect) (l : list A) (log : Log) :
  (forall i x, is_web_request (g i x) = true) ->
  effects log = imap g l -> posted log = [].
Proof.
  intros Hg Hlog. unfold posted. rewrite Hlog. clear Hlog. revert g Hg.
  induction l as [|x l IH]; intros g Hg; cbn [imap omap]; [reflexivity|].
  specialize (Hg 0 x) as Hx. destruct (g 0 x); try discriminate Hx;
    cbn; apply IH; intros i y; apply Hg.
Qed.

(** X21: [init] never answers [false].  [fetchIndexes] has no failing path,
    so the error "Failed to fetch indexes" is never published: [init] either
    answers [true], having published nothing, or throws because the cache
    directory is missing and cannot be created.  The manager counts as
    initialized afterwards exactly when it did before or the cache directory
    was there. *)
Theorem init_never_fails (host : Host) (inst : Installation) :
  match init host inst with
  | Throws _ => m_initialized inst = false /\ cache_directory inst = Absent false
  | Returns (answer, inst', log) =>
      answer = true
      /\ posted log = []
      /\ m_initialized inst'
         = m_initialized inst
           || match cache_directory inst with Present => true | Absent _ => false end
  end.
Proof.
  unfold init. destruct (m_initialized inst) eqn:Hflag.
  - repeat split. exact Hflag.
  - destruct (cache_directory inst) as [|[|]]; [| repeat split..].
    destruct (fetchIndexes_run host (manager inst)) as (st' & log & -> & Hlog).
    cbn. repeat split.
    unfold fetch_requests in Hlog.
    eapply requests_post_nothing; [|exact Hlog]. intros i x. reflexivity.
Qed.

(** X22: the first launch fetches nothing.  When the cache directory is
    missing, [init] creates it and answers [true] without requesting a
    catalog and without marking the manager as initialized; the catalogs are
    requested by the next call of [init], which marks it; from then on
    [init] does nothing. *)
Theorem init_first_launch (host : Host) (inst : Installation) :
  m_initialized inst = false ->
  cache_directory inst = Absent true ->
  exists created ready log,
    init host inst = Returns (true, created, [])
    /\ manager created = manager inst
    /\ m_initialized created = false
    /\ init host created = Returns (true, ready, log)
    /\ effects log = fetch_requests (next_task (manager inst)) (setting_indexes host)
    /\ m_initialized ready = true
    /\ init host ready = Returns (true, ready, []).
Proof.
  intros Hflag Hdirectory. unfold init at 1 2. rewrite Hflag, Hdirectory.
  destruct (fetchIndexes_run host (manager inst)) as (st' & log & Hrun & Hlog).
  exists (mkInstallation (manager inst) false Present),
    (mkInstallation st' true Present), log.
  cbn [m_initialized cache_directory manager]. rewrite Hrun.
  cbn. repeat split. exact Hlog.
Qed.

Lemma init_first_launch_witness :
  m_initialized first_launch = false
  /\ cache_directory first_launch = Absent true
  /\ exists created ready log,
      init sample_host first_launch = Returns (true, created, [])
      /\ manager created = manager first_launch
      /\ m_initialized created = false
      /\ init sample_host created = Returns (true, ready, log)
      /\ effects log
         = fetch_requests (next_task (manager first_launch)) (setting_indexes sample_host)
      /\ m_initialized ready = true
      /\ init sample_host ready = Returns (true, ready, []).
Proof.
  split; [reflexivity|]. split; [reflexivity|].
  apply (init_first_launch sample_host first_launch); reflexivity.
Defined.

End LifecycleExtras.

(** ** Published progress and the progress table *)

Module ProgressEvents.
Import DownloadFacts.

Section Logs.
Context (Q : Effect * State -> Prop).

Lemma logs_ret {A} (a : A) : logs Q (ret a).
Proof. intros st. constructor. Qed.

Lemma logs_get : logs Q get.
Proof. intros st. constructor. Qed.

Lemma logs_modify (f : State -> State) : logs Q (modify f).
Proof. intros st. constructor. Qed.

Lemma logs_fresh : logs Q fresh.
Proof. intros st. constructor. Qed.

Lemma logs_emit (e : Effect) : (forall st, Q (e, st)) -> logs Q (emit e).
Proof. intros He st. repeat constructor. apply He. Qed.

Lemma logs_bind {A B} (m : M A) (k : A -> M B) :
  logs Q m -> (forall a, logs Q (k a)) -> logs Q (bind m k).
Proof.
  intros Hm Hk st. unfold bind. specialize (Hm st).
  destruct (m st) as [[a s1] l1]. specialize (Hk a s1).
  destruct (k a s1) as [[b s2] l2]. cbn in *. apply Forall_app. split; assumption.
Qed.

Lemma logs_when (b : bool) (m : M unit) : logs Q m -> logs Q (when b m).
Proof. intros Hm. destruct b; [exact Hm | apply logs_ret]. Qed.

Lemma logs_for_each {A} (l : list A) (body : A -> M unit) :
  (forall x, logs Q (body x)) -> logs Q (for_each l body).
Proof.
  intros Hbody. induction l as [|x rest IH]; cbn [for_each].
  - apply logs_ret.
  - apply logs_bind; [apply Hbody | intros _; exact IH].
Qed.

End Logs.

Lemma logs_progress {A} (gdSongID : Z) (id : string) (p : Q) (k : M A) :
  logs progress_event_agrees k ->
  logs progress_event_agrees
    (modify (set_downloadProgress <[id := p]>) >>
     post (SongDownloadProgressEvent gdSongID id p) >> k).
Proof.
  intros Hk st. unfold bind, modify, post, emit.
  specialize (Hk (set_downloadProgress <[id := p]> st)).
  destruct (k _) as [[a s1] l1]. cbn in *. constructor; [|exact Hk].
  unfold progress_event_agrees. cbn. apply lookup_insert_eq.
Qed.

Lemma logs_progress_last (gdSongID : Z) (id : string) (p : Q) :
  logs progress_event_agrees
    (modify (set_downloadProgress <[id := p]>) >>
     post (SongDownloadProgressEvent gdSongID id p)).
Proof.
  intros st. unfold bind, modify, post, emit. cbn. repeat constructor.
  unfold progress_event_agrees. cbn. apply lookup_insert_eq.
Qed.

Ltac other := apply logs_emit; intros ?; exact I.

Ltac seq := apply logs_bind; [|intros ?].

Ltac walk :=
  first
    [ apply logs_ret | apply logs_get | apply logs_modify | apply logs_fresh
    | other
    | apply logs_progress_last
    | apply logs_progress
    | apply logs_when
    | apply logs_bind; [|intros ?] ].

Lemma downloadSongListener_agrees (host : Host) (l : DownloadListener) (event : TaskEvent) :
  logs progress_event_agrees (downloadSongListener host l event).
Proof.
  unfold downloadSongListener. destruct event as [p| |[destination|e]].
  - walk.
  - repeat walk.
  - seq; [walk|]. seq; [walk|].
    destruct (String.length destination =? 0)%nat; [walk|].
    seq; [unfold setIndexID; destruct (dl_nong l); walk|]. seq; [walk|].
    destruct (setActiveSong host _ _); repeat walk.
  - repeat walk.
Qed.

Lemma deliver_agrees (host : Host) (id : string) (task : TaskId) (event : TaskEvent) :
  logs progress_event_agrees (deliver host id task event).
Proof.
  unfold deliver. seq; [walk|].
  destruct (m_downloadSongListeners _ !! id) as [l|]; [|walk].
  destruct (dl_task l =? task)%nat; [apply downloadSongListener_agrees | walk].
Qed.

Lemma write_file_agrees (host : Host) (destination contents : string) :
  logs progress_event_agrees (write_file host destination contents).
Proof. unfold write_file. destruct (can_open host destination); walk. Qed.

Lemma hostedValue_agrees (host : Host) (response : WebResponse) :
  logs progress_event_agrees (hostedValue host response).
Proof.
  unfold hostedValue. destruct (ok response); [|walk].
  seq; [apply write_file_agrees | walk].
Qed.

Lemma finishErr_agrees (task : TaskId) (err : string) :
  logs progress_event_agrees (finishErr task err).
Proof. unfold finishErr. repeat walk. Qed.

Lemma youtubeEvent_agrees (host : Host) (task : TaskId) (yt : YTSong) (phase : YTPhase)
    (hasBeenCancelled : bool) (event : WebEvent) :
  logs progress_event_agrees (youtubeEvent host task yt phase hasBeenCancelled event).
Proof.
  destruct phase as [request|request|]; cbn [youtubeEvent]; [| |walk].
  - unfold cobaltMetadataListener.
    destruct (hasBeenCancelled || isCancelled event); [apply finishErr_agrees|].
    destruct event as [raw|response|]; [| |walk].
    + seq; [unfold report; walk | walk].
    + repeat match goal with
             | |- logs _ (finishErr _ _) => apply finishErr_agrees
             | |- logs _ (match ?x with _ => _ end) => destruct x
             | |- logs _ (if ?x then _ else _) => destruct x
             end.
      repeat walk.
  - unfold cobaltSongListener.
    destruct (hasBeenCancelled || isCancelled event); [apply finishErr_agrees|].
    destruct event as [raw|response|]; [| |walk].
    + seq; [unfold report; walk | walk].
    + destruct (negb (ok response)); [apply finishErr_agrees|].
      seq; [apply write_file_agrees|]. repeat walk.
Qed.

Lemma downloadSong_agrees (host : Host) (nong : SongPtr) :
  logs progress_event_agrees (downloadSong host nong).
Proof.
  unfold downloadSong.
  destruct (pointee nong) as [s|yt|h]; [walk| |].
  - seq; [walk|]. seq; [destruct (m_downloadSongListeners _ !! _); walk|].
    seq; [walk|]. walk.
    + unfold youtubeBody. destruct (negb _); repeat walk.
    + seq; [walk|]. apply logs_progress. walk.
  - seq; [walk|]. seq; [destruct (m_downloadSongListeners _ !! _); walk|].
    seq; [walk|]. seq; [repeat walk|]. seq; [walk|]. apply logs_progress. walk.
Qed.

Lemma loadIndex_agrees (host : Host) (path : string) :
  logs progress_event_agrees (loadIndex host path).
Proof.
  unfold loadIndex. seq; [walk|]. unfold loadContents.
  destruct (files _ !! path) as [text|]; [|walk].
  destruct (negb (can_open host path)); [walk|].
  destruct (parse host text) as [e|jsonObj]; [walk|].
  destruct (IndexMetadata_from_json host jsonObj) as [index|e]; [|walk].
  seq; [unfold cacheIndexName; walk|].
  seq; [|repeat walk]. apply logs_for_each. intros [gdSongID song].
  unfold add_index_song. seq; [walk|]. destruct (Nongs_add host song _); repeat walk.
Qed.

Lemma fetchListener_agrees (host : Host) (l : FetchListener) (event : FetchEvent) :
  logs progress_event_agrees (fetchListener host l event).
Proof.
  assert (Hload : logs progress_event_agrees (loadAndReport host (fl_filepath l))).
  { unfold loadAndReport. seq; [apply loadIndex_agrees | repeat walk]. }
  unfold fetchListener. destruct event as [p| |[|e]]; [walk|..];
    (seq; [walk|]); (seq; [|exact Hload]); walk.
Qed.

Lemma happen_agrees (host : Host) (h : Happening) :
  logs progress_event_agrees (happen host h).
Proof.
  destruct h; cbn [happen].
  - seq; [apply downloadSong_agrees | walk].
  - seq; [|walk]. unfold downloadSongByID. seq; [walk|].
    destruct (getNongs _ _ _ gdSongID) as [e|nongs]; [walk|].
    destruct (List.find _ nongs); [apply downloadSong_agrees | walk].
  - seq; [|walk]. unfold fetchIndexes. seq; [walk|]. seq; [walk|]. seq; [walk|].
    seq; [|walk]. apply logs_for_each. intros index. unfold fetchIndex.
    destruct (_ || _); repeat walk.
  - seq; [apply loadIndex_agrees | walk].
  - apply deliver_agrees.
  - seq; [apply hostedValue_agrees | apply deliver_agrees].
  - seq; [apply youtubeEvent_agrees | walk].
  - unfold fetchCompletes. seq; [|apply fetchListener_agrees]. unfold fetchValue.
    repeat match goal with
           | |- logs _ (ret _) => apply logs_ret
           | |- logs _ (match ?x with _ => _ end) => destruct x
           | |- logs _ (if ?x then _ else _) => destruct x
           end.
    repeat walk.
  - apply fetchListener_agrees.
Qed.

(** X23: a published progress is the progress the manager holds.  Whatever
    is called and whatever the host hands to the listeners, in any order:
    whenever a download-progress event is published, the progress table
    holds the published value under the unique id of the event, so that a
    subscriber that asks [getSongDownloadProgress] for that id while a
    listener is registered gets the value of the event. *)
Theorem published_progress_is_current (host : Host) (hs : list Happening) (st : State)
    (gdSongID : Z) (uniqueID : string) (progress : Q) (seen : State) :
  (Post (SongDownloadProgressEvent gdSongID uniqueID progress), seen)
    ∈ log_of (history host hs st) ->
  m_downloadProgress seen !! uniqueID = Some progress
  /\ (is_Some (m_downloadSongListeners seen !! uniqueID) ->
      getSongDownloadProgress seen uniqueID = Returns (Some progress)).
Proof.
  intros Hin.
  pose proof (logs_for_each _ hs (happen host) (happen_agrees host) st) as Hlog.
  rewrite Forall_forall in Hlog. specialize (Hlog _ Hin).
  unfold progress_event_agrees in Hlog. cbn in Hlog.
  split; [exact Hlog|]. intros [l Hl]. unfold getSongDownloadProgress.
  rewrite Hl, Hlog. reflexivity.
Qed.

Lemma published_progress_is_current_witness :
  let r := history Samples.sample_host [CallDownloadSong Samples.hosted_ptr] Samples.idle in
  (Post (SongDownloadProgressEvent 42 "h1" 0), state_of r) ∈ log_of r
  /\ m_downloadProgress (state_of r) !! "h1" = Some 0%Q
  /\ (is_Some (m_downloadSongListeners (state_of r) !! "h1") ->
      getSongDownloadProgress (state_of r) "h1" = Returns (Some 0%Q)).
Proof.
  cbv zeta.
  assert (Hin : (Post (SongDownloadProgressEvent 42 "h1" 0),
                 state_of (history Samples.sample_host
                             [CallDownloadSong Samples.hosted_ptr] Samples.idle))
                ∈ log_of (history Samples.sample_host
                            [CallDownloadSong Samples.hosted_ptr] Samples.idle)).
  { apply (list_elem_of_lookup_2 _ 1). reflexivity. }
  split; [exact Hin|].
  exact (published_progress_is_current Samples.sample_host
           [CallDownloadSong Samples.hosted_ptr] Samples.idle 42 "h1" 0%Q _ Hin).
Defined.

End ProgressEvents.

(** ** A download from the call to its end *)

Module DownloadClaims.
Import DownloadFacts DownloadExtras YoutubeExtras ProgressEvents Samples Scenarios.

Lemma quiet_log (log : Log) : Forall no_state_change log -> state_changes log = [].
Proof.
  induction 1 as [|[e seen] log He _ IH]; [reflexivity|].
  change ((e, seen) :: log) with ([(e, seen)] ++ log).
  rewrite state_changes_app, IH, app_nil_r.
  unfold no_state_change in He. cbn in He.
  destruct e as [[| |gdSongID]| | | | |]; (reflexivity || destruct He).
Qed.

Lemma downloadSong_quiet (host : Host) (nong : SongPtr) :
  logs no_state_change (downloadSong host nong).
Proof.
  unfold downloadSong. destruct (pointee nong) as [s|yt|h]; [walk| |].
  - seq; [walk|]. seq; [destruct (m_downloadSongListeners _ !! _); walk|].
    seq; [walk|]. seq; [unfold youtubeBody; destruct (negb _); repeat walk|].
    repeat walk.
  - seq; [walk|]. seq; [destruct (m_downloadSongListeners _ !! _); walk|].
    repeat walk.
Qed.

Lemma youtubeEvent_quiet (host : Host) (task : TaskId) (yt : YTSong) (phase : YTPhase)
    (hasBeenCancelled : bool) (event : WebEvent) :
  logs no_state_change (youtubeEvent host task yt phase hasBeenCancelled event).
Proof.
  assert (Hfinish : forall err, logs no_state_change (finishErr task err))
    by (intros err; unfold finishErr; repeat walk).
  destruct phase as [request|request|]; cbn [youtubeEvent]; [| |walk].
  - unfold cobaltMetadataListener.
    destruct (hasBeenCancelled || isCancelled event); [apply Hfinish|].
    destruct event as [raw|response|]; [| |walk].
    + unfold report. repeat walk.
    + repeat match goal with
             | |- logs _ (finishErr _ _) => apply Hfinish
             | |- logs _ (match ?x with _ => _ end) => destruct x
             | |- logs _ (if ?x then _ else _) => destruct x
             end.
      repeat walk.
  - unfold cobaltSongListener, write_file.
    destruct (hasBeenCancelled || isCancelled event); [apply Hfinish|].
    destruct event as [raw|response|]; [| |walk].
    + unfold report. repeat walk.
    + destruct (negb (ok response)); [apply Hfinish|].
      destruct (can_open host _); repeat walk.
Qed.

Lemma youtubeEvents_quiet (host : Host) (task : TaskId) (yt : YTSong)
    (events : list (bool * WebEvent)) :
  forall phase, logs no_state_change (youtubeEvents host task yt phase events).
Proof.
  induction events as [|[hasBeenCancelled event] rest IH]; intros phase;
    cbn [youtubeEvents]; [walk|].
  seq; [apply youtubeEvent_quiet | apply IH].
Qed.

(** An event of the task reaches the listener registered for it. *)
Lemma deliver_registered (host : Host) (l : DownloadListener) (event : TaskEvent)
    (st : State) :
  m_downloadSongListeners st !! dl_id l = Some l ->
  deliver host (dl_id l) (dl_task l) event st = downloadSongListener host l event st.
Proof.
  intros Hl. unfold deliver, bind, get. rewrite Hl, Nat.eqb_refl.
  destruct (downloadSongListener host l event st) as [[[] s1] l1]. reflexivity.
Qed.

Lemma deliver_whole_task (host : Host) (l : DownloadListener) (progress : list Q)
    (terminal : TaskEvent) :
  forall st,
  m_downloadSongListeners st !! dl_id l = Some l ->
  for_each (map TaskProgress progress ++ [terminal]) (deliver host (dl_id l) (dl_task l)) st
  = whole_task host l progress terminal st.
Proof.
  unfold whole_task.
  induction progress as [|p ps IH]; intros st Hl; cbn [map app for_each]; unfold bind.
  - rewrite (deliver_registered host l terminal st Hl). reflexivity.
  - rewrite (deliver_registered host l (TaskProgress p) st Hl).
    cbn [downloadSongListener]. run. rewrite IH by exact Hl. reflexivity.
Qed.

(** C8, counterexample: a hosted download is started and makes progress,
    the catalogs are fetched again, and the answer of the download arrives:
    no state-changed notification is published for that task. *)
Lemma interrupted_download_not_notified :
  effects (log_of (history sample_host interrupted idle))
  = [WebGet 0 "https://example.org/z.mp3";
     Post (SongDownloadProgressEvent 42 "h1" 0);
     Post (SongDownloadProgressEvent 42 "h1" 0.5);
     WebGet 1 "https://example.org/index.json"]
  /\ state_changes (log_of (history sample_host interrupted idle)) = [].
Proof. split; vm_compute; reflexivity. Qed.

(** C8, as amended: a download started while no listener is registered
    under the unique id of the song, and whose events reach the listener the
    call registered.  From the call of [downloadSong] to the terminal event,
    whatever that event is (a value, an error or the cancellation) and
    whatever the web layer and the task hand over before it, exactly one
    state-changed notification is published, and when it is published the
    progress and listener entries of the unique id are erased. *)
Theorem started_download_notifies_once (host : Host) (nong : SongPtr)
    (web : list (bool * WebEvent)) (progress : list Q) (terminal : TaskEvent)
    (st : State) :
  type (pointee nong) <> LOCAL ->
  m_downloadSongListeners st !! uid nong = None ->
  is_terminal terminal = true ->
  exists seen,
    state_changes (log_of (whole_download host nong web progress terminal st))
    = [(gdID (metadata (pointee nong)), seen)]
    /\ bookkeeping_cleared (uid nong) seen.
Proof.
  intros Htype Hnone Hterminal.
  set (l := mkDownloadListener (next_task st) (gdID (metadata (pointee nong)))
              (uid nong) (addr nong)).
  destruct (downloadSong_started host nong st Htype) as (_ & _ & Hlisten & _).
  pose proof (downloadSong_quiet host nong st) as Hcall.
  assert (Htail : forall s2 l2,
             m_downloadSongListeners s2
             = m_downloadSongListeners (state_of (downloadSong host nong st)) ->
             Forall no_state_change l2 ->
             exists seen,
               state_changes
                 (log_of (downloadSong host nong st) ++ l2
                  ++ log_of (for_each (map TaskProgress progress ++ [terminal])
                               (deliver host (uid nong) (next_task st)) s2))
               = [(gdID (metadata (pointee nong)), seen)]
               /\ bookkeeping_cleared (uid nong) seen).
  { intros s2 l2 Hkept Hquiet.
    assert (Hs2 : m_downloadSongListeners s2 !! dl_id l = Some l).
    { rewrite Hkept, Hlisten. unfold emplace. rewrite Hnone. apply lookup_insert_eq. }
    pose proof (deliver_whole_task host l progress terminal s2 Hs2) as Hdeliver.
    cbn [dl_id dl_task l] in Hdeliver. rewrite Hdeliver.
    destruct (whole_task_notifies_once host l progress terminal s2 Hterminal)
      as (seen & Hseen & Hcleared).
    exists seen. split; [|exact Hcleared].
    rewrite !state_changes_app, (quiet_log _ Hcall), (quiet_log l2 Hquiet).
    exact Hseen. }
  unfold whole_download, bind, get.
  destruct (downloadSong host nong st) as [[started s1] l1].
  cbn [state_of log_of fst snd] in Htail.
  destruct (pointee nong) as [s|yt|h] eqn:Hsong.
  - destruct Htype. reflexivity.
  - unfold ret.
    destruct (youtubeEvents_outcome host (next_task st) yt web (snd started) s1)
      as (_ & Hkept & _).
    pose proof (youtubeEvents_quiet host (next_task st) yt web (snd started) s1) as Hq.
    destruct (youtubeEvents host (next_task st) yt (snd started) web s1)
      as [[phase s2] l2].
    cbn [state_of log_of fst snd] in Hkept, Hq.
    destruct (Htail s2 l2 Hkept Hq) as (seen & Hseen & Hcleared).
    destruct (for_each _ (deliver host (uid nong) (next_task st)) s2) as [[[] s3] l3].
    cbn [log_of snd app] in Hseen |- *. rewrite app_nil_r.
    exists seen. split; assumption.
  - assert (Hnil : Forall no_state_change []) by constructor.
    destruct (Htail s1 [] eq_refl Hnil) as (seen & Hseen & Hcleared).
    unfold ret.
    destruct (for_each _ (deliver host (uid nong) (next_task st)) s1) as [[[] s3] l3].
    cbn [log_of snd app] in Hseen |- *.
    exists seen. split; assumption.
Qed.

Lemma started_download_notifies_once_witness :
  type (pointee hosted_ptr) <> LOCAL
  /\ m_downloadSongListeners idle !! uid hosted_ptr = None
  /\ is_terminal (TaskValue (Err "Web request failed")) = true
  /\ exists seen,
       state_changes
         (log_of (whole_download sample_host hosted_ptr [] [(1 # 4)%Q; (1 # 2)%Q]
                    (TaskValue (Err "Web request failed")) idle))
       = [(gdID (metadata (pointee hosted_ptr)), seen)]
       /\ bookkeeping_cleared (uid hosted_ptr) seen.
Proof.
  split; [discriminate|]. split; [reflexivity|]. split; [reflexivity|].
  apply (started_download_notifies_once sample_host hosted_ptr []
           [(1 # 4)%Q; (1 # 2)%Q] (TaskValue (Err "Web request failed")) idle);
    [discriminate | reflexivity | reflexivity].
Defined.

End DownloadClaims.
